(** * koneko-online-judge: the judgement job and the exact-match evaluator

    A shallow embedding of [server/models]' judgement job ([judgementJob.Run],
    [compile], [markAs], [executeCaseSet], [judgeCaseSet],
    [createJudgementWorker], [shuffleJudgeResults]) and of the exact-match
    evaluator ([simpleEvaluator], [simpleCaseSetEvaluator]); and of the
    session check of [user_session.go] ([CheckLogin], [getSession]).

    Conventions.
    - Go [int], [int64] and [time.Duration] are integers in [Z]; where the
      code adds two of them the 64-bit wrap-around is written out ([wrap64]).
    - Go strings are byte strings: [string], one [ascii] per byte.
    - The database is a store of rows keyed by primary key; an [Updates] on
      a key changes the row that is there and does nothing when there is
      none.
    - Sandboxes (the [workers.Worker] containers) live in a store inside the
      [World]; a handle is an index into that store.
    - The store holds the sandboxes that the functions of these files
      create.  The constructor of the special evaluator and its [remove] are
      outside them: the [Env] gives what the constructor hands back, and
      nothing is stated here about a sandbox it builds for itself.
    - Everything the job cannot decide by itself (whether a container can be
      created, what the parser reads, the random draws of the shuffle) is
      read from an [Env].
    - [GetSubmission] and the [Fetch...] methods are reads of the database
      outside the judged files: the submission comes from the [Env] with its
      relations as those calls load them, and a [Fetch...] call changes
      nothing of it. *)

From Stdlib Require Import ZArith String Ascii List Lia.
From stdpp Require Import base decidable countable option list gmap strings pretty.

Local Open Scope Z_scope.

(** ** Integers *)

(** Two's-complement wrap-around of a 64-bit signed integer. *)
Definition wrap64 (z : Z) : Z := (z + 2 ^ 63) mod 2 ^ 64 - 2 ^ 63.

(** Modelled from the spec: [MaxDuration] and [MaxLong] are helpers of the
    [models] package outside the judged files; the accumulators they feed
    are specified as maxima. *)
Definition MaxDuration (a b : Z) : Z := Z.max a b.
Definition MaxLong (a b : Z) : Z := Z.max a b.

(** ** Package [workers]: what the job sees of a sandbox run *)

Module workers.

(** Modelled from the spec: the [ExecStatus] type is declared in the
    [workers] package, outside the judged files; section 4.A lists its
    values. *)
Inductive ExecStatus :=
| StatusFinished
| StatusTimeLimitExceeded
| StatusMemoryLimitExceeded
| StatusRuntimeError
| StatusOutputLimitExceeded
| StatusInternalError.

Global Instance ExecStatus_eq_dec : EqDecision ExecStatus.
Proof. solve_decision. Defined.

Record ExecResult := {
  Status : ExecStatus;
  ExecTime : Z;
  MemoryUsage : Z;
  Stdout : string;
  Stderr : string;
}.

End workers.

(** ** Judgement statuses *)

(** Modelled from the spec: the [JudgementStatus] constants are declared
    outside the judged files; section 3 lists them. *)
Inductive JudgementStatus :=
| StatusWaitingJudge
| StatusJudging
| StatusAccepted
| StatusPresentationError
| StatusWrongAnswer
| StatusTimeLimitExceeded
| StatusMemoryLimitExceeded
| StatusRuntimeError
| StatusCompileError
| StatusOutputLimitExceeded
| StatusUnknownError.

Global Instance JudgementStatus_eq_dec : EqDecision JudgementStatus.
Proof. solve_decision. Defined.

Definition status_code (s : JudgementStatus) : nat :=
  match s with
  | StatusWaitingJudge => 0 | StatusJudging => 1 | StatusAccepted => 2
  | StatusPresentationError => 3 | StatusWrongAnswer => 4
  | StatusTimeLimitExceeded => 5 | StatusMemoryLimitExceeded => 6
  | StatusRuntimeError => 7 | StatusCompileError => 8
  | StatusOutputLimitExceeded => 9 | StatusUnknownError => 10
  end%nat.

Definition status_of_code (n : nat) : option JudgementStatus :=
  match n with
  | 0 => Some StatusWaitingJudge | 1 => Some StatusJudging
  | 2 => Some StatusAccepted | 3 => Some StatusPresentationError
  | 4 => Some StatusWrongAnswer | 5 => Some StatusTimeLimitExceeded
  | 6 => Some StatusMemoryLimitExceeded | 7 => Some StatusRuntimeError
  | 8 => Some StatusCompileError | 9 => Some StatusOutputLimitExceeded
  | 10 => Some StatusUnknownError | _ => None
  end%nat.

Lemma status_of_code_code s : status_of_code (status_code s) = Some s.
Proof. by destruct s. Qed.

Global Instance JudgementStatus_countable : Countable JudgementStatus :=
  inj_countable status_code status_of_code status_of_code_code.

(** ** Status folding *)

(** The Go map [map[JudgementStatus]int] of both evaluators.  A counter is
    bumped once per judged unit, and the units come from a slice, so a
    counter never reaches the range where an [int] would wrap. *)
Abbreviation StatusCounts := (gmap JudgementStatus Z).

(** [m[st]]: a missing key reads as 0. *)
Definition count_of (m : StatusCounts) (st : JudgementStatus) : Z :=
  default 0 (m !! st).

(** [m[st]++] *)
Definition bump (st : JudgementStatus) (m : StatusCounts) : StatusCounts :=
  <[st := count_of m st + 1]> m.

Definition statusPriority : list JudgementStatus :=
  [StatusUnknownError; StatusCompileError; StatusRuntimeError;
   StatusMemoryLimitExceeded; StatusTimeLimitExceeded;
   StatusOutputLimitExceeded; StatusWrongAnswer; StatusPresentationError;
   StatusAccepted].

(** Modelled from the spec: [evaluateStatuses] lives outside the judged
    files; section 4.H gives it as the highest-priority status present in the
    multiset, and UnknownError for the empty multiset. *)
Definition evaluateStatuses (m : StatusCounts) : JudgementStatus :=
  match filter (λ s, 0 < count_of m s) statusPriority with
  | s :: _ => s
  | [] => StatusUnknownError
  end.

(** ** Go's [strings.TrimSpace] on byte strings *)

Definition bytes (l : list nat) : list ascii := map ascii_of_nat l.

(** The UTF-8 encodings of the code points for which [unicode.IsSpace]
    holds: U+0009..U+000D, U+0020, U+0085, U+00A0, U+1680, U+2000..U+200A,
    U+2028, U+2029, U+202F, U+205F, U+3000. *)
Definition spaceEncodings : list (list ascii) :=
  map bytes
    ([[9]; [10]; [11]; [12]; [13]; [32]; [194; 133]; [194; 160];
      [225; 154; 128]]
     ++ map (λ b, [226; 128; b]) (seq 128 11)
     ++ [[226; 128; 168]; [226; 128; 169]; [226; 128; 175];
         [226; 129; 159]; [227; 128; 128]])%nat.

Fixpoint strip_prefix (p s : list ascii) : option (list ascii) :=
  match p, s with
  | [], _ => Some s
  | a :: p', b :: s' => if decide (a = b) then strip_prefix p' s' else None
  | _ :: _, [] => None
  end.

(** Drop one leading white-space rune, if there is one. *)
Fixpoint strip_any (encs : list (list ascii)) (s : list ascii)
  : option (list ascii) :=
  match encs with
  | [] => None
  | p :: encs' =>
      match strip_prefix p s with
      | Some s' => Some s'
      | None => strip_any encs' s
      end
  end.

Fixpoint trim_loop (fuel : nat) (encs : list (list ascii)) (s : list ascii)
  : list ascii :=
  match fuel with
  | O => s
  | S fuel' =>
      match strip_any encs s with
      | Some s' => trim_loop fuel' encs s'
      | None => s
      end
  end.

Definition trimLeft (s : list ascii) : list ascii :=
  trim_loop (length s) spaceEncodings s.

(** The last rune is found from the end of the string: the trailing bytes
    are matched against the encodings read backwards. *)
Definition trimRight (s : list ascii) : list ascii :=
  rev (trim_loop (length s) (map (@rev ascii) spaceEncodings) (rev s)).

Definition TrimSpace (s : string) : string :=
  string_of_list_ascii (trimRight (trimLeft (list_ascii_of_string s))).


(** ** The records the job reads *)

Module TestCase.
Record t := { ID : nat; Input : string; Output : string }.
End TestCase.

Module CaseSet.
Record t := { ID : nat; Point : Z }.
End CaseSet.

(** ** The exact-match evaluator *)

(** The [caseSetEvaluator] interface: an object is a state together with
    its two methods. *)
Record caseSetEvaluator := {
  cse_state : Type;
  cse_cur : cse_state;
  cse_next_fn : cse_state → option workers.ExecResult → TestCase.t →
                (JudgementStatus * Z) * cse_state;
  cse_evaluate_fn : cse_state → JudgementStatus * Z;
}.

Definition cse_next (c : caseSetEvaluator) (res : option workers.ExecResult)
    (testCase : TestCase.t) : (JudgementStatus * Z) * caseSetEvaluator :=
  let '(r, s) := cse_next_fn c (cse_cur c) res testCase in
  (r, {| cse_cur := s; cse_next_fn := cse_next_fn c;
         cse_evaluate_fn := cse_evaluate_fn c |}).

Definition cse_evaluate (c : caseSetEvaluator) : JudgementStatus * Z :=
  cse_evaluate_fn c (cse_cur c).

Module simpleCaseSetEvaluator.

Record t := { setPoint : Z; statuses : StatusCounts }.

Definition new (set : CaseSet.t) : t :=
  {| setPoint := CaseSet.Point set; statuses := ∅ |}.

(** The anonymous function of [next]: the verdict of one case. *)
Definition classify (res : option workers.ExecResult)
    (testCase : TestCase.t) : JudgementStatus * Z :=
  match res with
  | None => (StatusUnknownError, 0)
  | Some res =>
      match workers.Status res with
      | workers.StatusMemoryLimitExceeded => (StatusMemoryLimitExceeded, 0)
      | workers.StatusTimeLimitExceeded => (StatusTimeLimitExceeded, 0)
      | workers.StatusRuntimeError => (StatusRuntimeError, 0)
      | workers.StatusFinished =>
          if decide (workers.Stdout res = TestCase.Output testCase)
          then (StatusAccepted, 0)
          else if decide (TrimSpace (workers.Stdout res)
                          = TrimSpace (TestCase.Output testCase))
          then (StatusPresentationError, 0)
          else (StatusWrongAnswer, 0)
      | _ => (StatusUnknownError, 0)
      end
  end.

Definition next (e : t) (res : option workers.ExecResult)
    (testCase : TestCase.t) : (JudgementStatus * Z) * t :=
  let '(st, _) := classify res testCase in
  ((st, 0), {| setPoint := setPoint e; statuses := bump st (statuses e) |}).

Definition evaluate (e : t) : JudgementStatus * Z :=
  let st := evaluateStatuses (statuses e) in
  if decide (st = StatusAccepted) then (st, setPoint e) else (st, 0).

Definition object (e : t) : caseSetEvaluator :=
  {| cse_cur := e; cse_next_fn := next; cse_evaluate_fn := evaluate |}.

End simpleCaseSetEvaluator.

Definition newSimpleCaseSetEvaluator (set : CaseSet.t) : caseSetEvaluator :=
  simpleCaseSetEvaluator.object (simpleCaseSetEvaluator.new set).

Module simpleEvaluator.

(** [lastSet] is a pointer the caller of [next] also holds: the caller's
    calls on the returned set evaluator act on this field (see [setNext]). *)
Record t := {
  point : Z;
  statuses : StatusCounts;
  lastSet : option caseSetEvaluator;
}.

Definition new : t := {| point := 0; statuses := ∅; lastSet := None |}.

(** [next(set, factory)]; a nil [set] or [factory] is [None].  The set
    evaluator handed back is the new [lastSet]. *)
Definition next (e : t) (set : option CaseSet.t)
    (factory : option (CaseSet.t → caseSetEvaluator)) : t :=
  let e1 :=
    match lastSet e with
    | Some ls =>
        let '(st, pt) := cse_evaluate ls in
        {| point := wrap64 (point e + pt);
           statuses := bump st (statuses e);
           lastSet := lastSet e |}
    | None => e
    end in
  match set with
  | None => e1
  | Some set =>
      let ls := match factory with
                | None => newSimpleCaseSetEvaluator set
                | Some f => f set
                end in
      {| point := point e1; statuses := statuses e1; lastSet := Some ls |}
  end.

Definition evaluate (e : t) : (JudgementStatus * Z) * t :=
  match lastSet e with
  | None => ((StatusUnknownError, 0), e)
  | Some _ =>
      let e1 := next e None None in
      ((evaluateStatuses (statuses e1), point e1), e1)
  end.

(** A call [setEval.next(res, testCase)] made through the pointer that
    [next] returned.  With no set evaluator there is nothing to call; the
    job never does that, it always calls [next] with a set first. *)
Definition setNext (e : t) (res : option workers.ExecResult)
    (testCase : TestCase.t) : (JudgementStatus * Z) * t :=
  match lastSet e with
  | Some ls =>
      let '(r, ls') := cse_next ls res testCase in
      (r, {| point := point e; statuses := statuses e; lastSet := Some ls' |})
  | None => ((StatusUnknownError, 0), e)
  end.

(** [setEval.evaluate()] through the same pointer. *)
Definition setEvaluate (e : t) : JudgementStatus * Z :=
  match lastSet e with
  | Some ls => cse_evaluate ls
  | None => (StatusUnknownError, 0)
  end.

End simpleEvaluator.

(** ** The job's records *)

Module JudgeResult.
Record t := {
  ID : nat;
  TestCase : TestCase.t;
  Status : JudgementStatus;
  ExecTime : Z;
  MemoryUsage : Z;
}.
End JudgeResult.

Module JudgeSetResult.
Record t := {
  ID : nat;
  CaseSet : CaseSet.t;
  JudgeResults : list JudgeResult.t;
  Status : JudgementStatus;
  Point : Z;
  ExecTime : Z;
  MemoryUsage : Z;
}.

(** The four assignments at the end of [judgeCaseSet]. *)
Definition judged (r : t) (st : JudgementStatus) (pt et mu : Z) : t :=
  {| ID := ID r; CaseSet := CaseSet r; JudgeResults := JudgeResults r;
     Status := st; Point := pt; ExecTime := et; MemoryUsage := mu |}.

Definition withJudgeResults (r : t) (rs : list JudgeResult.t) : t :=
  {| ID := ID r; CaseSet := CaseSet r; JudgeResults := rs;
     Status := Status r; Point := Point r; ExecTime := ExecTime r;
     MemoryUsage := MemoryUsage r |}.
End JudgeSetResult.

Inductive JudgeType :=
| JudgeTypeNormal
| JudgeTypePrecision
| JudgeTypeSpecial
| JudgeTypeOther.

Module Language.
Record t := { ImageName : string; FileName : string; ExeFileName : string }.
End Language.

Module Submission.
Record t := {
  ID : nat;
  UserID : nat;
  SourceCode : string;
  Language : Language.t;
  JudgeType : JudgeType;
  ContestID : option nat;
  JudgeSetResults : list JudgeSetResult.t;
  Status : JudgementStatus;
  Point : Z;
  ExecTime : Z;
  MemoryUsage : Z;
}.

Definition withStatus (s : t) (st : JudgementStatus) : t :=
  {| ID := ID s; UserID := UserID s; SourceCode := SourceCode s;
     Language := Language s; JudgeType := JudgeType s;
     ContestID := ContestID s; JudgeSetResults := JudgeSetResults s;
     Status := st; Point := Point s; ExecTime := ExecTime s;
     MemoryUsage := MemoryUsage s |}.

(** The four assignments after the evaluation in [Run]. *)
Definition judged (s : t) (pt : Z) (st : JudgementStatus) (et mu : Z) : t :=
  {| ID := ID s; UserID := UserID s; SourceCode := SourceCode s;
     Language := Language s; JudgeType := JudgeType s;
     ContestID := ContestID s; JudgeSetResults := JudgeSetResults s;
     Status := st; Point := pt; ExecTime := et; MemoryUsage := mu |}.
End Submission.

(** ** The database *)

(** The columns the job writes in [submissions] and [judge_set_results]. *)
Record Row := {
  status : JudgementStatus;
  point : Z;
  exec_time : Z;
  memory_usage : Z;
}.

(** The columns the job writes in [judge_results]. *)
Record CaseRow := {
  case_status : JudgementStatus;
  case_exec_time : Z;
  case_memory_usage : Z;
}.

Record DB := {
  submissions : gmap nat Row;
  judge_set_results : gmap nat Row;
  judge_results : gmap nat CaseRow;
}.

Definition setStatus (st : JudgementStatus) (r : Row) : Row :=
  {| status := st; point := point r; exec_time := exec_time r;
     memory_usage := memory_usage r |}.

Definition setCaseStatus (st : JudgementStatus) (r : CaseRow) : CaseRow :=
  {| case_status := st; case_exec_time := case_exec_time r;
     case_memory_usage := case_memory_usage r |}.

(** [db.Model(&Submission{ID: id}).Updates(query)] *)
Definition updateSubmission (id : nat) (f : Row → Row) (d : DB) : DB :=
  {| submissions := alter f id (submissions d);
     judge_set_results := judge_set_results d;
     judge_results := judge_results d |}.

(** [db.Model(&JudgeSetResult{ID: id}).Updates(query)] *)
Definition updateJudgeSetResult (id : nat) (f : Row → Row) (d : DB) : DB :=
  {| submissions := submissions d;
     judge_set_results := alter f id (judge_set_results d);
     judge_results := judge_results d |}.

(** [db.Model(&JudgeResult{ID: id}).Updates(query)] *)
Definition updateJudgeResult (id : nat) (f : CaseRow → CaseRow) (d : DB) : DB :=
  {| submissions := submissions d;
     judge_set_results := judge_set_results d;
     judge_results := alter f id (judge_results d) |}.

(** ** Sandboxes *)

Inductive error :=
| ErrParseOutput
| ErrOther (msg : string).

Global Instance error_eq_dec : EqDecision error.
Proof. solve_decision. Defined.

(** What one call of the parser's [Next] hands back: [(has, res, err)];
    [res] is a pointer and may be nil. *)
Record NextResult := {
  has : bool;
  res : option workers.ExecResult;
  err : option error;
}.

(** The parser over a sandbox's captured output: the answer of the [i]-th
    call of [Next], counted from 0. *)
Definition Parser := nat → NextResult.

Record Sandbox := {
  image : string;
  files : gmap string string;
  output : Parser;
  removed : bool;
}.

Definition noOutput : Parser :=
  λ _, {| has := false; res := None; err := None |}.

Definition newSandbox (img : string) : Sandbox :=
  {| image := img; files := ∅; output := noOutput; removed := false |}.

Definition withFile (path content : string) (s : Sandbox) : Sandbox :=
  {| image := image s; files := <[path := content]> (files s);
     output := output s; removed := removed s |}.

Definition withOutput (p : Parser) (s : Sandbox) : Sandbox :=
  {| image := image s; files := files s; output := p; removed := removed s |}.

Definition destroyed (s : Sandbox) : Sandbox :=
  {| image := image s; files := files s; output := output s; removed := true |}.

(** ** The world the job acts on *)

Record World := {
  db : DB;
  sandboxes : list Sandbox;
  notifications : list (option nat * Submission.t);
  scoreUpdates : list (Submission.t * nat);
}.

Definition withDB (f : DB → DB) (w : World) : World :=
  {| db := f (db w); sandboxes := sandboxes w;
     notifications := notifications w; scoreUpdates := scoreUpdates w |}.

Definition withSandboxes (f : list Sandbox → list Sandbox) (w : World) : World :=
  {| db := db w; sandboxes := f (sandboxes w);
     notifications := notifications w; scoreUpdates := scoreUpdates w |}.

(** A [*workers.Worker] is the index of its sandbox; nil is [None]. *)
Definition Worker := nat.

(** [workers.NewTimeoutWorker], [workers.NewJudgementWorker] when they
    succeed: a fresh sandbox. *)
Definition createSandbox (img : string) (w : World) : Worker * World :=
  (length (sandboxes w), withSandboxes (λ l, l ++ [newSandbox img]) w).

(** [w.Remove()] *)
Definition Remove (h : Worker) (w : World) : World :=
  withSandboxes (alter destroyed h) w.

(** [w.CopyContentToContainer(content, path)] when it succeeds. *)
Definition CopyContentToContainer (h : Worker) (content path : string)
    (w : World) : World :=
  withSandboxes (alter (withFile path content) h) w.

(** [src.CopyTo(path, dst)] when it succeeds. *)
Definition CopyTo (src : Worker) (path : string) (dst : Worker) (w : World)
  : World :=
  match sandboxes w !! src ≫= λ s, files s !! path with
  | Some content => CopyContentToContainer dst content path w
  | None => w
  end.

(** [workers.NewExecResultParser(w)] *)
Definition NewExecResultParser (h : Worker) (w : World) : Parser :=
  match sandboxes w !! h with
  | Some s => output s
  | None => noOutput
  end.

(** ** The evaluator interface, as the job uses it *)

(** [eval.next(&set, nil)] returns a pointer to the set evaluator that the
    evaluator itself keeps (its [lastSet]); what the job does through that
    pointer is seen by the evaluator at its next [next] or [evaluate].  The
    two objects are therefore one state here, with the methods of both:
    [ev_setNext_fn] and [ev_setEvaluate_fn] are the calls through the
    pointer. *)
Record evaluator := {
  ev_state : Type;
  ev_cur : ev_state;
  ev_next_fn : ev_state → CaseSet.t → ev_state;
  ev_setNext_fn : ev_state → option workers.ExecResult → TestCase.t →
                  (JudgementStatus * Z) * ev_state;
  ev_setEvaluate_fn : ev_state → JudgementStatus * Z;
  ev_evaluate_fn : ev_state → (JudgementStatus * Z) * ev_state;
}.

Definition ev_with (e : evaluator) (s : ev_state e) : evaluator :=
  {| ev_cur := s; ev_next_fn := ev_next_fn e;
     ev_setNext_fn := ev_setNext_fn e;
     ev_setEvaluate_fn := ev_setEvaluate_fn e;
     ev_evaluate_fn := ev_evaluate_fn e |}.

Definition ev_next (e : evaluator) (set : CaseSet.t) : evaluator :=
  ev_with e (ev_next_fn e (ev_cur e) set).

Definition ev_setNext (e : evaluator) (res : option workers.ExecResult)
    (testCase : TestCase.t) : (JudgementStatus * Z) * evaluator :=
  let '(r, s) := ev_setNext_fn e (ev_cur e) res testCase in (r, ev_with e s).

Definition ev_setEvaluate (e : evaluator) : JudgementStatus * Z :=
  ev_setEvaluate_fn e (ev_cur e).

Definition ev_evaluate (e : evaluator) : (JudgementStatus * Z) * evaluator :=
  let '(r, s) := ev_evaluate_fn e (ev_cur e) in (r, ev_with e s).

Definition newSimpleEvaluator : evaluator :=
  {| ev_cur := simpleEvaluator.new;
     ev_next_fn := λ e set, simpleEvaluator.next e (Some set) None;
     ev_setNext_fn := simpleEvaluator.setNext;
     ev_setEvaluate_fn := simpleEvaluator.setEvaluate;
     ev_evaluate_fn := simpleEvaluator.evaluate |}.

(** ** What the job reads from outside *)

(** A seeded [*rand.Rand]: the raw value behind its [k]-th draw. *)
Definition Rand := nat → nat.

(** [r.Intn(n)] at the [k]-th draw: a value in [0, n). *)
Definition Intn (r : Rand) (k n : nat) : nat := (r k mod n)%nat.

(** The outside of one case set's execution. *)
Record SetEnv := {
  newWorker : bool;          (** [workers.NewJudgementWorker] succeeds *)
  copyScript : bool;         (** the copy of [judge.sh] succeeds *)
  copyInput : nat → bool;    (** the copy of the [i]-th input succeeds *)
  copyExe : bool;            (** the copy of the executable succeeds *)
  seed : option Rand;        (** [crand.Int]: the seeded source, or an error *)
  run : Sandbox → option Parser;
                             (** [w.Run]: what the parser will read, or an error *)
}.

Record Env := {
  Workspace : string;                       (** [workers.Workspace] *)
  GetSubmission : nat → option Submission.t;
                   (** the submission with its relations fetched, or nil *)
  newPrecisionEvaluator : evaluator;
  newSpecialEvaluator : option evaluator;
                   (** what the constructor hands back, [None] when it
                       fails; a sandbox it uses for itself is its own and
                       is not in the store of the [World] *)
  compileNewWorker : bool;
  compileCopy : bool;
  compileRun : option workers.ExecResult;   (** [None]: [w.Run] fails *)
  judgeScript : option string;              (** [getJudgeScript] *)
  setEnv : nat → SetEnv;                    (** by [JudgeSetResult.ID] *)
  isWriter : option bool;                   (** [None]: [IsWriter] fails *)
  isOpen : bool;
}.

Definition imageNamePrefix : string := "koneko-online-judge-image-".

(** [strconv.Itoa] *)
Definition Itoa (i : Z) : string := pretty i.

Definition inputPath (i : nat) : string :=
  "/tmp/input/" +:+ Itoa (Z.of_nat i) +:+ ".txt".

(** ** [shuffleJudgeResults] *)

(** [l[i], l[j] = l[j], l[i]]; Go panics on an index out of range, which the
    loop below never produces. *)
Definition swap {A} (l : list A) (i j : nat) : list A :=
  match l !! i, l !! j with
  | Some x, Some y => <[j := x]> (<[i := y]> l)
  | _, _ => l
  end.

(** The loop [for i := n - 1; i >= 0; i--], entered with [m = i + 1] after
    [k] draws. *)
Fixpoint shuffle_loop {A} (r : Rand) (k m : nat) (results : list A) : list A :=
  match m with
  | O => results
  | S i =>
      let j := Intn r k (i + 1) in
      shuffle_loop r (S k) i (swap results i j)
  end.

(** The slice is shuffled in place; the result is its new content.  When
    the seed cannot be drawn the function returns an error, which its caller
    drops, and the slice is as it was. *)
Definition shuffleJudgeResults {A} (sd : option Rand) (results : list A)
  : list A :=
  match sd with
  | None => results
  | Some r => shuffle_loop r 0 (length results) results
  end.

(** ** [createJudgementWorker] *)

(** The loop that copies the inputs; [false] when a copy fails. *)
Fixpoint injectInputs (se : SetEnv) (h : Worker) (i : nat)
    (results : list JudgeResult.t) (w : World) : bool * World :=
  match results with
  | [] => (true, w)
  | r :: rest =>
      if copyInput se i
      then injectInputs se h (S i) rest
             (CopyContentToContainer h
                (TestCase.Input (JudgeResult.TestCase r)) (inputPath i) w)
      else (false, w)
  end.

(** The job: [j.submission] and [j.compiled]. *)
Record judgementJob := {
  submission : Submission.t;
  compiled : option Worker;
}.

(** Returns the worker ([None] with an error), the slice [results] as the
    function leaves it, and the world.  When [NewJudgementWorker] fails no
    sandbox exists, and the [Remove] on the worker it returned has nothing
    to destroy. *)
Definition createJudgementWorker (env : Env) (se : SetEnv) (j : judgementJob)
    (results : list JudgeResult.t) (w : World)
  : option Worker * list JudgeResult.t * World :=
  let language := Submission.Language (submission j) in
  if negb (newWorker se) then (None, results, w) else
  let '(h, w) :=
    createSandbox (imageNamePrefix +:+ Language.ImageName language) w in
  match judgeScript env with
  | None => (None, results, Remove h w)
  | Some script =>
      if negb (copyScript se) then (None, results, Remove h w) else
      let w := CopyContentToContainer h script "/tmp/judge.sh" w in
      let results := shuffleJudgeResults (seed se) results in
      match injectInputs se h 0 results w with
      | (false, w) => (None, results, Remove h w)
      | (true, w) =>
          match compiled j with
          | Some c =>
              if negb (copyExe se) then (None, results, Remove h w) else
              (Some h, results,
               CopyTo c (Workspace env +:+ Language.ExeFileName language) h w)
          | None => (None, results, Remove h w)
          end
      end
  end.

(** ** [executeCaseSet] *)

(** [result.JudgeResults] is the slice that [createJudgementWorker]
    shuffles, so the caller's [result] sees the new order. *)
Definition executeCaseSet (env : Env) (j : judgementJob)
    (result : JudgeSetResult.t) (w : World)
  : option Worker * JudgeSetResult.t * World :=
  let se := setEnv env (JudgeSetResult.ID result) in
  let '(h, results, w) :=
    createJudgementWorker env se j (JudgeSetResult.JudgeResults result) w in
  let result := JudgeSetResult.withJudgeResults result results in
  match h with
  | None => (None, result, w)
  | Some h =>
      match sandboxes w !! h ≫= run se with
      | None => (None, result, w)
      | Some p => (Some h, result, withSandboxes (alter (withOutput p) h) w)
      end
  end.

(** ** [judgeCaseSet] *)

(** How a function leaves: it returns (with its error, or nil) or it
    panics. *)
Inductive Exit :=
| Returned (e : option error)
| Panicked.

(** The loop over the cases, entered at index [i] of [n]; [Some x] when the
    loop leaves the function, [None] when it runs to its end. *)
Fixpoint judgeCases (p : Parser) (n i : nat) (results : list JudgeResult.t)
    (ev : evaluator) (d : DB) : option Exit * evaluator * DB :=
  match results with
  | [] => (None, ev, d)
  | r :: rest =>
      let nx := p i in
      match err nx with
      | Some e => (Some (Returned (Some e)), ev, d)
      | None =>
          if negb (has nx) && negb (bool_decide (Z.of_nat i = Z.of_nat n - 1))
          then (Some (Returned (Some ErrParseOutput)), ev, d)
          else
            let '((st, _), ev) :=
              ev_setNext ev (res nx) (JudgeResult.TestCase r) in
            match res nx with
            | None => (Some Panicked, ev, d)   (* [res.ExecTime] on nil *)
            | Some x =>
                let row := {| case_status := st;
                              case_exec_time := workers.ExecTime x;
                              case_memory_usage :=
                                Z.quot (workers.MemoryUsage x) 1024 |} in
                judgeCases p n (S i) rest ev
                  (updateJudgeResult (JudgeResult.ID r) (λ _, row) d)
            end
      end
  end.

(** The deferred [w.Remove()] runs however the function leaves. *)
Definition judgeCaseSet (h : Worker) (ev : evaluator)
    (setResult : JudgeSetResult.t) (w : World)
  : Exit * evaluator * JudgeSetResult.t * World :=
  let maxExecTime := 0 in
  let maxMemoryUsage := 0 in
  let p := NewExecResultParser h w in
  let results := JudgeSetResult.JudgeResults setResult in
  let '(early, ev, d) := judgeCases p (length results) 0 results ev (db w) in
  let '(exit, setResult, d) :=
    match early with
    | Some x => (x, setResult, d)
    | None =>
        let '(st, pt) := ev_setEvaluate ev in
        let setResult :=
          JudgeSetResult.judged setResult st pt maxExecTime maxMemoryUsage in
        let row := {| status := st; point := pt; exec_time := maxExecTime;
                      memory_usage := maxMemoryUsage |} in
        (Returned None, setResult,
         updateJudgeSetResult (JudgeSetResult.ID setResult) (λ _, row) d)
    end in
  (exit, ev, setResult, Remove h (withDB (λ _, d) w)).

(** ** [compile] *)

(** The compile sandbox is returned only when the source was copied and the
    run was attached; on the two later error paths it stays in the world
    and no handle to it is returned. *)
Definition compile (env : Env) (sourceCode : string) (language : Language.t)
    (w : World) : option Worker * option workers.ExecResult * World :=
  if negb (compileNewWorker env) then (None, None, w) else
  let '(h, w) :=
    createSandbox (imageNamePrefix +:+ Language.ImageName language) w in
  if negb (compileCopy env) then (None, None, w) else
  let w := CopyContentToContainer h sourceCode
             (Workspace env +:+ Language.FileName language) w in
  match compileRun env with
  | None => (None, None, w)
  | Some res => (Some h, Some res, w)
  end.

(** ** [markAs] *)

Definition markAs (setResults : list JudgeSetResult.t)
    (st : JudgementStatus) (d : DB) : DB :=
  foldl
    (λ d s,
       foldl (λ d r, updateJudgeResult (JudgeResult.ID r) (setCaseStatus st) d)
         (updateJudgeSetResult (JudgeSetResult.ID s) (setStatus st) d)
         (JudgeSetResult.JudgeResults s))
    d setResults.

(** ** [judgementJob.Close] *)

Definition Close (j : judgementJob) (w : World) : World :=
  match compiled j with
  | None => w
  | Some c => Remove c w
  end.

(** ** [judgementJob.Run] *)

(** The loop over [j.submission.JudgeSetResults].  [r] is the loop's copy of
    the element: what [executeCaseSet] and [judgeCaseSet] write through [&r]
    is read back from it for the two maxima and then dropped.  [eval.next]
    reads [r.CaseSet] as the submission was loaded, before [executeCaseSet]
    fetches it again.  The error of [judgeCaseSet] is not looked at.  The
    boolean tells whether the loop panicked. *)
Fixpoint judgeSets (env : Env) (j : judgementJob)
    (sets : list JudgeSetResult.t) (eval : evaluator)
    (execTime memoryUsage : Z) (w : World)
  : bool * evaluator * Z * Z * World :=
  match sets with
  | [] => (false, eval, execTime, memoryUsage, w)
  | r :: rest =>
      let setEval := ev_next eval (JudgeSetResult.CaseSet r) in
      let '(h, r, w) := executeCaseSet env j r w in
      match h with
      | None => (false, setEval, execTime, memoryUsage, w)   (* break *)
      | Some h =>
          let '(exit, setEval, r, w) := judgeCaseSet h setEval r w in
          match exit with
          | Panicked => (true, setEval, execTime, memoryUsage, w)
          | Returned _ =>
              judgeSets env j rest setEval
                (MaxDuration execTime (JudgeSetResult.ExecTime r))
                (MaxLong memoryUsage (JudgeSetResult.MemoryUsage r)) w
          end
      end
  end.

(** The variables of [Run] that its deferred calls read. *)
Record RunState := {
  job : judgementJob;
  execTime : Z;
  memoryUsage : Z;
  runPoint : Z;
  finalStatus : JudgementStatus;
}.

(** The [switch] on the judge type; [None] on the two paths that log an
    error. *)
Definition selectEvaluator (env : Env) (t : JudgeType) : option evaluator :=
  match t with
  | JudgeTypeNormal => Some newSimpleEvaluator
  | JudgeTypePrecision => Some (newPrecisionEvaluator env)
  | JudgeTypeSpecial => newSpecialEvaluator env
  | JudgeTypeOther => None
  end.

(** The last block of [Run]: the score of a contest submission. *)
Definition contestScore (env : Env) (sub : Submission.t) (w : World) : World :=
  match Submission.ContestID sub with
  | None => w
  | Some contestID =>
      match isWriter env with
      | None => w
      | Some writer =>
          if isOpen env && negb writer
          then {| db := db w; sandboxes := sandboxes w;
                  notifications := notifications w;
                  scoreUpdates := scoreUpdates w ++ [(sub, contestID)] |}
          else w
      end
  end.

(** [Run] from the evaluator's choice to its last statement, without the
    deferred calls. *)
Definition runBody (env : Env) (sub : Submission.t) (w : World)
  : Exit * RunState * World :=
  let sets := Submission.JudgeSetResults sub in
  match selectEvaluator env (Submission.JudgeType sub) with
  | None =>
      (Returned None,
       {| job := {| submission := sub; compiled := None |};
          execTime := 0; memoryUsage := 0; runPoint := 0;
          finalStatus := StatusUnknownError |},
       withDB (markAs sets StatusUnknownError) w)
  | Some eval =>
      let '(c, compileRes, w) :=
        compile env (Submission.SourceCode sub) (Submission.Language sub) w in
      let j := {| submission := sub; compiled := c |} in
      let '(panicked, eval, st, et, mu, w) :=
        match c, compileRes with
        | Some _, Some r =>
            if decide (workers.Status r ≠ workers.StatusFinished)
            then (false, eval, StatusCompileError, 0, 0,
                  withDB (markAs sets StatusCompileError) w)
            else
              let '(p, eval, et, mu, w) := judgeSets env j sets eval 0 0 w in
              (p, eval, StatusUnknownError, et, mu, w)
        | _, _ =>
            (false, eval, StatusUnknownError, 0, 0,
             withDB (markAs sets StatusUnknownError) w)
        end in
      if panicked : bool
      then (Panicked,
            {| job := j; execTime := et; memoryUsage := mu; runPoint := 0;
               finalStatus := st |}, w)
      else
        let '(st, pt) :=
          if decide (st ≠ StatusCompileError)
          then fst (ev_evaluate eval) else (st, 0) in
        let sub := Submission.judged sub pt st et mu in
        (Returned None,
         {| job := {| submission := sub; compiled := c |};
            execTime := et; memoryUsage := mu; runPoint := pt;
            finalStatus := st |},
         contestScore env sub w)
  end.

(** The deferred closure of [Run]: it writes the submission's row from the
    variables as they are when [Run] leaves, and announces the change. *)
Definition finalize (s : RunState) (w : World) : World :=
  let sub := submission (job s) in
  let row := {| status := finalStatus s; point := runPoint s;
                exec_time := execTime s; memory_usage := memoryUsage s |} in
  {| db := updateSubmission (Submission.ID sub) (λ _, row) (db w);
     sandboxes := sandboxes w;
     notifications := notifications w ++ [(Submission.ContestID sub, sub)];
     scoreUpdates := scoreUpdates w |}.

(** Modelled from the spec: [SetStatus] is a method of [Submission] outside
    the judged files; step 2 of section 4.E marks the submission Judging. *)
Definition SetStatus (sub : Submission.t) (st : JudgementStatus) (w : World)
  : Submission.t * World :=
  (Submission.withStatus sub st,
   withDB (updateSubmission (Submission.ID sub) (setStatus st)) w).

(** [Run]: the body, then the deferred calls, last registered first
    ([eval.remove()], which touches nothing of this world; the closure
    [finalize]; [j.Close()]).  They run on a panic as well, and the panic
    goes on to the caller. *)
Definition Run (env : Env) (submissionID : nat) (w : World) : Exit * World :=
  match GetSubmission env submissionID with
  | None => (Returned None, w)
  | Some sub =>
      let '(sub, w) := SetStatus sub StatusJudging w in
      let '(exit, s, w) := runBody env sub w in
      (exit, Close (job s) (finalize s w))
  end.

(** ** Judging through the exact-match evaluator *)

(** The counters after the verdicts [sts], from the empty map. *)
Definition tally (sts : list JudgementStatus) : StatusCounts :=
  foldr bump ∅ sts.

(** One judged case: what the parser handed back, and the test case. *)
Definition JudgedCase : Type := option workers.ExecResult * TestCase.t.

(** A set evaluator fed the cases of a set in turn: the verdicts it
    returned, and the evaluator afterwards. *)
Fixpoint feedCases (e : simpleCaseSetEvaluator.t) (cases : list JudgedCase)
  : list JudgementStatus * simpleCaseSetEvaluator.t :=
  match cases with
  | [] => ([], e)
  | (r, tc) :: rest =>
      let '((st, _), e) := simpleCaseSetEvaluator.next e r tc in
      let '(sts, e) := feedCases e rest in
      (st :: sts, e)
  end.

(** The verdict and point of a set judged on [cases]. *)
Definition setVerdict (set : CaseSet.t) (cases : list JudgedCase)
  : JudgementStatus * Z :=
  simpleCaseSetEvaluator.evaluate
    (feedCases (simpleCaseSetEvaluator.new set) cases).2.

(** The submission evaluator as the job drives it: [next] with each set,
    then the cases of the set through the pointer [next] returned. *)
Fixpoint feedSet (e : simpleEvaluator.t) (cases : list JudgedCase)
  : simpleEvaluator.t :=
  match cases with
  | [] => e
  | (r, tc) :: rest => feedSet (simpleEvaluator.setNext e r tc).2 rest
  end.

Fixpoint feedSets (e : simpleEvaluator.t)
    (sets : list (CaseSet.t * list JudgedCase)) : simpleEvaluator.t :=
  match sets with
  | [] => e
  | (set, cases) :: rest =>
      feedSets (feedSet (simpleEvaluator.next e (Some set) None) cases) rest
  end.

Definition sumPoints (pts : list Z) : Z := foldr Z.add 0 pts.

(** The running total as the evaluator keeps it. *)
Definition addPoints (acc : Z) (pts : list Z) : Z :=
  foldl (λ a p, wrap64 (a + p)) acc pts.

Definition inInt64 (z : Z) : Prop := - 2 ^ 63 ≤ z < 2 ^ 63.

(** C6 as the claim states it, for one set judged on [cases]: the full
    point exactly when the set is Accepted, which is exactly when every case
    is Accepted, and no point otherwise. *)
Definition fullPointIffAllAccepted (set : CaseSet.t)
    (cases : list JudgedCase) : Prop :=
  let sts := (feedCases (simpleCaseSetEvaluator.new set) cases).1 in
  let v := setVerdict set cases in
  (v.2 = CaseSet.Point set ↔ v.1 = StatusAccepted) ∧
  (v.1 = StatusAccepted ↔ Forall (λ s, s = StatusAccepted) sts) ∧
  (v.1 ≠ StatusAccepted → v.2 = 0).

(** The submission evaluator of the exact-match judge in state [e]. *)
Definition simpleEval (e : simpleEvaluator.t) : evaluator :=
  ev_with newSimpleEvaluator e.

(** A call of [Next] that presents a block. *)
Definition presents (nx : NextResult) : Prop :=
  has nx = true ∧ is_Some (res nx) ∧ err nx = None.

Definition resultIDs (s : JudgeSetResult.t) : list nat :=
  map JudgeResult.ID (JudgeSetResult.JudgeResults s).

(** ** The batch runner and the naive judgement *)

(** Modelled from the spec: the batch-runner script [judge.sh] and the
    parser of its output are outside the judged files; by section 4.B the
    script runs the program on [/tmp/input/<i>.txt] for each [i] in turn and
    emits one block per case, which the parser presents in stream order,
    and nothing is present after the last block. *)
Definition batchRunner (prog : string → workers.ExecResult) (s : Sandbox)
  : Parser :=
  λ i, match files s !! inputPath i with
       | Some input => {| has := true; res := Some (prog input); err := None |}
       | None => noOutput i
       end.

(** A set whose sandbox is built and run without an error, with the program
    [prog] inside and the shuffle seeded by [sd]. *)
Definition runningSet (prog : string → workers.ExecResult)
    (sd : option Rand) : SetEnv :=
  {| newWorker := true; copyScript := true; copyInput := λ _, true;
     copyExe := true; seed := sd;
     run := λ s, Some (batchRunner prog s) |}.

(** An outside like [env] in which every set runs [prog] under the batch
    runner without an error, the shuffle seeded by [sd]. *)
Definition batchEnv (env : Env) (prog : string → workers.ExecResult)
    (sd : option Rand) : Env :=
  {| Workspace := Workspace env;
     GetSubmission := GetSubmission env;
     newPrecisionEvaluator := newPrecisionEvaluator env;
     newSpecialEvaluator := newSpecialEvaluator env;
     compileNewWorker := compileNewWorker env;
     compileCopy := compileCopy env;
     compileRun := compileRun env;
     judgeScript := judgeScript env;
     setEnv := λ _, runningSet prog sd;
     isWriter := isWriter env; isOpen := isOpen env |}.

(** The naive judgement of one test case, in the spec's words: the program
    is run on the input of the case and its result is classified against
    the expected output of that same case. *)
Definition naiveCase (prog : string → workers.ExecResult) (c : JudgeResult.t)
  : JudgedCase :=
  (Some (prog (TestCase.Input (JudgeResult.TestCase c))),
   JudgeResult.TestCase c).

Definition naiveVerdict (prog : string → workers.ExecResult)
    (c : JudgeResult.t) : JudgementStatus :=
  (simpleCaseSetEvaluator.classify (naiveCase prog c).1 (naiveCase prog c).2).1.

(** The row of a case under the naive judgement. *)
Definition naiveRow (prog : string → workers.ExecResult) (c : JudgeResult.t)
  : CaseRow :=
  let x := prog (TestCase.Input (JudgeResult.TestCase c)) in
  {| case_status := naiveVerdict prog c;
     case_exec_time := workers.ExecTime x;
     case_memory_usage := Z.quot (workers.MemoryUsage x) 1024 |}.

(** The rows of [results] written one after the other under the naive
    judgement. *)
Definition writeNaiveRows (prog : string → workers.ExecResult)
    (results : list JudgeResult.t) (d : DB) : DB :=
  foldl (λ d x, updateJudgeResult (JudgeResult.ID x) (λ _, naiveRow prog x) d)
    d results.

(** The sandbox after the inputs of [results] were copied to the slots from
    [i] on. *)
Fixpoint withInputs (i : nat) (results : list JudgeResult.t) (s : Sandbox)
  : Sandbox :=
  match results with
  | [] => s
  | c :: rest =>
      withInputs (S i) rest
        (withFile (inputPath i) (TestCase.Input (JudgeResult.TestCase c)) s)
  end.

(** ** Sample inputs *)

Definition sampleCase : TestCase.t :=
  {| TestCase.ID := 1; TestCase.Input := "1 2"; TestCase.Output := "3" |}.

Definition outputLimitRun : workers.ExecResult :=
  {| workers.Status := workers.StatusOutputLimitExceeded;
     workers.ExecTime := 10; workers.MemoryUsage := 2048;
     workers.Stdout := "3"; workers.Stderr := "" |}.

Definition emptySetEvaluator : simpleCaseSetEvaluator.t :=
  simpleCaseSetEvaluator.new {| CaseSet.ID := 1; CaseSet.Point := 100 |}.

Definition acceptedRun : workers.ExecResult :=
  {| workers.Status := workers.StatusFinished;
     workers.ExecTime := 7; workers.MemoryUsage := 4096;
     workers.Stdout := "3"; workers.Stderr := "" |}.

Definition paddedRun : workers.ExecResult :=
  {| workers.Status := workers.StatusFinished;
     workers.ExecTime := 8; workers.MemoryUsage := 5000;
     workers.Stdout := " 3 "; workers.Stderr := "" |}.

Definition timedOutRun : workers.ExecResult :=
  {| workers.Status := workers.StatusTimeLimitExceeded;
     workers.ExecTime := 5000; workers.MemoryUsage := 1024;
     workers.Stdout := ""; workers.Stderr := "" |}.

Definition sampleSet : CaseSet.t := {| CaseSet.ID := 1; CaseSet.Point := 100 |}.

Definition sampleSets : list (CaseSet.t * list JudgedCase) :=
  [ (sampleSet, [(Some acceptedRun, sampleCase); (Some acceptedRun, sampleCase)]);
    ({| CaseSet.ID := 2; CaseSet.Point := 50 |},
     [(Some acceptedRun, sampleCase); (Some paddedRun, sampleCase)]);
    ({| CaseSet.ID := 3; CaseSet.Point := 30 |},
     [(Some acceptedRun, sampleCase)]) ].

(** A program that adds two numbers it knows. *)
Definition adder (input : string) : workers.ExecResult :=
  {| workers.Status := workers.StatusFinished;
     workers.ExecTime := 7;
     workers.MemoryUsage := 4096 * 1024 + 1000;
     workers.Stdout :=
       if decide (input = "1 2") then "3"
       else if decide (input = "10 20") then "30"
       else if decide (input = "5 5") then "10"
       else "0";
     workers.Stderr := "" |}.

Definition sampleResult (id : nat) (input output : string) : JudgeResult.t :=
  {| JudgeResult.ID := id;
     JudgeResult.TestCase :=
       {| TestCase.ID := id; TestCase.Input := input;
          TestCase.Output := output |};
     JudgeResult.Status := StatusWaitingJudge;
     JudgeResult.ExecTime := 0; JudgeResult.MemoryUsage := 0 |}.

Definition sampleSetResult (id : nat) (pt : Z) (rs : list JudgeResult.t)
  : JudgeSetResult.t :=
  {| JudgeSetResult.ID := id;
     JudgeSetResult.CaseSet := {| CaseSet.ID := id; CaseSet.Point := pt |};
     JudgeSetResult.JudgeResults := rs;
     JudgeSetResult.Status := StatusWaitingJudge;
     JudgeSetResult.Point := 0;
     JudgeSetResult.ExecTime := 0; JudgeSetResult.MemoryUsage := 0 |}.

Definition sampleSubmission : Submission.t :=
  {| Submission.ID := 1; Submission.UserID := 1;
     Submission.SourceCode := "main(){}";
     Submission.Language :=
       {| Language.ImageName := "c"; Language.FileName := "main.c";
          Language.ExeFileName := "main.o" |};
     Submission.JudgeType := JudgeTypeNormal;
     Submission.ContestID := None;
     Submission.JudgeSetResults :=
       [ sampleSetResult 10 100
           [sampleResult 100 "1 2" "3"; sampleResult 101 "10 20" "30"];
         sampleSetResult 11 50 [sampleResult 102 "5 5" "10"] ];
     Submission.Status := StatusWaitingJudge;
     Submission.Point := 0; Submission.ExecTime := 0;
     Submission.MemoryUsage := 0 |}.

Definition blankRow : Row :=
  {| status := StatusWaitingJudge; point := 0; exec_time := 0;
     memory_usage := 0 |}.

Definition blankCaseRow : CaseRow :=
  {| case_status := StatusWaitingJudge; case_exec_time := 0;
     case_memory_usage := 0 |}.

Definition sampleWorld : World :=
  {| db := {| submissions := {[ 1%nat := blankRow ]};
              judge_set_results :=
                {[ 10%nat := blankRow; 11%nat := blankRow ]};
              judge_results :=
                {[ 100%nat := blankCaseRow; 101%nat := blankCaseRow;
                   102%nat := blankCaseRow ]} |};
     sandboxes := []; notifications := []; scoreUpdates := [] |}.

Definition finishedCompile : workers.ExecResult :=
  {| workers.Status := workers.StatusFinished; workers.ExecTime := 100;
     workers.MemoryUsage := 1000000; workers.Stdout := "";
     workers.Stderr := "" |}.


(** The outside in which nothing fails: the compiler answers [compileRes]
    and every set runs as [sets] says. *)
Definition sampleEnv (compileRes : workers.ExecResult) (sets : nat → SetEnv)
  : Env :=
  {| Workspace := "/tmp/koj-workspace/";
     GetSubmission := λ id, if decide (id = 1%nat) then Some sampleSubmission
                            else None;
     newPrecisionEvaluator := newSimpleEvaluator;
     newSpecialEvaluator := None;
     compileNewWorker := true; compileCopy := true;
     compileRun := Some compileRes;
     judgeScript := Some "#!/bin/sh";
     setEnv := sets;
     isWriter := Some false; isOpen := true |}.

Definition happyEnv : Env :=
  sampleEnv finishedCompile (λ _, runningSet adder (Some (λ k, k))).

(** The set of which [w.Run] fails. *)
Definition failingRun : SetEnv :=
  {| newWorker := true; copyScript := true; copyInput := λ _, true;
     copyExe := true; seed := None; run := λ _, None |}.

(** The set whose output is malformed from its [k]-th block on. *)
Definition malformedFrom (k : nat) : SetEnv :=
  {| newWorker := true; copyScript := true; copyInput := λ _, true;
     copyExe := true; seed := None;
     run := λ s, Some (λ i, if decide (i < k)%nat then batchRunner adder s i
                            else {| has := false; res := None;
                                    err := Some (ErrOther "malformed") |}) |}.

(** Set 10 cannot be run; set 11 could. *)
Definition runFailsEnv : Env :=
  sampleEnv finishedCompile
    (λ id, if decide (id = 10%nat) then failingRun
           else runningSet adder None).

(** The source cannot be copied into the compile sandbox. *)
Definition compileCopyFailsEnv : Env :=
  {| Workspace := "/tmp/koj-workspace/";
     GetSubmission := GetSubmission happyEnv;
     newPrecisionEvaluator := newSimpleEvaluator;
     newSpecialEvaluator := None;
     compileNewWorker := true; compileCopy := false;
     compileRun := Some finishedCompile;
     judgeScript := Some "#!/bin/sh";
     setEnv := setEnv happyEnv;
     isWriter := Some false; isOpen := true |}.

(** The set whose runner is killed after its first [k] blocks: the parser
    presents those, and nothing after them. *)
Definition killedAfter (k : nat) : SetEnv :=
  {| newWorker := true; copyScript := true; copyInput := λ _, true;
     copyExe := true; seed := None;
     run := λ s, Some (λ i, if decide (i < k)%nat then batchRunner adder s i
                            else noOutput i) |}.

(** The last block of set 10 is missing; set 11 would run. *)
Definition lastBlockMissingEnv : Env :=
  sampleEnv finishedCompile
    (λ id, if decide (id = 10%nat) then killedAfter 1
           else runningSet adder None).

(** The output of set 10 is malformed at its second block; set 11 runs. *)
Definition parseFailsEnv : Env :=
  sampleEnv finishedCompile
    (λ id, if decide (id = 10%nat) then malformedFrom 1
           else runningSet adder None).


(** The parser that presents the results of [adder] on the first [k]
    inputs of set 10 of the sample, and nothing after. *)
Definition blocksOf (k : nat) : Parser :=
  λ i, if decide (i < k)%nat
       then {| has := true; res := Some (adder "1 2"); err := None |}
       else noOutput i.

(** The sample world with one sandbox that was run and produced [p]. *)
Definition parsedWorld (p : Parser) : World :=
  {| db := db sampleWorld;
     sandboxes := [withOutput p (newSandbox "koneko-online-judge-image-c")];
     notifications := []; scoreUpdates := [] |}.

Definition firstSetResult : JudgeSetResult.t :=
  sampleSetResult 10 100
    [sampleResult 100 "1 2" "3"; sampleResult 101 "10 20" "30"].

Definition firstSetEvaluator : evaluator :=
  ev_next newSimpleEvaluator (JudgeSetResult.CaseSet firstSetResult).

(** The job after a compile that succeeded: the compile sandbox is sandbox
    0 of [compiledWorld]. *)
Definition compiledJob : judgementJob :=
  {| submission := sampleSubmission; compiled := Some 0%nat |}.

Definition compiledWorld : World :=
  {| db := db sampleWorld;
     sandboxes := [newSandbox "koneko-online-judge-image-c"];
     notifications := []; scoreUpdates := [] |}.

(** ** The sandbox store, seen from outside *)

(** Which sandboxes of the store are destroyed, in the order they were
    created. *)
Definition removedFlags (w : World) : list bool := map removed (sandboxes w).




(** ** The shuffle with Go's bounds checks *)

(** [l[i], l[j] = l[j], l[i]] as Go runs it: [None] is the panic on an index
    out of range. *)
Definition swapChecked {A} (l : list A) (i j : nat) : option (list A) :=
  match l !! i, l !! j with
  | Some x, Some y => Some (<[j := x]> (<[i := y]> l))
  | _, _ => None
  end.

(** The loop of [shuffleJudgeResults] with these checks. *)
Fixpoint shuffleLoopChecked {A} (r : Rand) (k m : nat) (results : list A)
  : option (list A) :=
  match m with
  | O => Some results
  | S i =>
      match swapChecked results i (Intn r k (i + 1)) with
      | Some results' => shuffleLoopChecked r (S k) i results'
      | None => None
      end
  end.

(** ** Verdicts, counted *)

(** How many of [cases] the exact-match set evaluator gives the verdict
    [st]. *)
Definition casesWith (st : JudgementStatus) (cases : list JudgedCase) : nat :=
  length (filter (λ c, (simpleCaseSetEvaluator.classify c.1 c.2).1 = st)
            cases).

(** ** Rows and their keys *)

(** The table [m'] has the rows of [m], updated at keys of [ids] at most:
    every key has the row it had, or is one of [ids] and has a row before
    and after. *)
Definition updatedWithin {V} (ids : list nat) (m m' : gmap nat V) : Prop :=
  ∀ k, m' !! k = m !! k ∨ (k ∈ ids ∧ is_Some (m !! k) ∧ is_Some (m' !! k)).

(** ** White space in one byte *)

(** The code points of [spaceEncodings] below U+0080: tab, line feed,
    vertical tab, form feed, carriage return and space. *)
Definition asciiSpace : list ascii := bytes [9; 10; 11; 12; 13; 32]%nat.

(** The string is made of such bytes only. *)
Definition blank (s : string) : Prop :=
  Forall (λ a, a ∈ asciiSpace) (list_ascii_of_string s).

(** * The sessions of a user *)

(** A [time.Time] read from the database is kept as its nanoseconds since
    the epoch, a [time.Duration] as its nanoseconds; the struct [User] is
    outside these files and is kept as its key. *)
Module UserSession.
Record t := {
  ID : nat;
  CreatedAt : Z;
  UpdatedAt : Z;
  User : nat;
  UserID : nat;
  TokenDigest : string;
}.

Definition withUser (s : t) (u : nat) : t :=
  {| ID := ID s; CreatedAt := CreatedAt s; UpdatedAt := UpdatedAt s;
     User := u; UserID := UserID s; TokenDigest := TokenDigest s |}.
End UserSession.

(** [t.Sub(u)]: the difference, or the largest or smallest [Duration] when
    the difference does not fit. *)
Definition Sub (t u : Z) : Z := Z.max (- 2 ^ 63) (Z.min (2 ^ 63 - 1) (t - u)).

Definition Hour : Z := 3600 * 1000000000.

Definition lifetimeTicks : Z := 24 * Hour.

(** What the session functions read from outside. *)
Record SessionEnv := {
  firstSession : nat → option UserSession.t;
             (** [db.Where(&UserSession{UserID: id}).First]: the row found *)
  Now : Z;                                           (** [time.Now()] *)
  CompareHashAndPassword : string → string → bool;   (** [true]: no error *)
  relatedUser : UserSession.t → nat;  (** [db.Model(s).Related(&s.User)] *)
}.

(** When no row is found the struct keeps the key it was built with and
    the zero [ID]. *)
Definition getSession (env : SessionEnv) (userID : nat)
  : option UserSession.t :=
  let session :=
    match firstSession env userID with
    | Some s => s
    | None =>
        {| UserSession.ID := 0; UserSession.CreatedAt := 0;
           UserSession.UpdatedAt := 0; UserSession.User := 0;
           UserSession.UserID := userID; UserSession.TokenDigest := "" |}
    end in
  if decide (UserSession.ID session = 0%nat) then None else Some session.

Definition FetchUser (env : SessionEnv) (s : UserSession.t) : UserSession.t :=
  UserSession.withUser s (relatedUser env s).

Definition CheckLogin (env : SessionEnv) (userID : nat) (token : string)
  : option UserSession.t :=
  match getSession env userID with
  | None => None
  | Some session =>
      let duration := Sub (UserSession.CreatedAt session) (Now env) in
      if decide (lifetimeTicks < duration) then None
      else if negb (CompareHashAndPassword env
                      (UserSession.TokenDigest session) token)
      then None
      else Some (FetchUser env session)
  end.

(** A session of user 7, and a clock a thousand days after it was made. *)
Definition oldSession : UserSession.t :=
  {| UserSession.ID := 3; UserSession.CreatedAt := 0;
     UserSession.UpdatedAt := 0; UserSession.User := 0;
     UserSession.UserID := 7; UserSession.TokenDigest := "digest" |}.

Definition laterEnv : SessionEnv :=
  {| firstSession := λ id, if decide (id = 7%nat) then Some oldSession
                           else None;
     Now := 1000 * lifetimeTicks;
     CompareHashAndPassword := λ digest token, bool_decide (token = "token");
     relatedUser := UserSession.UserID |}.

(** * Properties *)

(** ** [TrimSpace] and the status fold on small inputs *)

Example TrimSpace_ascii :
  TrimSpace (string_of_list_ascii (bytes [32; 9; 51; 32; 52; 13; 10]%nat))
  = "3 4".
Proof. reflexivity. Qed.

(** U+00A0 in front and U+3000 behind are white space; U+200B is not. *)
Example TrimSpace_unicode :
  TrimSpace (string_of_list_ascii
               (bytes [194; 160; 51; 227; 128; 128; 10]%nat)) = "3"
  ∧ TrimSpace (string_of_list_ascii (bytes [226; 128; 139; 51]%nat))
    = string_of_list_ascii (bytes [226; 128; 139; 51]%nat).
Proof. split; reflexivity. Qed.

Example evaluateStatuses_priority_order :
  evaluateStatuses (tally [StatusAccepted; StatusWrongAnswer;
                           StatusPresentationError]) = StatusWrongAnswer
  ∧ evaluateStatuses (tally [StatusAccepted; StatusAccepted]) = StatusAccepted
  ∧ evaluateStatuses (tally [StatusTimeLimitExceeded; StatusUnknownError])
    = StatusUnknownError.
Proof. repeat split. Qed.

Example shuffle_four :
  shuffleJudgeResults (Some (λ k, k)) [1; 2; 3; 4]%nat = [3; 4; 2; 1]%nat
  ∧ shuffleJudgeResults None [1; 2; 3; 4]%nat = [1; 2; 3; 4]%nat.
Proof. split; reflexivity. Qed.

(** ** The exact-match evaluator: one case *)

Section simple_case.
Import simpleCaseSetEvaluator.

Lemma next_status e r tc : (next e r tc).1.1 = (classify r tc).1.
Proof. unfold next. by destruct (classify r tc). Qed.

Lemma next_point e r tc : (next e r tc).1.2 = 0.
Proof. unfold next. by destruct (classify r tc). Qed.

Lemma next_statuses e r tc :
  statuses (next e r tc).2 = bump (classify r tc).1 (statuses e).
Proof. unfold next. by destruct (classify r tc). Qed.

Lemma next_setPoint e r tc : setPoint (next e r tc).2 = setPoint e.
Proof. unfold next. by destruct (classify r tc). Qed.
End simple_case.

(** C4.  The verdict of one case by the exact-match evaluator: on a Finished
    run, Accepted when the output is byte for byte the expected one,
    PresentationError when the two differ but are equal once trimmed,
    WrongAnswer otherwise; a run that ended MemoryLimitExceeded,
    TimeLimitExceeded or RuntimeError gets the verdict of that name; the
    point of a case is always 0. *)
Theorem simple_next_verdict (e : simpleCaseSetEvaluator.t)
    (r : workers.ExecResult) (tc : TestCase.t) :
  let out := (simpleCaseSetEvaluator.next e (Some r) tc).1 in
  (workers.Status r = workers.StatusFinished →
     (workers.Stdout r = TestCase.Output tc → out.1 = StatusAccepted) ∧
     (workers.Stdout r ≠ TestCase.Output tc →
      TrimSpace (workers.Stdout r) = TrimSpace (TestCase.Output tc) →
      out.1 = StatusPresentationError) ∧
     (workers.Stdout r ≠ TestCase.Output tc →
      TrimSpace (workers.Stdout r) ≠ TrimSpace (TestCase.Output tc) →
      out.1 = StatusWrongAnswer)) ∧
  (workers.Status r = workers.StatusMemoryLimitExceeded →
     out.1 = StatusMemoryLimitExceeded) ∧
  (workers.Status r = workers.StatusTimeLimitExceeded →
     out.1 = StatusTimeLimitExceeded) ∧
  (workers.Status r = workers.StatusRuntimeError →
     out.1 = StatusRuntimeError) ∧
  out.2 = 0 ∧
  ∀ r', (simpleCaseSetEvaluator.next e r' tc).1.2 = 0.
Proof.
  cbn zeta. rewrite next_status, next_point.
  cbn [simpleCaseSetEvaluator.classify].
  split; [|split; [|split; [|split; [|split]]]].
  - intros ->. split; [|split].
    + intros Heq. by rewrite decide_True.
    + intros Hne Ht. rewrite decide_False by done. by rewrite decide_True.
    + intros Hne Ht. by rewrite !decide_False.
  - by intros ->.
  - by intros ->.
  - by intros ->.
  - done.
  - intros r'. apply next_point.
Qed.

(** C5, as the code has it.  A run that ended OutputLimitExceeded falls
    into the [default] branch of the exact-match evaluator: the verdict is
    UnknownError. *)
Theorem simple_next_output_limit (e : simpleCaseSetEvaluator.t)
    (r : workers.ExecResult) (tc : TestCase.t) :
  workers.Status r = workers.StatusOutputLimitExceeded →
  (simpleCaseSetEvaluator.next e (Some r) tc).1.1 = StatusUnknownError.
Proof. intros H. rewrite next_status. cbn. by rewrite H. Qed.

Lemma simple_next_output_limit_witness :
  (simpleCaseSetEvaluator.next emptySetEvaluator (Some outputLimitRun)
     sampleCase).1.1 = StatusUnknownError.
Proof. apply simple_next_output_limit. reflexivity. Defined.

(** C5 as stated fails: the verdict of an OutputLimitExceeded run is not the
    judgement status OutputLimitExceeded. *)
Lemma simple_next_output_limit_not_mapped :
  ¬ (∀ e r tc,
       workers.Status r = workers.StatusOutputLimitExceeded →
       (simpleCaseSetEvaluator.next e (Some r) tc).1.1
       = StatusOutputLimitExceeded).
Proof.
  intros H.
  specialize (H emptySetEvaluator outputLimitRun sampleCase eq_refl).
  rewrite next_status in H. discriminate H.
Qed.

Lemma simple_next_verdict_witness :
  (simpleCaseSetEvaluator.next emptySetEvaluator (Some acceptedRun)
     sampleCase).1.1 = StatusAccepted
  ∧ (simpleCaseSetEvaluator.next emptySetEvaluator (Some paddedRun)
       sampleCase).1.1 = StatusPresentationError
  ∧ (simpleCaseSetEvaluator.next emptySetEvaluator (Some timedOutRun)
       sampleCase).1.1 = StatusTimeLimitExceeded.
Proof.
  split; [|split].
  - destruct (simple_next_verdict emptySetEvaluator acceptedRun sampleCase)
      as (Hfin & _).
    destruct (Hfin eq_refl) as (Hacc & _). apply Hacc. reflexivity.
  - destruct (simple_next_verdict emptySetEvaluator paddedRun sampleCase)
      as (Hfin & _).
    destruct (Hfin eq_refl) as (_ & Hpe & _).
    apply Hpe; [discriminate | reflexivity].
  - destruct (simple_next_verdict emptySetEvaluator timedOutRun sampleCase)
      as (_ & _ & Htle & _).
    apply Htle. reflexivity.
Defined.

(** ** Status folding *)

Lemma count_of_bump st m s :
  count_of (bump st m) s = count_of m s + (if decide (st = s) then 1 else 0).
Proof.
  unfold bump, count_of. destruct (decide (st = s)) as [->|Hne].
  - by rewrite lookup_insert_eq.
  - rewrite lookup_insert_ne by done. lia.
Qed.

Lemma bump_bump a b m : bump a (bump b m) = bump b (bump a m).
Proof.
  apply map_eq. intros s. unfold bump, count_of.
  destruct (decide (a = b)) as [->|Hab]; [done|].
  rewrite !lookup_insert.
  repeat case_decide; simplify_eq; done.
Qed.

Lemma count_of_empty s : count_of ∅ s = 0.
Proof. unfold count_of. by rewrite lookup_empty. Qed.

Lemma tally_cons a sts : tally (a :: sts) = bump a (tally sts).
Proof. reflexivity. Qed.

Lemma count_of_tally_nonneg sts s : 0 ≤ count_of (tally sts) s.
Proof.
  induction sts as [|a sts IH].
  - cbn. by rewrite count_of_empty.
  - rewrite tally_cons, count_of_bump. case_decide; lia.
Qed.

Lemma count_of_tally_pos sts s : 0 < count_of (tally sts) s ↔ s ∈ sts.
Proof.
  induction sts as [|a sts IH].
  - cbn. rewrite count_of_empty. split; [lia|]. by intros ?%elem_of_nil.
  - rewrite tally_cons, count_of_bump, elem_of_cons.
    pose proof (count_of_tally_nonneg sts s).
    case_decide; subst.
    + split; [by left | lia].
    + rewrite Z.add_0_r, IH. split; [by right | by intros [->|?]].
Qed.

(** The first counted status of a priority list that ends in [x]. *)
Lemma first_counted_last (m : StatusCounts) (l : list JudgementStatus) x d :
  x ∉ l → x ≠ d →
  match filter (λ s, 0 < count_of m s) (l ++ [x]) with
  | s :: _ => s
  | [] => d
  end = x ↔
  0 < count_of m x ∧ ∀ s, s ∈ l → ¬ 0 < count_of m s.
Proof.
  intros Hx Hd. induction l as [|a l IH]; cbn [app].
  - rewrite filter_cons, filter_nil. case_decide.
    + split; [|done]. intros _. split; [done|]. by intros s ?%elem_of_nil.
    + split; [by intros <-|]. by intros [? _].
  - apply not_elem_of_cons in Hx as [Hxa Hx]. specialize (IH Hx).
    rewrite filter_cons. case_decide as Ha.
    + split; [by intros ->|]. intros [_ Hno]. destruct (Hno a); [by left|done].
    + rewrite IH. split; intros [? Hno]; (split; [done|]).
      * intros s [->|?]%elem_of_cons; [done|by apply Hno].
      * intros s ?. apply Hno. by right.
Qed.

(** The fold is Accepted exactly when Accepted is counted and none of the
    statuses before it in the priority order is. *)
Lemma evaluateStatuses_Accepted m :
  evaluateStatuses m = StatusAccepted ↔
  0 < count_of m StatusAccepted ∧
  ∀ s, s ∈ statusPriority → s ≠ StatusAccepted → ¬ 0 < count_of m s.
Proof.
  unfold evaluateStatuses.
  change statusPriority with
    ([StatusUnknownError; StatusCompileError; StatusRuntimeError;
      StatusMemoryLimitExceeded; StatusTimeLimitExceeded;
      StatusOutputLimitExceeded; StatusWrongAnswer; StatusPresentationError]
     ++ [StatusAccepted]).
  rewrite first_counted_last; [| |done].
  - split; intros [? Hno]; (split; [done|]).
    + intros s [Hs|Hs%list_elem_of_singleton]%elem_of_app ?; [by apply Hno|done].
    + intros s Hs. apply Hno.
      * apply elem_of_app. by left.
      * intros ->.
        repeat (apply elem_of_cons in Hs as [Hs|Hs]; [discriminate Hs|]).
        by apply elem_of_nil in Hs.
  - rewrite !not_elem_of_cons. repeat split; try done. apply not_elem_of_nil.
Qed.

Lemma evaluateStatuses_empty : evaluateStatuses ∅ = StatusUnknownError.
Proof. reflexivity. Qed.

(** ** The exact-match evaluator: a set, and a submission *)

Lemma wrap64_small z : inInt64 z → wrap64 z = z.
Proof. unfold inInt64, wrap64. intros H. rewrite Z.mod_small; lia. Qed.

Lemma sumPoints_app l1 l2 : sumPoints (l1 ++ l2) = sumPoints l1 + sumPoints l2.
Proof. unfold sumPoints. induction l1; cbn; lia. Qed.

Lemma addPoints_exact pts :
  (∀ k, inInt64 (sumPoints (take k pts))) → addPoints 0 pts = sumPoints pts.
Proof.
  induction pts as [|p pts IH] using rev_ind; [done|].
  intros H. unfold addPoints in *. rewrite foldl_app. cbn [foldl].
  rewrite IH.
  - rewrite sumPoints_app. cbn. rewrite Z.add_0_r.
    apply wrap64_small.
    specialize (H (length (pts ++ [p]))). rewrite firstn_all in H.
    rewrite sumPoints_app in H. cbn in H. by rewrite Z.add_0_r in H.
  - intros k. destruct (decide (k ≤ length pts)%nat).
    + specialize (H k). by rewrite take_app_le in H.
    + specialize (H (length pts)). rewrite take_app_le, firstn_all in H by done.
      rewrite take_ge by lia. done.
Qed.

Lemma feedCases_statuses e cases :
  simpleCaseSetEvaluator.statuses (feedCases e cases).2
  = foldr bump (simpleCaseSetEvaluator.statuses e) (rev (feedCases e cases).1).
Proof.
  revert e. induction cases as [|[r tc] rest IH]; intros e; [done|].
  cbn [feedCases].
  pose proof (next_status e r tc) as Hst.
  pose proof (next_statuses e r tc) as Hm.
  destruct (simpleCaseSetEvaluator.next e r tc) as [[st p] e1].
  cbn in Hst, Hm. specialize (IH e1).
  destruct (feedCases e1 rest) as [sts e2]. cbn in *.
  rewrite IH, foldr_app. cbn. by rewrite Hm, Hst.
Qed.

Lemma feedCases_setPoint e cases :
  simpleCaseSetEvaluator.setPoint (feedCases e cases).2
  = simpleCaseSetEvaluator.setPoint e.
Proof.
  revert e. induction cases as [|[r tc] rest IH]; intros e; [done|].
  cbn [feedCases]. pose proof (next_setPoint e r tc) as Hp.
  destruct (simpleCaseSetEvaluator.next e r tc) as [[st p] e1].
  specialize (IH e1). destruct (feedCases e1 rest) as [sts e2].
  cbn in *. congruence.
Qed.

(** The verdicts of the exact-match evaluator are statuses of the priority
    list. *)
Lemma classify_priority r tc :
  (simpleCaseSetEvaluator.classify r tc).1 ∈ statusPriority.
Proof.
  unfold simpleCaseSetEvaluator.classify, statusPriority.
  destruct r as [r|]; [destruct (workers.Status r)|];
    repeat case_decide; cbn; rewrite !elem_of_cons; tauto.
Qed.

Lemma feedCases_priority e cases :
  Forall (λ s, s ∈ statusPriority) (feedCases e cases).1.
Proof.
  revert e. induction cases as [|[r tc] rest IH]; intros e; [by constructor|].
  cbn [feedCases]. pose proof (next_status e r tc) as Hst.
  destruct (simpleCaseSetEvaluator.next e r tc) as [[st p] e1].
  specialize (IH e1). destruct (feedCases e1 rest) as [sts e2].
  cbn in *. constructor; [|done]. subst st. apply classify_priority.
Qed.

Lemma elem_of_rev {A} (x : A) l : x ∈ rev l ↔ x ∈ l.
Proof. rewrite !list_elem_of_In. symmetry. apply in_rev. Qed.

Lemma setVerdict_status set cases :
  (setVerdict set cases).1
  = evaluateStatuses
      (tally (rev (feedCases (simpleCaseSetEvaluator.new set) cases).1)).
Proof.
  unfold setVerdict, simpleCaseSetEvaluator.evaluate.
  rewrite feedCases_statuses. cbn [simpleCaseSetEvaluator.new
    simpleCaseSetEvaluator.statuses]. unfold tally. by case_decide.
Qed.

Lemma setVerdict_point set cases :
  (setVerdict set cases).2
  = if decide ((setVerdict set cases).1 = StatusAccepted)
    then CaseSet.Point set else 0.
Proof.
  unfold setVerdict, simpleCaseSetEvaluator.evaluate.
  rewrite feedCases_setPoint. cbn [simpleCaseSetEvaluator.new
    simpleCaseSetEvaluator.setPoint].
  case_decide as H; cbn [fst snd].
  - by rewrite decide_True.
  - by rewrite decide_False.
Qed.

Lemma setVerdict_Accepted set cases :
  let sts := (feedCases (simpleCaseSetEvaluator.new set) cases).1 in
  (setVerdict set cases).1 = StatusAccepted ↔
  sts ≠ [] ∧ Forall (λ s, s = StatusAccepted) sts.
Proof.
  intros sts. rewrite setVerdict_status. fold sts.
  rewrite evaluateStatuses_Accepted, count_of_tally_pos, elem_of_rev.
  pose proof (feedCases_priority (simpleCaseSetEvaluator.new set) cases)
    as Hprio. fold sts in Hprio.
  split.
  - intros [Hin Hno]. split; [by intros Heq; rewrite Heq in Hin;
                                apply elem_of_nil in Hin|].
    apply Forall_forall. intros s Hs.
    destruct (decide (s = StatusAccepted)) as [|Hne]; [done|].
    exfalso. apply (Hno s).
    + by eapply Forall_forall in Hprio.
    + done.
    + by rewrite count_of_tally_pos, elem_of_rev.
  - intros [Hne Hall]. split.
    + destruct sts as [|s sts']; [done|].
      apply Forall_cons in Hall as [-> _]. by left.
    + intros s _ Hs Hpos.
      rewrite count_of_tally_pos, elem_of_rev in Hpos.
      eapply Forall_forall in Hall; [|exact Hpos]. done.
Qed.

Lemma cse_next_object e r tc :
  cse_next (simpleCaseSetEvaluator.object e) r tc
  = ((simpleCaseSetEvaluator.next e r tc).1,
     simpleCaseSetEvaluator.object (simpleCaseSetEvaluator.next e r tc).2).
Proof.
  unfold cse_next. cbn. by destruct (simpleCaseSetEvaluator.next e r tc).
Qed.

(** Feeding the cases through the pointer feeds the set evaluator that the
    submission evaluator keeps. *)
Lemma feedSet_object e c cases :
  simpleEvaluator.lastSet e = Some (simpleCaseSetEvaluator.object c) →
  feedSet e cases
  = {| simpleEvaluator.point := simpleEvaluator.point e;
       simpleEvaluator.statuses := simpleEvaluator.statuses e;
       simpleEvaluator.lastSet :=
         Some (simpleCaseSetEvaluator.object (feedCases c cases).2) |}.
Proof.
  revert e c. induction cases as [|[r tc] rest IH]; intros e c He.
  - destruct e; cbn in *. by subst.
  - cbn [feedSet feedCases]. unfold simpleEvaluator.setNext at 1.
    rewrite He, cse_next_object.
    destruct (simpleCaseSetEvaluator.next c r tc) as [[st p] c1] eqn:Hn.
    cbn [fst snd]. erewrite IH by reflexivity. cbn.
    by destruct (feedCases c1 rest).
Qed.

Lemma evaluate_feedSets e c sets :
  simpleEvaluator.lastSet e = Some (simpleCaseSetEvaluator.object c) →
  (simpleEvaluator.evaluate (feedSets e sets)).1.2
  = addPoints (simpleEvaluator.point e)
      ((simpleCaseSetEvaluator.evaluate c).2
       :: map (λ sc, (setVerdict sc.1 sc.2).2) sets).
Proof.
  revert e c. induction sets as [|[set cases] rest IH]; intros e c He.
  - cbn. unfold simpleEvaluator.evaluate, simpleEvaluator.next. rewrite He.
    unfold cse_evaluate. cbn.
    by destruct (simpleCaseSetEvaluator.evaluate c).
  - cbn [feedSets map].
    set (e1 := simpleEvaluator.next e (Some set) None).
    assert (simpleEvaluator.lastSet e1
            = Some (simpleCaseSetEvaluator.object
                      (simpleCaseSetEvaluator.new set))) as He1.
    { unfold e1, simpleEvaluator.next. rewrite He.
      by destruct (cse_evaluate _). }
    assert (simpleEvaluator.point e1
            = wrap64 (simpleEvaluator.point e
                      + (simpleCaseSetEvaluator.evaluate c).2)) as Hp1.
    { unfold e1, simpleEvaluator.next. rewrite He. unfold cse_evaluate. cbn.
      by destruct (simpleCaseSetEvaluator.evaluate c). }
    rewrite (feedSet_object e1 _ cases He1).
    erewrite IH by reflexivity. cbn [simpleEvaluator.point].
    rewrite Hp1. reflexivity.
Qed.

Lemma evaluate_feedSets_new sets :
  (simpleEvaluator.evaluate (feedSets simpleEvaluator.new sets)).1.2
  = addPoints 0 (map (λ sc, (setVerdict sc.1 sc.2).2) sets).
Proof.
  destruct sets as [|[set cases] rest]; [done|].
  cbn [feedSets map].
  rewrite (feedSet_object _ (simpleCaseSetEvaluator.new set)) by done.
  erewrite evaluate_feedSets by reflexivity.
  cbn [simpleEvaluator.point simpleEvaluator.next simpleEvaluator.new
       simpleEvaluator.lastSet].
  reflexivity.
Qed.

(** C6 as stated fails on a set without cases: every case of it is
    Accepted, yet the fold of no status is UnknownError and the set earns
    nothing. *)
Lemma empty_set_not_accepted : ¬ fullPointIffAllAccepted sampleSet [].
Proof.
  intros (_ & Hall & _). cbn in Hall.
  destruct Hall as [_ Hall]. specialize (Hall ltac:(constructor)).
  discriminate Hall.
Qed.

(** C6, amended.  A set judged by the exact-match evaluator earns its full
    point when its status is Accepted and 0 otherwise; its status is
    Accepted exactly when it has at least one judged case and every judged
    case is Accepted; and, as long as the running total stays an [int], the
    point of the submission is the sum of the points of its sets. *)
Theorem simple_points (sets : list (CaseSet.t * list JudgedCase)) :
  let pts := map (λ sc, (setVerdict sc.1 sc.2).2) sets in
  (∀ k, inInt64 (sumPoints (take k pts))) →
  (∀ set cases, (set, cases) ∈ sets →
     let sts := (feedCases (simpleCaseSetEvaluator.new set) cases).1 in
     let v := setVerdict set cases in
     (v.1 = StatusAccepted → v.2 = CaseSet.Point set) ∧
     (v.1 ≠ StatusAccepted → v.2 = 0) ∧
     (v.1 = StatusAccepted ↔
      sts ≠ [] ∧ Forall (λ s, s = StatusAccepted) sts)) ∧
  (simpleEvaluator.evaluate (feedSets simpleEvaluator.new sets)).1.2
  = sumPoints pts.
Proof.
  intros pts Hrange. split.
  - intros set cases _ sts v. split; [|split].
    + intros H. unfold v. rewrite setVerdict_point. by rewrite decide_True.
    + intros H. unfold v. rewrite setVerdict_point. by rewrite decide_False.
    + apply setVerdict_Accepted.
  - rewrite evaluate_feedSets_new. by apply addPoints_exact.
Qed.

Lemma simple_points_witness :
  (simpleEvaluator.evaluate (feedSets simpleEvaluator.new sampleSets)).1.2
  = 130.
Proof.
  refine (proj2 (simple_points sampleSets _)).
  intros k. do 4 (try destruct k as [|k]); vm_compute; split; congruence.
Defined.

(** ** [markAs] *)


Lemma markResults_spec st rs d :
  foldl (λ d r, updateJudgeResult (JudgeResult.ID r) (setCaseStatus st) d) d rs
  = {| submissions := submissions d;
       judge_set_results := judge_set_results d;
       judge_results :=
         foldl (λ m k, alter (setCaseStatus st) k m) (judge_results d)
           (map JudgeResult.ID rs) |}.
Proof.
  revert d. induction rs as [|r rs IH]; intros d; cbn [foldl map].
  - by destruct d.
  - by rewrite IH.
Qed.

Lemma markAs_spec sets st d :
  markAs sets st d
  = {| submissions := submissions d;
       judge_set_results :=
         foldl (λ m k, alter (setStatus st) k m) (judge_set_results d)
           (map JudgeSetResult.ID sets);
       judge_results :=
         foldl (λ m k, alter (setCaseStatus st) k m) (judge_results d)
           (concat (map resultIDs sets)) |}.
Proof.
  unfold markAs. revert d.
  induction sets as [|s sets IH]; intros d; cbn [foldl map concat].
  - by destruct d.
  - rewrite IH, markResults_spec. cbn. by rewrite foldl_app.
Qed.



(** ** A compile error *)

Lemma contestScore_db env sub w : db (contestScore env sub w) = db w.
Proof.
  unfold contestScore. destruct (Submission.ContestID sub); [|done].
  destruct (isWriter env); [|done]. by case_match.
Qed.

Lemma contestScore_sandboxes env sub w :
  sandboxes (contestScore env sub w) = sandboxes w.
Proof.
  unfold contestScore. destruct (Submission.ContestID sub); [|done].
  destruct (isWriter env); [|done]. by case_match.
Qed.

Lemma contestScore_notifications env sub w :
  notifications (contestScore env sub w) = notifications w.
Proof.
  unfold contestScore. destruct (Submission.ContestID sub); [|done].
  destruct (isWriter env); [|done]. by case_match.
Qed.



(** ** The maxima of a set *)

(** C1, on the code.  A submission of two sets, three cases, every case
    Accepted after 7 units of time in 4097000 bytes: the case rows carry the
    time and the memory (in KiB), the set row and the submission row carry
    0 for both, not the maximum over the cases. *)
Theorem maxima_persisted_as_zero :
  let w := (Run happyEnv 1 sampleWorld).2 in
  judge_results (db w) !! 100%nat
  = Some {| case_status := StatusAccepted; case_exec_time := 7;
            case_memory_usage := 4096 |} ∧
  judge_results (db w) !! 101%nat
  = Some {| case_status := StatusAccepted; case_exec_time := 7;
            case_memory_usage := 4096 |} ∧
  judge_set_results (db w) !! 10%nat
  = Some {| status := StatusAccepted; point := 100; exec_time := 0;
            memory_usage := 0 |} ∧
  submissions (db w) !! 1%nat
  = Some {| status := StatusAccepted; point := 150; exec_time := 0;
            memory_usage := 0 |}.
Proof. vm_compute. repeat split. Qed.

(** C2, on the code.  When [w.Run] fails on the sandbox of the first set,
    the job returns with that sandbox not destroyed (the compile sandbox
    is); when the source cannot be copied into the compile sandbox, the job
    returns with the compile sandbox not destroyed. *)
Theorem sandboxes_left_behind :
  (Run runFailsEnv 1 sampleWorld).1 = Returned None ∧
  map removed (sandboxes (Run runFailsEnv 1 sampleWorld).2) = [true; false] ∧
  (Run compileCopyFailsEnv 1 sampleWorld).1 = Returned None ∧
  map removed (sandboxes (Run compileCopyFailsEnv 1 sampleWorld).2) = [false].
Proof. vm_compute. repeat split. Qed.

(** C8, on the code.  The output of the first set is malformed at its
    second block: [judgeCaseSet] returns the parse error, [Run] does not
    look at it and goes on to the second set, which gets its sandbox and
    its verdict; the first set's row is never written, its second case is
    never judged, and the submission is Accepted with the points of both
    sets. *)
Theorem parse_error_does_not_stop_the_job :
  let w := (Run parseFailsEnv 1 sampleWorld).2 in
  (Run parseFailsEnv 1 sampleWorld).1 = Returned None ∧
  map removed (sandboxes w) = [true; true; true] ∧
  judge_set_results (db w) !! 10%nat = Some blankRow ∧
  judge_results (db w) !! 101%nat = Some blankCaseRow ∧
  judge_set_results (db w) !! 11%nat
  = Some {| status := StatusAccepted; point := 50; exec_time := 0;
            memory_usage := 0 |} ∧
  judge_results (db w) !! 102%nat
  = Some {| case_status := StatusAccepted; case_exec_time := 7;
            case_memory_usage := 4096 |} ∧
  submissions (db w) !! 1%nat
  = Some {| status := StatusAccepted; point := 150; exec_time := 0;
            memory_usage := 0 |} ∧
  length (notifications w) = 1%nat.
Proof. vm_compute. repeat split. Qed.

(** ** The loop of [judgeCaseSet] *)

(** The loop from index [i] on, when the blocks before index [k] are
    presented and the [k]-th call of [Next] reports nothing and no error:
    at the last index of the set the loop goes on (and dereferences what
    [Next] handed back), at any other index it leaves with
    [ErrParseOutput]. *)
Lemma judgeCases_missing (p : Parser) (n k : nat) :
  has (p k) = false → err (p k) = None →
  ∀ rest i ev d,
    (i ≤ k)%nat → (i + length rest = n)%nat → (k < n)%nat →
    (∀ j, (i ≤ j < k)%nat → presents (p j)) →
    (judgeCases p n i rest ev d).1.1
    = if decide (S k = n)
      then match res (p k) with
           | Some _ => None
           | None => Some Panicked
           end
      else Some (Returned (Some ErrParseOutput)).
Proof.
  intros Hhas Herr rest.
  induction rest as [|r rest IH]; intros i ev d Hik Hn Hkn Hgood.
  - cbn in Hn. lia.
  - cbn [judgeCases length] in *.
    destruct (decide (i = k)) as [->|Hne].
    + rewrite Herr, Hhas. cbn [negb andb].
      destruct (decide (S k = n)) as [Hlast|Hnot].
      * rewrite bool_decide_eq_true_2 by lia. cbn [negb].
        destruct (ev_setNext ev (res (p k)) (JudgeResult.TestCase r))
          as [[st pt] ev'].
        destruct (res (p k)) as [x|]; [|done].
        assert (rest = []) as -> by (apply length_zero_iff_nil; lia).
        done.
      * rewrite bool_decide_eq_false_2 by lia. done.
    + destruct (Hgood i) as (Hh & [x Hx] & He); [lia|].
      rewrite He, Hh. cbn [negb andb].
      destruct (ev_setNext ev (res (p i)) (JudgeResult.TestCase r))
        as [[st pt] ev'].
      rewrite Hx. apply IH; [lia | lia | lia |].
      intros j Hj. apply Hgood. lia.
Qed.

(** When the parser reports no block (and no error) at the [k]-th case of
    a set of [n], the blocks before having been presented: [judgeCaseSet]
    returns [ErrParseOutput] if [k] is not the last index [n - 1]; at the
    last index it goes on with what the parser handed back, returns nil
    when that is a result, and panics on the nil one. *)
Lemma missing_block_only_last (h : Worker) (ev : evaluator)
    (setResult : JudgeSetResult.t) (w : World) (k : nat) :
  let p := NewExecResultParser h w in
  let n := length (JudgeSetResult.JudgeResults setResult) in
  (k < n)%nat →
  (∀ j, (j < k)%nat → presents (p j)) →
  has (p k) = false → err (p k) = None →
  let exit := (judgeCaseSet h ev setResult w).1.1.1 in
  (k ≠ (n - 1)%nat → exit = Returned (Some ErrParseOutput)) ∧
  (k = (n - 1)%nat →
   exit = match res (p k) with
          | Some _ => Returned None
          | None => Panicked
          end).
Proof.
  intros p n Hk Hgood Hhas Herr exit.
  pose proof (judgeCases_missing p n k Hhas Herr
                (JudgeSetResult.JudgeResults setResult) 0 ev (db w)
                ltac:(lia) eq_refl Hk
                ltac:(intros j Hj; apply Hgood; lia)) as Hloop.
  unfold exit, judgeCaseSet. fold p. fold n.
  destruct (judgeCases p n 0 _ ev (db w)) as [[early ev'] d].
  cbn [fst snd] in Hloop. subst early.
  split.
  - intros Hne. rewrite decide_False by lia. done.
  - intros Heq. rewrite decide_True by lia.
    destruct (res (p k)) as [x|]; [|done].
    by destruct (ev_setEvaluate ev').
Qed.

(** C7.  The runner of set 10 is killed before its last block: the parser
    presents the block of case 100 and then nothing, with a nil result, at
    the last index.  [judgeCaseSet] passes the guard, hands the nil result
    to the evaluator and then reads its fields: it panics.  The row of the
    set is never written, set 11 is never judged, and [Run] leaves by the
    panic after its deferred write of (UnknownError, 0, 0, 0).  With no
    block at all the set fails with [ErrParseOutput]. *)
Theorem missing_last_block_panics :
  let w := (Run lastBlockMissingEnv 1 sampleWorld).2 in
  (judgeCaseSet 0%nat firstSetEvaluator firstSetResult
     (parsedWorld (blocksOf 0))).1.1.1
  = Returned (Some ErrParseOutput) ∧
  (judgeCaseSet 0%nat firstSetEvaluator firstSetResult
     (parsedWorld (blocksOf 1))).1.1.1
  = Panicked ∧
  (Run lastBlockMissingEnv 1 sampleWorld).1 = Panicked ∧
  judge_results (db w) !! 100%nat
  = Some {| case_status := StatusAccepted; case_exec_time := 7;
            case_memory_usage := 4096 |} ∧
  judge_results (db w) !! 101%nat = Some blankCaseRow ∧
  judge_set_results (db w) !! 10%nat = Some blankRow ∧
  judge_set_results (db w) !! 11%nat = Some blankRow ∧
  judge_results (db w) !! 102%nat = Some blankCaseRow ∧
  submissions (db w) !! 1%nat
  = Some {| status := StatusUnknownError; point := 0; exec_time := 0;
            memory_usage := 0 |} ∧
  map removed (sandboxes w) = [true; true].
Proof. vm_compute. repeat split. Qed.

(** ** The case rows *)

Lemma judgeCases_other_rows (p : Parser) (n : nat) (id : nat) :
  ∀ rest i ev d,
    id ∉ map JudgeResult.ID rest →
    judge_results (judgeCases p n i rest ev d).2 !! id = judge_results d !! id.
Proof.
  induction rest as [|r rest IH]; intros i ev d Hid; [done|].
  cbn [judgeCases]. cbn [map] in Hid.
  apply not_elem_of_cons in Hid as [Hne Hid].
  destruct (err (p i)); [done|].
  destruct (negb (has (p i)) && _); [done|].
  destruct (ev_setNext ev (res (p i)) (JudgeResult.TestCase r))
    as [[st pt] ev'].
  destruct (res (p i)) as [x|]; [|done].
  rewrite IH by done. cbn. by rewrite lookup_alter_ne.
Qed.

(** The row of the [k]-th case of the loop, once the blocks up to it were
    presented: the time as the parser gave it, the memory divided by 1024. *)
Lemma judgeCases_row (p : Parser) (n : nat) :
  ∀ rest i ev d k r x,
    rest !! k = Some r →
    (∀ j, (j ≤ k)%nat → presents (p (i + j)%nat)) →
    res (p (i + k)%nat) = Some x →
    NoDup (map JudgeResult.ID rest) →
    is_Some (judge_results d !! JudgeResult.ID r) →
    ∃ st,
      judge_results (judgeCases p n i rest ev d).2 !! JudgeResult.ID r
      = Some {| case_status := st;
                case_exec_time := workers.ExecTime x;
                case_memory_usage := Z.quot (workers.MemoryUsage x) 1024 |}.
Proof.
  induction rest as [|r0 rest IH]; intros i ev d k r x Hk Hgood Hx Hnd Hrow;
    [done|].
  cbn [judgeCases]. cbn [map] in Hnd. apply NoDup_cons in Hnd as [Hr0 Hnd].
  destruct (Hgood 0%nat) as (Hh & [x0 Hx0] & He); [lia|].
  rewrite Nat.add_0_r in Hh, Hx0, He. rewrite He, Hh. cbn [negb andb].
  destruct (ev_setNext ev (res (p i)) (JudgeResult.TestCase r0))
    as [[st pt] ev'].
  rewrite Hx0.
  destruct k as [|k].
  - cbn in Hk. injection Hk as ->. rewrite Nat.add_0_r in Hx.
    assert (x0 = x) as -> by congruence.
    exists st. rewrite judgeCases_other_rows by done.
    cbn. rewrite lookup_alter_eq. destruct Hrow as [row ->]. done.
  - cbn in Hk. eapply (IH (S i)); try done.
    + intros j Hj. replace (S i + j)%nat with (i + S j)%nat by lia.
      apply Hgood. lia.
    + by replace (S i + k)%nat with (i + S k)%nat by lia.
    + cbn. rewrite lookup_alter_ne; [done|].
      intros Heq. apply Hr0. rewrite Heq.
      apply list_elem_of_fmap_2. by eapply list_elem_of_lookup_2.
Qed.

Lemma judgeCaseSet_judge_results h ev sr w :
  judge_results (db (judgeCaseSet h ev sr w).2)
  = judge_results
      (judgeCases (NewExecResultParser h w)
         (length (JudgeSetResult.JudgeResults sr)) 0
         (JudgeSetResult.JudgeResults sr) ev (db w)).2.
Proof.
  unfold judgeCaseSet.
  destruct (judgeCases _ _ _ _ _ _) as [[[x|] ev'] d]; [done|].
  by destruct (ev_setEvaluate ev').
Qed.

(** C10.  For a case whose block, and every block before it, the parser
    presented, the row that [judgeCaseSet] leaves for it carries the
    execution time of its result unchanged and the result's memory usage
    divided by 1024, rounded towards zero. *)
Theorem case_row_memory_in_kib (h : Worker) (ev : evaluator)
    (setResult : JudgeSetResult.t) (w : World) (k : nat)
    (r : JudgeResult.t) (x : workers.ExecResult) :
  let p := NewExecResultParser h w in
  JudgeSetResult.JudgeResults setResult !! k = Some r →
  (∀ j, (j ≤ k)%nat → presents (p j)) →
  res (p k) = Some x →
  NoDup (map JudgeResult.ID (JudgeSetResult.JudgeResults setResult)) →
  is_Some (judge_results (db w) !! JudgeResult.ID r) →
  ∃ row,
    judge_results (db (judgeCaseSet h ev setResult w).2) !! JudgeResult.ID r
    = Some row ∧
    case_exec_time row = workers.ExecTime x ∧
    case_memory_usage row = Z.quot (workers.MemoryUsage x) 1024.
Proof.
  intros p Hk Hgood Hx Hnd Hrow.
  rewrite judgeCaseSet_judge_results. fold p.
  destruct (judgeCases_row p (length (JudgeSetResult.JudgeResults setResult))
              (JudgeSetResult.JudgeResults setResult) 0 ev (db w) k r x)
    as [st Hst]; try done.
  eexists. split; [exact Hst|]. done.
Qed.

Lemma case_row_memory_in_kib_witness :
  ∃ row,
    judge_results
      (db (judgeCaseSet 0%nat firstSetEvaluator firstSetResult
             (parsedWorld (blocksOf 2))).2) !! 101%nat = Some row ∧
    case_exec_time row = 7 ∧
    case_memory_usage row = 4096.
Proof.
  refine (case_row_memory_in_kib 0%nat firstSetEvaluator firstSetResult
            (parsedWorld (blocksOf 2)) 1%nat (sampleResult 101 "10 20" "30")
            (adder "1 2") _ _ _ _ _).
  - reflexivity.
  - intros j Hj.
    assert (j = 0%nat ∨ j = 1%nat) as [-> | ->] by lia;
      (split; [reflexivity | split; [eexists; reflexivity | reflexivity]]).
  - reflexivity.
  - cbn. repeat constructor; rewrite ?elem_of_cons, ?elem_of_nil; lia.
  - eexists. reflexivity.
Defined.

(** ** The shuffle *)

Lemma swap_perm {A} (l : list A) i j : swap l i j ≡ₚ l.
Proof.
  unfold swap. destruct (l !! i) as [x|] eqn:Hi; [|done].
  destruct (l !! j) as [y|] eqn:Hj; [|done].
  by apply Permutation_insert_swap.
Qed.

Lemma shuffle_loop_perm {A} (r : Rand) (m : nat) :
  ∀ k (l : list A), shuffle_loop r k m l ≡ₚ l.
Proof.
  induction m as [|i IH]; intros k l; cbn [shuffle_loop]; [done|].
  rewrite IH. apply swap_perm.
Qed.

Lemma shuffleJudgeResults_perm {A} sd (l : list A) :
  shuffleJudgeResults sd l ≡ₚ l.
Proof. destruct sd; cbn; [apply shuffle_loop_perm | done]. Qed.

(** ** The input slots *)

Lemma list_ascii_of_string_app s1 s2 :
  list_ascii_of_string (s1 +:+ s2)
  = list_ascii_of_string s1 ++ list_ascii_of_string s2.
Proof.
  induction s1 as [|a s1 IH]; [done|].
  change (String a s1 +:+ s2) with (String a (s1 +:+ s2)).
  cbn [list_ascii_of_string]. by rewrite IH.
Qed.

Lemma string_app_inj_r s1 s2 t : s1 +:+ t = s2 +:+ t → s1 = s2.
Proof.
  intros H. apply (f_equal list_ascii_of_string) in H.
  rewrite !list_ascii_of_string_app in H. apply app_inv_tail in H.
  apply (f_equal string_of_list_ascii) in H.
  by rewrite !string_of_list_ascii_of_string in H.
Qed.

Lemma inputPath_inj i j : inputPath i = inputPath j → i = j.
Proof.
  unfold inputPath, Itoa. intros H.
  apply (inj (String.app "/tmp/input/")) in H.
  apply string_app_inj_r in H. apply (inj pretty) in H. lia.
Qed.

Lemma inputPath_not_script i : inputPath i ≠ "/tmp/judge.sh".
Proof. unfold inputPath. cbn. discriminate. Qed.

Lemma withInputs_other path :
  ∀ rest i s,
    (∀ k, (k < length rest)%nat → path ≠ inputPath (i + k)) →
    files (withInputs i rest s) !! path = files s !! path.
Proof.
  induction rest as [|c rest IH]; intros i s Hp; [done|].
  cbn [withInputs]. rewrite IH.
  - cbn. rewrite lookup_insert_ne; [done|].
    intros Heq. apply (Hp 0%nat); [cbn; lia|]. by rewrite Nat.add_0_r.
  - intros k Hk. replace (S i + k)%nat with (i + S k)%nat by lia.
    apply Hp. cbn. lia.
Qed.

Lemma withInputs_lookup :
  ∀ rest i s k c,
    rest !! k = Some c →
    files (withInputs i rest s) !! inputPath (i + k)
    = Some (TestCase.Input (JudgeResult.TestCase c)).
Proof.
  induction rest as [|c0 rest IH]; intros i s k c Hk; [done|].
  cbn [withInputs]. destruct k as [|k].
  - cbn in Hk. injection Hk as ->. rewrite Nat.add_0_r.
    rewrite withInputs_other.
    + cbn. by rewrite lookup_insert_eq.
    + intros k _ Heq. apply inputPath_inj in Heq. lia.
  - cbn in Hk. replace (i + S k)%nat with (S i + k)%nat by lia. by apply IH.
Qed.

Lemma withInputs_output i rest s : output (withInputs i rest s) = output s.
Proof. revert i s. induction rest as [|c rest IH]; intros i s; [done|].
  cbn [withInputs]. by rewrite IH. Qed.

Lemma withInputs_removed i rest s : removed (withInputs i rest s) = removed s.
Proof. revert i s. induction rest as [|c rest IH]; intros i s; [done|].
  cbn [withInputs]. by rewrite IH. Qed.

Lemma injectInputs_ok se h :
  (∀ i, copyInput se i = true) →
  ∀ rest i w,
    injectInputs se h i rest w
    = (true, withSandboxes (alter (withInputs i rest) h) w).
Proof.
  intros Hcopy. induction rest as [|c rest IH]; intros i w.
  - cbn. f_equal. destruct w. unfold withSandboxes. cbn. f_equal.
    symmetry. by apply list_alter_id.
  - cbn [injectInputs]. rewrite Hcopy, IH. f_equal.
    unfold CopyContentToContainer, withSandboxes. cbn. f_equal.
    by rewrite list_alter_alter_eq.
Qed.

Lemma alter_snoc {A} (f : A → A) (l : list A) x :
  alter f (length l) (l ++ [x]) = l ++ [f x].
Proof. by rewrite alter_app_r_alt, Nat.sub_diag by done. Qed.

(** ** [executeCaseSet] under the batch runner *)

Lemma lookup_snoc {A} (l : list A) x : (l ++ [x]) !! length l = Some x.
Proof. by rewrite lookup_app_r, Nat.sub_diag by done. Qed.

(** The sandbox of a set that is built and run without an error: it is the
    next one of the store, it holds the input of the case at position [i] of
    the shuffled slice in slot [i], and its output presents, as [i]-th
    block, the program's result on that input. *)
Lemma executeCaseSet_batch env prog sd j r w script c :
  judgeScript env = Some script →
  compiled j = Some c →
  (∀ i, Workspace env +:+ Language.ExeFileName
          (Submission.Language (submission j)) ≠ inputPath i) →
  let shuffled := shuffleJudgeResults sd (JudgeSetResult.JudgeResults r) in
  ∃ sb,
    executeCaseSet (batchEnv env prog sd) j r w
    = (Some (length (sandboxes w)),
       JudgeSetResult.withJudgeResults r shuffled,
       withSandboxes (λ l, l ++ [sb]) w) ∧
    removed sb = false ∧
    ∀ i x, shuffled !! i = Some x →
      files sb !! inputPath i
      = Some (TestCase.Input (JudgeResult.TestCase x)) ∧
      output sb i
      = {| has := true;
           res := Some (prog (TestCase.Input (JudgeResult.TestCase x)));
           err := None |}.
Proof.
  intros Hscript Hc Hexe shuffled.
  unfold executeCaseSet, createJudgementWorker.
  cbn [batchEnv setEnv judgeScript Workspace runningSet newWorker copyScript
       copyExe seed run negb].
  rewrite Hscript, Hc. unfold createSandbox. fold shuffled.
  rewrite injectInputs_ok by done.
  set (path := Workspace env +:+ _) in *.
  set (img := imageNamePrefix +:+ _).
  set (sb0 := withInputs 0 shuffled
                (withFile "/tmp/judge.sh" script (newSandbox img))).
  assert (sandboxes
            (withSandboxes (alter (withInputs 0 shuffled) (length (sandboxes w)))
               (CopyContentToContainer (length (sandboxes w)) script
                  "/tmp/judge.sh"
                  (withSandboxes (λ l, l ++ [newSandbox img]) w)))
          = sandboxes w ++ [sb0]) as Hsbs.
  { unfold CopyContentToContainer, withSandboxes. cbn.
    by rewrite !alter_snoc. }
  set (w3 := withSandboxes (alter (withInputs 0 shuffled) _) _) in *.
  assert (db w3 = db w ∧ notifications w3 = notifications w
          ∧ scoreUpdates w3 = scoreUpdates w) as (Hdb & Hnot & Hsc) by done.
  assert (∀ sb1 : Sandbox,
            (∀ i, files sb1 !! inputPath i = files sb0 !! inputPath i) →
            ∀ i x, shuffled !! i = Some x →
              files sb1 !! inputPath i
              = Some (TestCase.Input (JudgeResult.TestCase x)) ∧
              batchRunner prog sb1 i
              = {| has := true;
                   res := Some (prog (TestCase.Input (JudgeResult.TestCase x)));
                   err := None |}) as Hslots.
  { intros sb1 Hfiles i x Hx.
    assert (files sb1 !! inputPath i
            = Some (TestCase.Input (JudgeResult.TestCase x))) as Hf.
    { rewrite Hfiles. unfold sb0.
      by apply (withInputs_lookup shuffled 0 _ i x). }
    split; [done|]. unfold batchRunner. by rewrite Hf. }
  assert (removed sb0 = false) as Hrem0
    by (unfold sb0; by rewrite withInputs_removed).
  unfold CopyTo.
  destruct (sandboxes w3 !! c ≫= λ s, files s !! path) as [content|].
  - (* the executable is there and is copied *)
    exists (withOutput (batchRunner prog (withFile path content sb0))
              (withFile path content sb0)).
    unfold CopyContentToContainer, withSandboxes.
    cbn [sandboxes db notifications scoreUpdates].
    rewrite Hsbs, alter_snoc, lookup_snoc. cbn [mbind option_bind].
    rewrite alter_snoc. rewrite Hdb, Hnot, Hsc.
    split; [done|]. split; [done|].
    intros i x Hx. cbn [files output withOutput].
    apply (Hslots (withFile path content sb0)); [|done].
    intros i'. cbn. rewrite lookup_insert_ne; [done|]. apply Hexe.
  - (* nothing to copy *)
    exists (withOutput (batchRunner prog sb0) sb0).
    unfold withSandboxes.
    cbn [sandboxes db notifications scoreUpdates].
    rewrite Hsbs, lookup_snoc. cbn [mbind option_bind].
    rewrite alter_snoc. rewrite Hdb, Hnot, Hsc.
    split; [done|]. split; [done|].
    intros i x Hx. cbn [files output withOutput].
    by apply (Hslots sb0).
Qed.

(** ** [judgeCaseSet] under the batch runner *)

Lemma ev_setNext_simple e c0 r tc :
  simpleEvaluator.lastSet e = Some (simpleCaseSetEvaluator.object c0) →
  ev_setNext (simpleEval e) r tc
  = (((simpleCaseSetEvaluator.classify r tc).1, 0),
     simpleEval
       {| simpleEvaluator.point := simpleEvaluator.point e;
          simpleEvaluator.statuses := simpleEvaluator.statuses e;
          simpleEvaluator.lastSet :=
            Some (simpleCaseSetEvaluator.object
                    (simpleCaseSetEvaluator.next c0 r tc).2) |}).
Proof.
  intros He. unfold ev_setNext, simpleEval.
  cbn [ev_with ev_cur ev_setNext_fn newSimpleEvaluator].
  unfold simpleEvaluator.setNext. rewrite He, cse_next_object.
  pose proof (next_status c0 r tc) as Hs.
  pose proof (next_point c0 r tc) as Hp.
  destruct (simpleCaseSetEvaluator.next c0 r tc) as [[st pt] c1].
  cbn in *. by subst.
Qed.

Lemma setNext_simple e c0 r tc :
  simpleEvaluator.lastSet e = Some (simpleCaseSetEvaluator.object c0) →
  (simpleEvaluator.setNext e r tc).2
  = {| simpleEvaluator.point := simpleEvaluator.point e;
       simpleEvaluator.statuses := simpleEvaluator.statuses e;
       simpleEvaluator.lastSet :=
         Some (simpleCaseSetEvaluator.object
                 (simpleCaseSetEvaluator.next c0 r tc).2) |}.
Proof.
  intros He. unfold simpleEvaluator.setNext. rewrite He, cse_next_object.
  by destruct (simpleCaseSetEvaluator.next c0 r tc) as [[st pt] c1].
Qed.

(** The loop when every block is presented and is the program's result on
    the input of the case it is judged against: no early exit, the
    evaluator is fed the naive cases in the order of the slice, and each
    case gets its naive row. *)
Lemma judgeCases_presented (p : Parser) (n : nat) prog :
  ∀ rest i e c0 d,
    simpleEvaluator.lastSet e = Some (simpleCaseSetEvaluator.object c0) →
    (∀ k x, rest !! k = Some x →
       p (i + k)%nat
       = {| has := true;
            res := Some (prog (TestCase.Input (JudgeResult.TestCase x)));
            err := None |}) →
    judgeCases p n i rest (simpleEval e) d
    = (None, simpleEval (feedSet e (map (naiveCase prog) rest)),
       writeNaiveRows prog rest d).
Proof.
  induction rest as [|x rest IH]; intros i e c0 d He Hp; [done|].
  cbn [judgeCases map feedSet naiveCase]. unfold writeNaiveRows. cbn [foldl].
  pose proof (Hp 0%nat x eq_refl) as Hx. rewrite Nat.add_0_r in Hx.
  rewrite Hx. cbn [err has res negb andb].
  rewrite (ev_setNext_simple e c0) by done.
  rewrite (setNext_simple e c0) by done.
  erewrite (IH (S i)); [reflexivity | reflexivity |].
  intros k y Hy. replace (S i + k)%nat with (i + S k)%nat by lia.
  by apply Hp.
Qed.

Lemma writeNaiveRows_fields prog results d :
  submissions (writeNaiveRows prog results d) = submissions d ∧
  judge_set_results (writeNaiveRows prog results d) = judge_set_results d ∧
  judge_results (writeNaiveRows prog results d)
  = foldl (λ m x, alter (λ _, naiveRow prog x) (JudgeResult.ID x) m)
      (judge_results d) results.
Proof.
  unfold writeNaiveRows. revert d.
  induction results as [|x rest IH]; intros d; [done|].
  cbn [foldl]. destruct (IH (updateJudgeResult (JudgeResult.ID x)
                               (λ _, naiveRow prog x) d)) as (-> & -> & ->).
  done.
Qed.

Lemma lookup_naive_rows_other prog id :
  ∀ results (m : gmap nat CaseRow),
    id ∉ map JudgeResult.ID results →
    foldl (λ m x, alter (λ _, naiveRow prog x) (JudgeResult.ID x) m) m results
      !! id = m !! id.
Proof.
  induction results as [|x rest IH]; intros m Hid; [done|].
  cbn [foldl]. cbn [map] in Hid. apply not_elem_of_cons in Hid as [Hne Hid].
  rewrite IH by done. by rewrite lookup_alter_ne.
Qed.

Lemma lookup_naive_rows prog :
  ∀ results (m : gmap nat CaseRow) x,
    NoDup (map JudgeResult.ID results) → x ∈ results →
    foldl (λ m x, alter (λ _, naiveRow prog x) (JudgeResult.ID x) m) m results
      !! JudgeResult.ID x
    = (λ _, naiveRow prog x) <$> m !! JudgeResult.ID x.
Proof.
  induction results as [|y rest IH]; intros m x Hnd Hx.
  - by apply elem_of_nil in Hx.
  - cbn [foldl]. cbn [map] in Hnd. apply NoDup_cons in Hnd as [Hy Hnd].
    apply elem_of_cons in Hx as [->|Hx].
    + rewrite lookup_naive_rows_other by done. by rewrite lookup_alter_eq.
    + rewrite IH by done. rewrite lookup_alter_ne; [done|].
      intros Heq. apply Hy. rewrite Heq. by apply list_elem_of_fmap_2.
Qed.

(** The rows written do not depend on the order of the slice. *)
Lemma writeNaiveRows_perm prog l1 l2 d :
  NoDup (map JudgeResult.ID l1) → l1 ≡ₚ l2 →
  writeNaiveRows prog l1 d = writeNaiveRows prog l2 d.
Proof.
  intros Hnd Hperm.
  pose proof (Permutation_map JudgeResult.ID Hperm) as Hids.
  assert (NoDup (map JudgeResult.ID l2)) as Hnd2 by (by rewrite <-Hids).
  destruct (writeNaiveRows_fields prog l1 d) as (Hs1 & Hj1 & Hr1).
  destruct (writeNaiveRows_fields prog l2 d) as (Hs2 & Hj2 & Hr2).
  assert (judge_results (writeNaiveRows prog l1 d)
          = judge_results (writeNaiveRows prog l2 d)) as Hr.
  { rewrite Hr1, Hr2. apply map_eq. intros id.
    destruct (decide (id ∈ map JudgeResult.ID l1)) as [Hin|Hnin].
    - apply list_elem_of_fmap_1 in Hin as (x & -> & Hx).
      rewrite !lookup_naive_rows; try done. by rewrite <-Hperm.
    - rewrite !lookup_naive_rows_other; try done.
      by rewrite <-Hids. }
  destruct (writeNaiveRows prog l1 d), (writeNaiveRows prog l2 d).
  cbn in *. congruence.
Qed.

(** ** The order of the cases does not matter to the evaluator *)

Lemma feedCases_verdicts e cases :
  (feedCases e cases).1
  = map (λ rc, (simpleCaseSetEvaluator.classify rc.1 rc.2).1) cases.
Proof.
  revert e. induction cases as [|[r tc] rest IH]; intros e; [done|].
  cbn [feedCases map]. pose proof (next_status e r tc) as Hst.
  destruct (simpleCaseSetEvaluator.next e r tc) as [[st p] e1].
  specialize (IH e1). destruct (feedCases e1 rest) as [sts e2].
  cbn in *. by subst.
Qed.

Lemma feedCases_perm e cases1 cases2 :
  cases1 ≡ₚ cases2 → (feedCases e cases1).2 = (feedCases e cases2).2.
Proof.
  intros Hperm.
  pose proof (feedCases_statuses e cases1) as Hs1.
  pose proof (feedCases_statuses e cases2) as Hs2.
  pose proof (feedCases_setPoint e cases1) as Hp1.
  pose proof (feedCases_setPoint e cases2) as Hp2.
  rewrite feedCases_verdicts in Hs1, Hs2.
  assert (simpleCaseSetEvaluator.statuses (feedCases e cases1).2
          = simpleCaseSetEvaluator.statuses (feedCases e cases2).2) as Hs.
  { rewrite Hs1, Hs2.
    apply (foldr_permutation_proper (=) bump _ bump_bump).
    apply Permutation_rev', Permutation_map, Hperm. }
  destruct (feedCases e cases1).2, (feedCases e cases2).2. cbn in *.
  congruence.
Qed.

Lemma setVerdict_perm set cases1 cases2 :
  cases1 ≡ₚ cases2 → setVerdict set cases1 = setVerdict set cases2.
Proof. intros H. unfold setVerdict. by rewrite (feedCases_perm _ _ _ H). Qed.

Lemma feedSet_perm e c0 cases1 cases2 :
  simpleEvaluator.lastSet e = Some (simpleCaseSetEvaluator.object c0) →
  cases1 ≡ₚ cases2 → feedSet e cases1 = feedSet e cases2.
Proof.
  intros He H. rewrite !(feedSet_object e c0) by done.
  by rewrite (feedCases_perm _ _ _ H).
Qed.

Lemma judgeCaseSet_batch prog (sb : Sandbox) (w : World)
    (r : JudgeSetResult.t) (shuffled : list JudgeResult.t) e1 c0 :
  simpleEvaluator.lastSet e1 = Some (simpleCaseSetEvaluator.object c0) →
  (∀ i x, shuffled !! i = Some x →
     output sb i
     = {| has := true;
          res := Some (prog (TestCase.Input (JudgeResult.TestCase x)));
          err := None |}) →
  let cases := map (naiveCase prog) shuffled in
  let v := simpleCaseSetEvaluator.evaluate (feedCases c0 cases).2 in
  judgeCaseSet (length (sandboxes w)) (simpleEval e1)
    (JudgeSetResult.withJudgeResults r shuffled)
    (withSandboxes (λ l, l ++ [sb]) w)
  = (Returned None, simpleEval (feedSet e1 cases),
     JudgeSetResult.judged (JudgeSetResult.withJudgeResults r shuffled)
       v.1 v.2 0 0,
     {| db := updateJudgeSetResult (JudgeSetResult.ID r)
                (λ _, {| status := v.1; point := v.2; exec_time := 0;
                         memory_usage := 0 |})
                (writeNaiveRows prog shuffled (db w));
        sandboxes := sandboxes w ++ [destroyed sb];
        notifications := notifications w;
        scoreUpdates := scoreUpdates w |}).
Proof.
  intros He Hout cases v. unfold judgeCaseSet.
  cbn [JudgeSetResult.withJudgeResults JudgeSetResult.JudgeResults].
  unfold NewExecResultParser.
  cbn [withSandboxes sandboxes db]. rewrite lookup_snoc.
  rewrite (judgeCases_presented (output sb) _ prog shuffled 0 e1 c0) by done.
  fold cases.
  unfold ev_setEvaluate, simpleEval.
  cbn [ev_with ev_cur ev_setEvaluate_fn newSimpleEvaluator].
  unfold simpleEvaluator.setEvaluate.
  rewrite (feedSet_object e1 c0) by done.
  cbn [simpleEvaluator.lastSet]. unfold cse_evaluate.
  cbn [simpleCaseSetEvaluator.object cse_evaluate_fn cse_cur]. fold v.
  destruct v as [st pt] eqn:Hv. cbn [fst snd].
  unfold Remove, withDB, withSandboxes.
  cbn [db sandboxes notifications scoreUpdates JudgeSetResult.judged
       JudgeSetResult.ID JudgeSetResult.withJudgeResults].
  by rewrite alter_snoc.
Qed.

(** The loop of [Run] on one set under the batch runner, from the
    exact-match evaluator in state [e0]. *)
Lemma judgeSets_batch env prog sd j r e0 w script c :
  judgeScript env = Some script →
  compiled j = Some c →
  (∀ i, Workspace env +:+ Language.ExeFileName
          (Submission.Language (submission j)) ≠ inputPath i) →
  let shuffled := shuffleJudgeResults sd (JudgeSetResult.JudgeResults r) in
  let set := JudgeSetResult.CaseSet r in
  let cases := map (naiveCase prog) shuffled in
  let v := setVerdict set cases in
  let out := judgeSets (batchEnv env prog sd) j [r] (simpleEval e0) 0 0 w in
  out.1.1.1.1 = false ∧
  out.1.1.1.2
  = simpleEval (feedSet (simpleEvaluator.next e0 (Some set) None) cases) ∧
  db out.2
  = updateJudgeSetResult (JudgeSetResult.ID r)
      (λ _, {| status := v.1; point := v.2; exec_time := 0;
               memory_usage := 0 |})
      (writeNaiveRows prog shuffled (db w)) ∧
  map removed (sandboxes out.2) = map removed (sandboxes w) ++ [true].
Proof.
  intros Hscript Hc Hexe shuffled set cases v out.
  destruct (executeCaseSet_batch env prog sd j r w script c Hscript Hc Hexe)
    as (sb & Hex & Hrem & Hslots).
  fold shuffled in Hex, Hslots.
  unfold out. cbn [judgeSets]. rewrite Hex.
  set (e1 := simpleEvaluator.next e0 (Some set) None).
  assert (simpleEvaluator.lastSet e1
          = Some (simpleCaseSetEvaluator.object
                    (simpleCaseSetEvaluator.new set))) as He1.
  { unfold e1, simpleEvaluator.next.
    destruct (simpleEvaluator.lastSet e0); [|done].
    by destruct (cse_evaluate _). }
  change (ev_next (simpleEval e0) (JudgeSetResult.CaseSet r))
    with (simpleEval e1).
  rewrite (judgeCaseSet_batch prog sb w r shuffled e1 _ He1)
    by (intros i x Hx; by apply Hslots).
  cbn [fst snd db sandboxes]. fold cases. fold (setVerdict set cases). fold v.
  repeat split.
  rewrite map_app. cbn. done.
Qed.

(** C9.  A set that is built and run without an error, the program [prog]
    inside, judged by the exact-match evaluator, under any seed [sd] of the
    shuffle.  The shuffled slice is a permutation of the set's results; the
    input of the case at its position [i] is in slot
    [/tmp/input/<i>.txt] and the parser's [i]-th result is the program's
    result on that input; so every case gets the row of its naive
    judgement, the set gets the verdict of the naive judgement of its cases
    in their own order, and the database and the evaluator after the set
    are those of the run without a shuffle. *)
Theorem shuffle_keeps_verdicts (env : Env) (prog : string → workers.ExecResult)
    (sd : option Rand) (j : judgementJob) (r : JudgeSetResult.t)
    (e0 : simpleEvaluator.t) (w : World) (script : string) (c : Worker) :
  judgeScript env = Some script →
  compiled j = Some c →
  (∀ i, Workspace env +:+ Language.ExeFileName
          (Submission.Language (submission j)) ≠ inputPath i) →
  NoDup (map JudgeResult.ID (JudgeSetResult.JudgeResults r)) →
  let results := JudgeSetResult.JudgeResults r in
  let shuffled := shuffleJudgeResults sd results in
  let judged sd' :=
    judgeSets (batchEnv env prog sd') j [r] (simpleEval e0) 0 0 w in
  let v := setVerdict (JudgeSetResult.CaseSet r) (map (naiveCase prog) results) in
  shuffled ≡ₚ results ∧
  (∃ sb,
     executeCaseSet (batchEnv env prog sd) j r w
     = (Some (length (sandboxes w)),
        JudgeSetResult.withJudgeResults r shuffled,
        withSandboxes (λ l, l ++ [sb]) w) ∧
     ∀ i x, shuffled !! i = Some x →
       files sb !! inputPath i
       = Some (TestCase.Input (JudgeResult.TestCase x)) ∧
       output sb i
       = {| has := true;
            res := Some (prog (TestCase.Input (JudgeResult.TestCase x)));
            err := None |}) ∧
  (∀ x row, x ∈ results →
     judge_results (db w) !! JudgeResult.ID x = Some row →
     judge_results (db (judged sd).2) !! JudgeResult.ID x
     = Some (naiveRow prog x)) ∧
  (∀ row, judge_set_results (db w) !! JudgeSetResult.ID r = Some row →
     judge_set_results (db (judged sd).2) !! JudgeSetResult.ID r
     = Some {| status := v.1; point := v.2; exec_time := 0;
               memory_usage := 0 |}) ∧
  db (judged sd).2 = db (judged None).2 ∧
  (judged sd).1.1.1.2 = (judged None).1.1.1.2.
Proof.
  intros Hscript Hc Hexe Hnd results shuffled judged v. subst results.
  assert (shuffled ≡ₚ JudgeSetResult.JudgeResults r) as Hperm
    by apply shuffleJudgeResults_perm.
  pose proof (Permutation_map (naiveCase prog) Hperm) as Hcases.
  pose proof (Permutation_map JudgeResult.ID Hperm) as Hids.
  assert (NoDup (map JudgeResult.ID shuffled)) as Hnd' by (by rewrite Hids).
  destruct (judgeSets_batch env prog sd j r e0 w script c Hscript Hc Hexe)
    as (_ & Hev & Hdb & _).
  destruct (judgeSets_batch env prog None j r e0 w script c Hscript Hc Hexe)
    as (_ & Hev0 & Hdb0 & _).
  fold shuffled in Hev, Hdb. fold (judged sd) in Hev, Hdb.
  cbn [shuffleJudgeResults] in Hev0, Hdb0.
  fold (judged None) in Hev0, Hdb0.
  rewrite (setVerdict_perm _ _ _ Hcases) in Hdb. fold v in Hdb, Hdb0.
  split; [done|]. split; [|split; [|split; [|split]]].
  - destruct (executeCaseSet_batch env prog sd j r w script c Hscript Hc Hexe)
      as (sb & Hex & _ & Hslots).
    exists sb. split; [exact Hex | exact Hslots].
  - intros x row Hx Hrow. rewrite Hdb. cbn [updateJudgeSetResult judge_results].
    destruct (writeNaiveRows_fields prog shuffled (db w)) as (_ & _ & ->).
    rewrite lookup_naive_rows; [by rewrite Hrow | done | by rewrite Hperm].
  - intros row Hrow. rewrite Hdb.
    cbn [updateJudgeSetResult judge_set_results].
    destruct (writeNaiveRows_fields prog shuffled (db w)) as (_ & -> & _).
    by rewrite lookup_alter_eq, Hrow.
  - rewrite Hdb, Hdb0. f_equal. by apply writeNaiveRows_perm.
  - rewrite Hev, Hev0. f_equal.
    eapply feedSet_perm; [|exact Hcases].
    unfold simpleEvaluator.next.
    destruct (simpleEvaluator.lastSet e0); [|reflexivity].
    by destruct (cse_evaluate _).
Qed.

Lemma shuffle_keeps_verdicts_witness :
  shuffleJudgeResults (Some (λ k, k)) (JudgeSetResult.JudgeResults firstSetResult)
  = [sampleResult 101 "10 20" "30"; sampleResult 100 "1 2" "3"]
  ∧ judge_results
      (db (judgeSets (batchEnv happyEnv adder (Some (λ k, k))) compiledJob
             [firstSetResult] (simpleEval simpleEvaluator.new) 0 0
             compiledWorld).2) !! 100%nat
    = Some (naiveRow adder (sampleResult 100 "1 2" "3"))
  ∧ db (judgeSets (batchEnv happyEnv adder (Some (λ k, k))) compiledJob
          [firstSetResult] (simpleEval simpleEvaluator.new) 0 0
          compiledWorld).2
    = db (judgeSets (batchEnv happyEnv adder None) compiledJob
            [firstSetResult] (simpleEval simpleEvaluator.new) 0 0
            compiledWorld).2.
Proof.
  destruct (shuffle_keeps_verdicts happyEnv adder (Some (λ k, k)) compiledJob
              firstSetResult simpleEvaluator.new compiledWorld "#!/bin/sh"
              0%nat) as (_ & _ & Hrows & _ & Hdb & _).
  - reflexivity.
  - reflexivity.
  - intros i. unfold inputPath. cbn. discriminate.
  - cbn. repeat constructor; rewrite ?elem_of_cons, ?elem_of_nil; lia.
  - split; [reflexivity|]. split; [|exact Hdb].
    apply (Hrows (sampleResult 100 "1 2" "3") blankCaseRow).
    + cbn. left.
    + reflexivity.
Defined.

(** ** What holds on every path *)

(** The loop of [judgeCaseSet] leaves early only with an error or a
    panic. *)
Lemma judgeCases_early (p : Parser) (n : nat) :
  ∀ rest i ev d x,
    (judgeCases p n i rest ev d).1.1 = Some x → x ≠ Returned None.
Proof.
  induction rest as [|r rest IH]; intros i ev d x; [done|].
  cbn [judgeCases].
  destruct (err (p i)) as [e|].
  { cbn. by intros [= <-]. }
  destruct (negb (has (p i)) && _).
  { cbn. by intros [= <-]. }
  destruct (ev_setNext ev (res (p i)) (JudgeResult.TestCase r))
    as [[st pt] ev'].
  destruct (res (p i)) as [y|].
  - apply IH.
  - cbn. by intros [= <-].
Qed.

(** Whenever [judgeCaseSet] returns without an error, the time and the
    memory it leaves in the set result are 0, whatever the cases took. *)
Lemma judgeCaseSet_maxima h ev sr w :
  (judgeCaseSet h ev sr w).1.1.1 = Returned None →
  JudgeSetResult.ExecTime (judgeCaseSet h ev sr w).1.2 = 0 ∧
  JudgeSetResult.MemoryUsage (judgeCaseSet h ev sr w).1.2 = 0.
Proof.
  unfold judgeCaseSet.
  pose proof (judgeCases_early (NewExecResultParser h w)
                (length (JudgeSetResult.JudgeResults sr)) 
                (JudgeSetResult.JudgeResults sr) 0 ev (db w)) as Hearly.
  destruct (judgeCases _ _ _ _ _ _) as [[[x|] ev'] d].
  - cbn. intros ->. by destruct (Hearly (Returned None)).
  - by destruct (ev_setEvaluate ev').
Qed.

(** The sandbox handed to [judgeCaseSet] is destroyed however the function
    leaves, and no other sandbox is touched. *)
Lemma judgeCaseSet_sandboxes h ev sr w :
  sandboxes (judgeCaseSet h ev sr w).2 = alter destroyed h (sandboxes w).
Proof.
  unfold judgeCaseSet.
  destruct (judgeCases _ _ _ _ _ _) as [[[x|] ev'] d]; [done|].
  by destruct (ev_setEvaluate ev').
Qed.

(** [createJudgementWorker] and [executeCaseSet] write nothing to the
    database and announce nothing. *)
Lemma injectInputs_frame se h :
  ∀ rest i w,
    db (injectInputs se h i rest w).2 = db w ∧
    notifications (injectInputs se h i rest w).2 = notifications w.
Proof.
  induction rest as [|c rest IH]; intros i w; [done|].
  cbn [injectInputs]. destruct (copyInput se i); [|done].
  destruct (IH (S i) (CopyContentToContainer h
                        (TestCase.Input (JudgeResult.TestCase c))
                        (inputPath i) w)) as [-> ->].
  done.
Qed.

Lemma CopyTo_frame c path h w :
  db (CopyTo c path h w) = db w ∧
  notifications (CopyTo c path h w) = notifications w.
Proof. unfold CopyTo. by destruct (_ ≫= _). Qed.

Lemma createJudgementWorker_frame env se j results w :
  db (createJudgementWorker env se j results w).2 = db w ∧
  notifications (createJudgementWorker env se j results w).2
  = notifications w.
Proof.
  unfold createJudgementWorker.
  destruct (newWorker se); [|done]. cbn [negb]. unfold createSandbox.
  destruct (judgeScript env) as [script|]; [|done].
  destruct (copyScript se); [|done]. cbn [negb].
  match goal with
  | |- context [injectInputs ?a ?b ?c ?d ?e] =>
      pose proof (injectInputs_frame a b d c e) as Hinj;
      destruct (injectInputs a b c d e) as [[|] w1]
  end; [|by destruct Hinj].
  destruct (compiled j) as [c|]; [|by destruct Hinj].
  destruct (copyExe se); cbn [negb snd]; [|by destruct Hinj].
  destruct (CopyTo_frame c (Workspace env +:+ Language.ExeFileName
              (Submission.Language (submission j)))
              (length (sandboxes w)) w1) as [-> ->].
  by destruct Hinj.
Qed.

Lemma executeCaseSet_frame env j r w :
  db (executeCaseSet env j r w).2 = db w ∧
  notifications (executeCaseSet env j r w).2 = notifications w.
Proof.
  unfold executeCaseSet.
  pose proof (createJudgementWorker_frame env
                (setEnv env (JudgeSetResult.ID r)) j
                (JudgeSetResult.JudgeResults r) w) as Hc.
  destruct (createJudgementWorker _ _ _ _ _) as [[[h|] rs] w1]; [|done].
  by destruct (_ ≫= _).
Qed.

(** When the sandbox of a set cannot be built or run, the loop of [Run]
    stops there: the sets after it are not looked at, and no row is
    written. *)
Lemma judgeSets_break env j r rest eval et mu w :
  (executeCaseSet env j r w).1.1 = None →
  judgeSets env j (r :: rest) eval et mu w
  = (false, ev_next eval (JudgeSetResult.CaseSet r), et, mu,
     (executeCaseSet env j r w).2) ∧
  db (judgeSets env j (r :: rest) eval et mu w).2 = db w.
Proof.
  intros Hnone. cbn [judgeSets].
  pose proof (executeCaseSet_frame env j r w) as [Hdb _].
  destruct (executeCaseSet env j r w) as [[h r'] w1].
  cbn in Hnone. subst h. done.
Qed.

(** ** The finalisation *)

Lemma judgeCases_submissions (p : Parser) (n : nat) :
  ∀ rest i ev d,
    submissions (judgeCases p n i rest ev d).2 = submissions d.
Proof.
  induction rest as [|r rest IH]; intros i ev d; [done|].
  cbn [judgeCases].
  destruct (err (p i)); [done|].
  destruct (negb (has (p i)) && _); [done|].
  destruct (ev_setNext ev (res (p i)) (JudgeResult.TestCase r))
    as [[st pt] ev'].
  destruct (res (p i)) as [x|]; [|done].
  by rewrite IH.
Qed.

Lemma judgeCaseSet_frame h ev sr w :
  submissions (db (judgeCaseSet h ev sr w).2) = submissions (db w) ∧
  notifications (judgeCaseSet h ev sr w).2 = notifications w.
Proof.
  unfold judgeCaseSet.
  pose proof (judgeCases_submissions (NewExecResultParser h w)
                (length (JudgeSetResult.JudgeResults sr))
                (JudgeSetResult.JudgeResults sr) 0 ev (db w)) as Hs.
  destruct (judgeCases _ _ _ _ _ _) as [[[x|] ev'] d]; [done|].
  by destruct (ev_setEvaluate ev').
Qed.

Lemma judgeSets_frame env j :
  ∀ sets eval et mu w,
    submissions (db (judgeSets env j sets eval et mu w).2)
    = submissions (db w) ∧
    notifications (judgeSets env j sets eval et mu w).2 = notifications w.
Proof.
  induction sets as [|r rest IH]; intros eval et mu w; [done|].
  cbn [judgeSets].
  pose proof (executeCaseSet_frame env j r w) as [Hdb Hnot].
  destruct (executeCaseSet env j r w) as [[[h|] r'] w1]; cbn [snd] in *.
  - pose proof (judgeCaseSet_frame h
                  (ev_next eval (JudgeSetResult.CaseSet r)) r' w1)
      as [Hdb2 Hnot2].
    destruct (judgeCaseSet h _ r' w1) as [[[[e|] ev'] r''] w2];
      cbn [snd] in *.
    + destruct (IH ev' (MaxDuration et (JudgeSetResult.ExecTime r''))
                  (MaxLong mu (JudgeSetResult.MemoryUsage r'')) w2)
        as [-> ->].
      by rewrite Hdb2, Hnot2, Hdb, Hnot.
    + by rewrite Hdb2, Hnot2, Hdb, Hnot.
  - by rewrite Hdb, Hnot.
Qed.

Lemma compile_frame env src lang w :
  db (compile env src lang w).2 = db w ∧
  notifications (compile env src lang w).2 = notifications w.
Proof.
  unfold compile. destruct (compileNewWorker env); [|done]. cbn [negb].
  unfold createSandbox. destruct (compileCopy env); [|done]. cbn [negb].
  by destruct (compileRun env).
Qed.

Lemma markAs_submissions sets st d :
  submissions (markAs sets st d) = submissions d.
Proof. by rewrite markAs_spec. Qed.

Lemma runBody_frame env sub w :
  submissions (db (runBody env sub w).2) = submissions (db w) ∧
  notifications (runBody env sub w).2 = notifications w ∧
  Submission.ID (submission (job (runBody env sub w).1.2)) = Submission.ID sub ∧
  Submission.ContestID (submission (job (runBody env sub w).1.2))
  = Submission.ContestID sub.
Proof.
  unfold runBody.
  destruct (selectEvaluator env (Submission.JudgeType sub)) as [eval|].
  2: { cbn. by rewrite markAs_submissions. }
  pose proof (compile_frame env (Submission.SourceCode sub)
                (Submission.Language sub) w) as [Hdb Hnot].
  destruct (compile env _ _ w) as [[c cr] w1]. cbn [snd] in *.
  assert (∀ (ev' : evaluator) st et mu (w2 : World),
            submissions (db w2) = submissions (db w) →
            notifications w2 = notifications w →
            let out :=
              let '(st, pt) :=
                if decide (st ≠ StatusCompileError)
                then (ev_evaluate ev').1 else (st, 0) in
              let sub' := Submission.judged sub pt st et mu in
              (Returned None,
               {| job := {| submission := sub'; compiled := c |};
                  execTime := et; memoryUsage := mu; runPoint := pt;
                  finalStatus := st |},
               contestScore env sub' w2) in
            submissions (db out.2) = submissions (db w) ∧
            notifications out.2 = notifications w ∧
            Submission.ID (submission (job out.1.2)) = Submission.ID sub ∧
            Submission.ContestID (submission (job out.1.2))
            = Submission.ContestID sub) as Htail.
  { intros ev' st et mu w2 Hs Hn.
    destruct (if decide (st ≠ StatusCompileError)
              then (ev_evaluate ev').1 else (st, 0)) as [st' pt].
    cbn [fst snd]. by rewrite contestScore_db, contestScore_notifications. }
  destruct c as [c|]; [destruct cr as [r|]|].
  - destruct (decide (workers.Status r ≠ workers.StatusFinished)).
    + apply Htail; cbn; [by rewrite markAs_submissions, Hdb | done].
    + pose proof (judgeSets_frame env {| submission := sub; compiled := Some c |}
                    (Submission.JudgeSetResults sub) eval 0 0 w1)
        as [Hs Hn].
      destruct (judgeSets env _ _ eval 0 0 w1) as [[[[[|] ev'] et] mu] w2];
        cbn [snd] in *.
      * cbn. split; [congruence|]. split; [congruence|]. done.
      * apply Htail; congruence.
  - apply Htail; cbn; [by rewrite markAs_submissions, Hdb | done].
  - apply Htail; cbn; [by rewrite markAs_submissions, Hdb | done].
Qed.

Lemma evaluateStatuses_priority m : evaluateStatuses m ∈ statusPriority.
Proof.
  unfold evaluateStatuses.
  destruct (filter _ statusPriority) as [|s l] eqn:Hf.
  - unfold statusPriority. by left.
  - assert (s ∈ filter (λ s, 0 < count_of m s) statusPriority) as Hs
      by (rewrite Hf; by left).
    by apply list_elem_of_filter in Hs as [_ Hs].
Qed.

Lemma ev_evaluate_simple e :
  (ev_evaluate (simpleEval e)).1.1 ∈ statusPriority.
Proof.
  unfold ev_evaluate, simpleEval.
  cbn [ev_with ev_cur ev_evaluate_fn newSimpleEvaluator].
  unfold simpleEvaluator.evaluate.
  destruct (simpleEvaluator.lastSet e); cbn.
  - apply evaluateStatuses_priority.
  - unfold statusPriority. by left.
Qed.

(** The job keeps the evaluator it chose: from the exact-match evaluator,
    every step of the loops is a step of the exact-match evaluator. *)
Lemma judgeCases_simple (p : Parser) (n : nat) :
  ∀ rest i e d, ∃ e', (judgeCases p n i rest (simpleEval e) d).1.2 = simpleEval e'.
Proof.
  induction rest as [|r rest IH]; intros i e d; [by exists e|].
  cbn [judgeCases].
  destruct (err (p i)); [by exists e|].
  destruct (negb (has (p i)) && _); [by exists e|].
  unfold ev_setNext.
  change (ev_setNext_fn (simpleEval e) (ev_cur (simpleEval e)))
    with (simpleEvaluator.setNext e).
  destruct (simpleEvaluator.setNext e (res (p i)) (JudgeResult.TestCase r))
    as [[st pt] e1].
  change (ev_with (simpleEval e) e1) with (simpleEval e1).
  destruct (res (p i)) as [x|]; [apply IH | by exists e1].
Qed.

Lemma judgeCaseSet_simple h e sr w :
  ∃ e', (judgeCaseSet h (simpleEval e) sr w).1.1.2 = simpleEval e'.
Proof.
  unfold judgeCaseSet.
  destruct (judgeCases_simple (NewExecResultParser h w)
              (length (JudgeSetResult.JudgeResults sr))
              (JudgeSetResult.JudgeResults sr) 0 e (db w)) as [e' He].
  destruct (judgeCases _ _ _ _ _ _) as [[early ev'] d]. cbn in He. subst ev'.
  exists e'. destruct early; [done|].
  by destruct (ev_setEvaluate (simpleEval e')).
Qed.

Lemma judgeSets_simple env j :
  ∀ sets e et mu w,
    ∃ e', (judgeSets env j sets (simpleEval e) et mu w).1.1.1.2 = simpleEval e'.
Proof.
  induction sets as [|r rest IH]; intros e et mu w; [by exists e|].
  cbn [judgeSets].
  change (ev_next (simpleEval e) (JudgeSetResult.CaseSet r))
    with (simpleEval (simpleEvaluator.next e
                        (Some (JudgeSetResult.CaseSet r)) None)).
  set (e1 := simpleEvaluator.next e _ None).
  destruct (executeCaseSet env j r w) as [[[h|] r'] w1]; [|by exists e1].
  destruct (judgeCaseSet_simple h e1 r' w1) as [e2 He2].
  destruct (judgeCaseSet h (simpleEval e1) r' w1) as [[[x ev'] r''] w2].
  cbn in He2. subst ev'.
  destruct x; [apply IH | by exists e2].
Qed.

(** The status [Run] is about to write for a submission of the normal
    judge type is one of the statuses of the priority list: it is the
    initial UnknownError, CompileError, or a fold of the evaluator. *)
Lemma runBody_status env sub w :
  Submission.JudgeType sub = JudgeTypeNormal →
  finalStatus (runBody env sub w).1.2 ∈ statusPriority.
Proof.
  intros Ht. unfold runBody. rewrite Ht. cbn [selectEvaluator].
  destruct (compile env _ _ w) as [[c cr] w1].
  assert (StatusUnknownError ∈ statusPriority) as Hu by (by left).
  assert (StatusCompileError ∈ statusPriority) as Hc by (right; by left).
  assert (∀ e st,
            st ∈ statusPriority →
            (if decide (st ≠ StatusCompileError)
             then (ev_evaluate (simpleEval e)).1 else (st, 0)).1
            ∈ statusPriority) as Hev.
  { intros e st Hst. case_decide; [apply ev_evaluate_simple | done]. }
  destruct c as [c|]; [destruct cr as [r|]|].
  - destruct (decide (workers.Status r ≠ workers.StatusFinished)).
    + exact Hc.
    + destruct (judgeSets_simple env {| submission := sub; compiled := Some c |}
                  (Submission.JudgeSetResults sub) simpleEvaluator.new 0 0 w1)
        as [e' He'].
      change newSimpleEvaluator with (simpleEval simpleEvaluator.new).
      destruct (judgeSets env _ _ _ 0 0 w1) as [[[[[|] ev'] et] mu] w2];
        cbn in He'; subst ev'; [exact Hu|].
      specialize (Hev e' StatusUnknownError Hu).
      destruct (if decide _ then _ else _) as [st pt]. done.
  - change newSimpleEvaluator with (simpleEval simpleEvaluator.new).
    specialize (Hev simpleEvaluator.new StatusUnknownError Hu).
    destruct (if decide _ then _ else _) as [st pt]. done.
  - change newSimpleEvaluator with (simpleEval simpleEvaluator.new).
    specialize (Hev simpleEvaluator.new StatusUnknownError Hu).
    destruct (if decide _ then _ else _) as [st pt]. done.
Qed.

(** Whenever the submission exists, [Run] ends with one write of the
    submission's row (status, point, time and memory together) and one
    notification, on every path, a panic included; for the normal judge
    type the status written is a status of the priority list. *)
Lemma Run_finalizes env id w sub :
  GetSubmission env id = Some sub →
  ∃ row sub',
    submissions (db (Run env id w).2)
    = alter (λ _, row) (Submission.ID sub) (submissions (db w)) ∧
    notifications (Run env id w).2
    = notifications w ++ [(Submission.ContestID sub, sub')] ∧
    (Submission.JudgeType sub = JudgeTypeNormal →
     status row ∈ statusPriority).
Proof.
  intros Hsub. unfold Run, SetStatus. rewrite Hsub.
  set (sub1 := Submission.withStatus sub StatusJudging).
  set (w1 := withDB _ w).
  pose proof (runBody_frame env sub1 w1) as (Hs & Hn & Hid & Hc).
  pose proof (runBody_status env sub1 w1) as Hst.
  destruct (runBody env sub1 w1) as [[x s] w2]. cbn [fst snd] in *.
  exists {| status := finalStatus s; point := runPoint s;
            exec_time := execTime s; memory_usage := memoryUsage s |},
    (submission (job s)).
  split; [|split].
  - unfold Close. destruct (compiled (job s)); unfold finalize, Remove;
      cbn [db submissions withSandboxes updateSubmission];
      rewrite Hs, Hid; unfold w1, sub1; cbn;
      (apply map_eq; intros k; rewrite !lookup_alter;
       repeat case_decide; try done;
       by destruct (submissions (db w) !! Submission.ID sub)).
  - unfold Close. destruct (compiled (job s)); unfold finalize, Remove;
      cbn [notifications withSandboxes]; by rewrite Hn, Hc.
  - intros Ht. by apply Hst.
Qed.

(** The whole job on the sample submission, with and without a shuffle:
    same rows, same notification. *)
Example shuffled_run_same_rows :
  db (Run happyEnv 1 sampleWorld).2
  = db (Run (batchEnv happyEnv adder None) 1 sampleWorld).2
  ∧ notifications (Run happyEnv 1 sampleWorld).2
    = notifications (Run (batchEnv happyEnv adder None) 1 sampleWorld).2.
Proof. split; vm_compute; reflexivity. Qed.

(** * Further properties of the job *)

(** ** Sandboxes on the error paths *)

Lemma map_removed_alter (f : Sandbox → Sandbox) h (l : list Sandbox) :
  (∀ s, removed (f s) = removed s) →
  map removed (alter f h l) = map removed l.
Proof.
  intros Hf. revert h. induction l as [|s l IH]; intros [|h]; cbn; [done..| |].
  - by rewrite Hf.
  - by rewrite IH.
Qed.

Lemma removedFlags_copy h content path w :
  removedFlags (CopyContentToContainer h content path w) = removedFlags w.
Proof. unfold removedFlags. cbn. by apply map_removed_alter. Qed.

Lemma removedFlags_CopyTo c path h w :
  removedFlags (CopyTo c path h w) = removedFlags w.
Proof.
  unfold CopyTo. destruct (_ ≫= _); [apply removedFlags_copy | done].
Qed.

Lemma removedFlags_create img w :
  removedFlags (createSandbox img w).2 = removedFlags w ++ [false].
Proof. unfold removedFlags. cbn. by rewrite map_app. Qed.

Lemma removedFlags_withDB f w : removedFlags (withDB f w) = removedFlags w.
Proof. done. Qed.

Lemma removedFlags_Remove h w :
  removedFlags (Remove h w) = <[h := true]> (removedFlags w).
Proof.
  unfold removedFlags. cbn. generalize (sandboxes w). intros l. revert h.
  induction l as [|s l IH]; intros [|h]; cbn; [done..|]. by rewrite IH.
Qed.

(** Destroying the newest sandbox. *)
Lemma removedFlags_Remove_last w0 w :
  removedFlags w = removedFlags w0 ++ [false] →
  removedFlags (Remove (length (sandboxes w0)) w) = removedFlags w0 ++ [true].
Proof.
  intros H. rewrite removedFlags_Remove, H.
  replace (length (sandboxes w0)) with (length (removedFlags w0) + 0)%nat
    by (unfold removedFlags; rewrite length_map; lia).
  by rewrite insert_app_r.
Qed.

Lemma removedFlags_injectInputs se h :
  ∀ rest i w, removedFlags (injectInputs se h i rest w).2 = removedFlags w.
Proof.
  induction rest as [|c rest IH]; intros i w; [done|].
  cbn [injectInputs]. destruct (copyInput se i); [|done].
  by rewrite IH, removedFlags_copy.
Qed.

(** What [createJudgementWorker] leaves in the store: with a worker, one
    more sandbox, alive, and the worker is its handle; without, nothing
    more that is alive. *)
Lemma createJudgementWorker_flags env se j results w :
  match (createJudgementWorker env se j results w).1.1 with
  | Some h =>
      h = length (sandboxes w) ∧
      removedFlags (createJudgementWorker env se j results w).2
      = removedFlags w ++ [false]
  | None =>
      removedFlags (createJudgementWorker env se j results w).2
      = removedFlags w ∨
      removedFlags (createJudgementWorker env se j results w).2
      = removedFlags w ++ [true]
  end.
Proof.
  unfold createJudgementWorker.
  destruct (newWorker se); cbn [negb]; [|by left].
  pose proof (removedFlags_create
                (imageNamePrefix +:+ Language.ImageName
                   (Submission.Language (submission j))) w) as Hnew.
  unfold createSandbox in *. cbn [snd] in Hnew.
  set (w1 := withSandboxes _ w) in *.
  assert (∀ w2, removedFlags w2 = removedFlags w ++ [false] →
                removedFlags (Remove (length (sandboxes w)) w2)
                = removedFlags w ++ [true]) as Hrm
    by (intros w2; apply removedFlags_Remove_last).
  destruct (judgeScript env) as [script|]; [|right; by apply Hrm].
  destruct (copyScript se); cbn [negb]; [|right; by apply Hrm].
  match goal with
  | |- context [injectInputs ?a ?b ?c ?d ?e] =>
      pose proof (removedFlags_injectInputs a b d c e) as Hinj;
      destruct (injectInputs a b c d e) as [[|] w2]
  end; cbn [snd] in Hinj; rewrite removedFlags_copy, Hnew in Hinj.
  - destruct (compiled j) as [c|]; [|right; by apply Hrm].
    destruct (copyExe se); cbn [negb fst snd]; [|right; by apply Hrm].
    split; [done|]. by rewrite removedFlags_CopyTo.
  - right. by apply Hrm.
Qed.

(** X1.  [createJudgementWorker] never hands back nil and leaves a live
    sandbox behind: when it returns no worker, the store has at most one
    sandbox more and that one is destroyed; when it returns a worker, the
    worker is the handle of the one new sandbox, which is alive.  It never
    writes to the database. *)
Theorem createJudgementWorker_cleans_up (env : Env) (se : SetEnv)
    (j : judgementJob) (results : list JudgeResult.t) (w : World) :
  let out := createJudgementWorker env se j results w in
  db out.2 = db w ∧
  (out.1.1 = None →
   removedFlags out.2 = removedFlags w ∨
   removedFlags out.2 = removedFlags w ++ [true]) ∧
  (∀ h, out.1.1 = Some h →
   h = length (sandboxes w) ∧ removedFlags out.2 = removedFlags w ++ [false]).
Proof.
  cbn zeta.
  pose proof (createJudgementWorker_flags env se j results w) as Hf.
  destruct (createJudgementWorker_frame env se j results w) as [Hdb _].
  split; [done|]. split.
  - intros Hn. by rewrite Hn in Hf.
  - intros h Hh. by rewrite Hh in Hf.
Qed.

Lemma removedFlags_output p h w :
  removedFlags (withSandboxes (alter (withOutput p) h) w) = removedFlags w.
Proof. unfold removedFlags. cbn. by apply map_removed_alter. Qed.

(** With a [w.Run] that cannot fail, [executeCaseSet] leaves a live sandbox
    only together with its worker. *)
Lemma executeCaseSet_flags env j r w :
  (∀ s, is_Some (run (setEnv env (JudgeSetResult.ID r)) s)) →
  match (executeCaseSet env j r w).1.1 with
  | Some h =>
      h = length (sandboxes w) ∧
      removedFlags (executeCaseSet env j r w).2 = removedFlags w ++ [false]
  | None =>
      removedFlags (executeCaseSet env j r w).2 = removedFlags w ∨
      removedFlags (executeCaseSet env j r w).2 = removedFlags w ++ [true]
  end.
Proof.
  intros Hrun. unfold executeCaseSet.
  pose proof (createJudgementWorker_flags env
                (setEnv env (JudgeSetResult.ID r)) j
                (JudgeSetResult.JudgeResults r) w) as Hf.
  destruct (createJudgementWorker _ _ _ _ _) as [[[h|] rs] w1];
    cbn [fst snd] in *; [|done].
  destruct Hf as [-> Hf]. unfold Worker in *.
  destruct (sandboxes w1 !! length (sandboxes w)) as [s|] eqn:Hs.
  - cbn [mbind option_bind]. destruct (Hrun s) as [p ->]. cbn [fst snd].
    split; [done|]. by rewrite removedFlags_output.
  - apply lookup_ge_None in Hs.
    apply (f_equal length) in Hf. unfold removedFlags in Hf.
    rewrite length_app, !length_map in Hf. cbn in Hf. lia.
Qed.

Lemma judgeCaseSet_flags h ev sr w :
  removedFlags (judgeCaseSet h ev sr w).2 = <[h := true]> (removedFlags w).
Proof.
  unfold judgeCaseSet.
  destruct (judgeCases _ _ _ _ _ _) as [[[x|] ev'] d].
  - cbn [snd]. by rewrite removedFlags_Remove.
  - destruct (ev_setEvaluate ev'). cbn [snd]. by rewrite removedFlags_Remove.
Qed.

Lemma insert_last_flag (l : list bool) :
  <[length l := true]> (l ++ [false]) = l ++ [true].
Proof.
  replace (length l) with (length l + 0)%nat by lia. by rewrite insert_app_r.
Qed.

(** The loop of [Run] when no [w.Run] fails: every sandbox it created is
    destroyed when it ends, however it ends. *)
Lemma judgeSets_flags env j :
  (∀ id s, is_Some (run (setEnv env id) s)) →
  ∀ sets eval et mu w,
    ∃ k, removedFlags (judgeSets env j sets eval et mu w).2
         = removedFlags w ++ replicate k true.
Proof.
  intros Hrun. induction sets as [|r rest IH]; intros eval et mu w.
  - exists 0%nat. cbn. by rewrite app_nil_r.
  - cbn [judgeSets].
    pose proof (executeCaseSet_flags env j r w (Hrun _)) as Hex.
    destruct (executeCaseSet env j r w) as [[[h|] r'] w1]; cbn [fst snd] in *.
    + destruct Hex as [-> Hex].
      assert (removedFlags
                (judgeCaseSet (length (sandboxes w))
                   (ev_next eval (JudgeSetResult.CaseSet r)) r' w1).2
              = removedFlags w ++ [true]) as Hj.
      { rewrite judgeCaseSet_flags, Hex.
        rewrite <-(length_map removed (sandboxes w)). apply insert_last_flag. }
      destruct (judgeCaseSet _ _ r' w1) as [[[[e|] ev'] r''] w2];
        cbn [snd] in *; lazy beta iota zeta.
      * destruct (IH ev' (MaxDuration et (JudgeSetResult.ExecTime r''))
                    (MaxLong mu (JudgeSetResult.MemoryUsage r'')) w2)
          as [k Hk].
        exists (S k). rewrite Hk, Hj. by rewrite <-app_assoc.
      * exists 1%nat. by rewrite Hj.
    + destruct Hex as [Hex|Hex].
      * exists 0%nat. by rewrite Hex, app_nil_r.
      * exists 1%nat. by rewrite Hex.
Qed.

Lemma removedFlags_contestScore env sub w :
  removedFlags (contestScore env sub w) = removedFlags w.
Proof. unfold removedFlags. by rewrite contestScore_sandboxes. Qed.

(** X2.  When the compile step does not fail after its sandbox exists and
    no [w.Run] on a set's sandbox fails, every sandbox that [Run] created
    is destroyed when it returns: on a compile error, when a sandbox of a
    set cannot be set up, on a parse error, on a panic. *)
Theorem Run_destroys_its_sandboxes (env : Env) (id : nat) (w : World) :
  (compileNewWorker env = false ∨
   (compileCopy env = true ∧ is_Some (compileRun env))) →
  (∀ sid s, is_Some (run (setEnv env sid) s)) →
  ∃ k, removedFlags (Run env id w).2 = removedFlags w ++ replicate k true.
Proof.
  intros Hcompile Hrun. unfold Run, SetStatus.
  destruct (GetSubmission env id) as [sub|];
    [|exists 0%nat; cbn; by rewrite app_nil_r].
  set (sub1 := Submission.withStatus sub StatusJudging).
  set (w1 := withDB _ w).
  assert (removedFlags w1 = removedFlags w) as Hw1 by done.
  assert (length (sandboxes w1) = length (sandboxes w)) as Hlen by done.
  unfold runBody.
  destruct (selectEvaluator env (Submission.JudgeType sub1)) as [eval|].
  2: { exists 0%nat. cbn. by rewrite app_nil_r. }
  unfold compile.
  destruct (compileNewWorker env) eqn:Hnew; cbn [negb].
  2: { (* no compile sandbox *)
       destruct (if decide (StatusUnknownError ≠ StatusCompileError)
                 then (ev_evaluate eval).1 else (StatusUnknownError, 0))
         as [st pt].
       exists 0%nat. cbn [fst snd job compiled Close].
       unfold finalize. unfold removedFlags. cbn [sandboxes].
       rewrite contestScore_sandboxes. cbn. by rewrite app_nil_r. }
  destruct Hcompile as [Hf|[Hcopy [r Hr]]]; [done|].
  rewrite Hcopy, Hr. cbn [negb]. unfold createSandbox.
  set (w2 := CopyContentToContainer _ _ _ _).
  assert (removedFlags w2 = removedFlags w ++ [false]) as Hw2.
  { unfold w2. rewrite removedFlags_copy. unfold removedFlags. cbn.
    by rewrite map_app. }
  assert (∀ (ev' : evaluator) st et mu (w3 : World) k,
            removedFlags w3 = removedFlags w ++ [false] ++ replicate k true →
            ∃ k',
              removedFlags
                (let '(exit, s, w4) :=
                   let '(st, pt) :=
                     if decide (st ≠ StatusCompileError)
                     then (ev_evaluate ev').1 else (st, 0) in
                   let sub' := Submission.judged sub1 pt st et mu in
                   (Returned None,
                    {| job := {| submission := sub';
                                 compiled := Some (length (sandboxes w1)) |};
                       execTime := et; memoryUsage := mu; runPoint := pt;
                       finalStatus := st |},
                    contestScore env sub' w3) in
                 (exit, Close (job s) (finalize s w4))).2
              = removedFlags w ++ replicate k' true) as Htail.
  { intros ev' st et mu w3 k Hw3.
    destruct (if decide (st ≠ StatusCompileError)
              then (ev_evaluate ev').1 else (st, 0)) as [st' pt].
    exists (S k). cbn [fst snd job compiled Close].
    rewrite removedFlags_Remove.
    assert (removedFlags
              (finalize
                 {| job := {| submission := Submission.judged sub1 pt st' et mu;
                              compiled := Some (length (sandboxes w1)) |};
                    execTime := et; memoryUsage := mu; runPoint := pt;
                    finalStatus := st' |}
                 (contestScore env (Submission.judged sub1 pt st' et mu) w3))
            = removedFlags w3) as ->.
    { unfold finalize, removedFlags. cbn [sandboxes].
      by rewrite contestScore_sandboxes. }
    rewrite Hw3, Hlen, <-(length_map removed (sandboxes w)).
    change (map removed (sandboxes w)) with (removedFlags w).
    replace (length (removedFlags w)) with (length (removedFlags w) + 0)%nat
      by lia.
    by rewrite insert_app_r. }
  destruct (decide (workers.Status r ≠ workers.StatusFinished)).
  - apply (Htail eval StatusCompileError 0 0 _ 0%nat).
    by rewrite removedFlags_withDB, Hw2.
  - destruct (judgeSets_flags env
                {| submission := sub1;
                   compiled := Some (length (sandboxes w1)) |}
                Hrun (Submission.JudgeSetResults sub1) eval 0 0 w2)
      as [k Hk].
    rewrite Hw2, <-app_assoc in Hk.
    destruct (judgeSets env _ _ eval 0 0 w2) as [[[[[|] ev'] et] mu] w3];
      cbn [snd] in Hk.
    + (* panic *)
      exists (S k). cbn [fst snd job compiled Close].
      rewrite removedFlags_Remove. unfold finalize at 1.
      change (removedFlags {| db := _; sandboxes := sandboxes w3;
                              notifications := _; scoreUpdates := _ |})
        with (removedFlags w3).
      rewrite Hk, Hlen, <-(length_map removed (sandboxes w)).
      change (map removed (sandboxes w)) with (removedFlags w).
      replace (length (removedFlags w)) with (length (removedFlags w) + 0)%nat
        by lia.
      by rewrite insert_app_r.
    + by apply (Htail ev' StatusUnknownError et mu w3 k).
Qed.

Lemma Run_destroys_its_sandboxes_witness :
  ∃ k, removedFlags (Run parseFailsEnv 1 sampleWorld).2
       = removedFlags sampleWorld ++ replicate k true.
Proof.
  apply Run_destroys_its_sandboxes.
  - right. split; [reflexivity | eexists; reflexivity].
  - intros sid s. cbn. destruct (decide (sid = 10%nat)); eexists; reflexivity.
Defined.

(** ** The paths of [Run] that judge nothing *)





(** X5.  [Run] writes the submission's row and sends its notification
    exactly once when the submission exists, on every path (early return,
    error, panic), and touches no other submission's row; when the
    submission is gone it does nothing at all. *)
Theorem Run_finalizes_once (env : Env) (id : nat) (w : World) :
  match GetSubmission env id with
  | None => Run env id w = (Returned None, w)
  | Some sub =>
      ∃ row sub',
        submissions (db (Run env id w).2)
        = alter (λ _, row) (Submission.ID sub) (submissions (db w)) ∧
        notifications (Run env id w).2
        = notifications w ++ [(Submission.ContestID sub, sub')] ∧
        (Submission.JudgeType sub = JudgeTypeNormal →
         status row ∈ statusPriority)
  end.
Proof.
  destruct (GetSubmission env id) as [sub|] eqn:Hsub.
  - by apply Run_finalizes.
  - unfold Run. by rewrite Hsub.
Qed.

(** ** The loop over the sets *)

(** X6.  When the sandbox of a set cannot be built or run, the loop of
    [Run] stops at that set: the evaluator has been told of the set, the
    two maxima are as they were, the later sets are not looked at, and no
    row of the database has been written. *)
Theorem sandbox_failure_breaks_loop (env : Env) (j : judgementJob)
    (r : JudgeSetResult.t) (rest : list JudgeSetResult.t) (eval : evaluator)
    (et mu : Z) (w : World) :
  (executeCaseSet env j r w).1.1 = None →
  judgeSets env j (r :: rest) eval et mu w
  = (false, ev_next eval (JudgeSetResult.CaseSet r), et, mu,
     (executeCaseSet env j r w).2) ∧
  db (judgeSets env j (r :: rest) eval et mu w).2 = db w ∧
  notifications (judgeSets env j (r :: rest) eval et mu w).2
  = notifications w.
Proof.
  intros Hnone.
  destruct (judgeSets_break env j r rest eval et mu w Hnone) as [Heq Hdb].
  split; [done|]. split; [done|].
  rewrite Heq. cbn [snd]. by destruct (executeCaseSet_frame env j r w).
Qed.

Lemma sandbox_failure_breaks_loop_witness :
  db (judgeSets runFailsEnv compiledJob
        (Submission.JudgeSetResults sampleSubmission) newSimpleEvaluator
        0 0 compiledWorld).2 = db compiledWorld.
Proof.
  refine (proj1 (proj2 (sandbox_failure_breaks_loop runFailsEnv compiledJob
                          firstSetResult [sampleSetResult 11 50
                                            [sampleResult 102 "5 5" "10"]]
                          newSimpleEvaluator 0 0 compiledWorld _))).
  reflexivity.
Defined.

(** ** A parser error inside a set *)

Lemma judgeCases_error (p : Parser) (n k : nat) (e : error) :
  err (p k) = Some e →
  ∀ rest i ev d,
    (i ≤ k)%nat → (k < i + length rest)%nat →
    (∀ j, (i ≤ j < k)%nat → presents (p j)) →
    (judgeCases p n i rest ev d).1.1 = Some (Returned (Some e)) ∧
    submissions (judgeCases p n i rest ev d).2 = submissions d ∧
    judge_set_results (judgeCases p n i rest ev d).2 = judge_set_results d ∧
    ∀ id, id ∉ map JudgeResult.ID (take (k - i) rest) →
      judge_results (judgeCases p n i rest ev d).2 !! id
      = judge_results d !! id.
Proof.
  intros Herr rest.
  induction rest as [|r rest IH]; intros i ev d Hik Hk Hgood.
  - cbn in Hk. lia.
  - cbn [judgeCases length] in *.
    destruct (decide (i = k)) as [->|Hne].
    + rewrite Herr. cbn. done.
    + destruct (Hgood i) as (Hh & [x Hx] & He); [lia|].
      rewrite He, Hh. cbn [negb andb].
      destruct (ev_setNext ev (res (p i)) (JudgeResult.TestCase r))
        as [[st pt] ev'].
      rewrite Hx.
      destruct (IH (S i) ev'
                  (updateJudgeResult (JudgeResult.ID r)
                     (λ _, {| case_status := st;
                              case_exec_time := workers.ExecTime x;
                              case_memory_usage :=
                                Z.quot (workers.MemoryUsage x) 1024 |}) d))
        as (Hexit & Hs & Hj & Hrows); [lia | lia | |].
      { intros j Hj. apply Hgood. lia. }
      split; [done|]. split; [done|]. split; [done|].
      intros id Hid.
      replace (k - i)%nat with (S (k - S i)) in Hid by lia.
      cbn [take map] in Hid. apply not_elem_of_cons in Hid as [Hne' Hid].
      rewrite Hrows by done. cbn. by rewrite lookup_alter_ne.
Qed.

(** X7.  When the parser fails at the [k]-th block of a set, the blocks
    before having been presented, [judgeCaseSet] returns the parser's
    error, leaves the set result and the set's row as they were, writes no
    row but those of the [k] cases before the failure, and destroys the
    sandbox. *)
Theorem parser_error_aborts_set (h : Worker) (ev : evaluator)
    (setResult : JudgeSetResult.t) (w : World) (k : nat) (e : error) :
  let p := NewExecResultParser h w in
  let results := JudgeSetResult.JudgeResults setResult in
  (k < length results)%nat →
  (∀ j, (j < k)%nat → presents (p j)) →
  err (p k) = Some e →
  let out := judgeCaseSet h ev setResult w in
  out.1.1.1 = Returned (Some e) ∧
  out.1.2 = setResult ∧
  submissions (db out.2) = submissions (db w) ∧
  judge_set_results (db out.2) = judge_set_results (db w) ∧
  (∀ id, id ∉ map JudgeResult.ID (take k results) →
     judge_results (db out.2) !! id = judge_results (db w) !! id) ∧
  sandboxes out.2 = alter destroyed h (sandboxes w).
Proof.
  intros p results Hk Hgood Herr out.
  destruct (judgeCases_error p (length results) k e Herr results 0 ev (db w))
    as (Hexit & Hs & Hj & Hrows); [lia | lia | |].
  { intros j Hj. apply Hgood. lia. }
  rewrite Nat.sub_0_r in Hrows.
  unfold out, judgeCaseSet. fold results. fold p.
  destruct (judgeCases p (length results) 0 results ev (db w))
    as [[early ev'] d].
  cbn [fst snd] in *. subst early. cbn.
  repeat split; done.
Qed.

Lemma parser_error_aborts_set_witness :
  (judgeCaseSet 0%nat firstSetEvaluator firstSetResult
     (parsedWorld (λ i, if decide (i < 1)%nat then blocksOf 1 i
                        else {| has := false; res := None;
                                err := Some (ErrOther "malformed") |}))).1.1.1
  = Returned (Some (ErrOther "malformed")).
Proof.
  refine (proj1 (parser_error_aborts_set 0%nat firstSetEvaluator
                   firstSetResult _ 1%nat (ErrOther "malformed") _ _ _)).
  - cbn. lia.
  - intros j Hj. assert (j = 0%nat) as -> by lia.
    split; [reflexivity | split; [eexists; reflexivity | reflexivity]].
  - reflexivity.
Defined.

(** ** [markAs] *)


(** ** The score of a contest *)

Lemma injectInputs_scores se h :
  ∀ rest i w, scoreUpdates (injectInputs se h i rest w).2 = scoreUpdates w.
Proof.
  induction rest as [|c rest IH]; intros i w; [done|].
  cbn [injectInputs]. destruct (copyInput se i); [|done]. by rewrite IH.
Qed.

Lemma createJudgementWorker_scores env se j results w :
  scoreUpdates (createJudgementWorker env se j results w).2 = scoreUpdates w.
Proof.
  unfold createJudgementWorker.
  destruct (newWorker se); [|done]. cbn [negb]. unfold createSandbox.
  destruct (judgeScript env) as [script|]; [|done].
  destruct (copyScript se); [|done]. cbn [negb].
  match goal with
  | |- context [injectInputs ?a ?b ?c ?d ?e] =>
      pose proof (injectInputs_scores a b d c e) as Hinj;
      destruct (injectInputs a b c d e) as [[|] w1]
  end; [|done].
  destruct (compiled j) as [c|]; [|done].
  destruct (copyExe se); cbn [negb snd]; [|done].
  unfold CopyTo. by destruct (_ ≫= _).
Qed.

Lemma executeCaseSet_scores env j r w :
  scoreUpdates (executeCaseSet env j r w).2 = scoreUpdates w.
Proof.
  unfold executeCaseSet.
  pose proof (createJudgementWorker_scores env
                (setEnv env (JudgeSetResult.ID r)) j
                (JudgeSetResult.JudgeResults r) w) as Hc.
  destruct (createJudgementWorker _ _ _ _ _) as [[[h|] rs] w1]; [|done].
  by destruct (_ ≫= _).
Qed.

Lemma judgeCaseSet_scores h ev sr w :
  scoreUpdates (judgeCaseSet h ev sr w).2 = scoreUpdates w.
Proof.
  unfold judgeCaseSet.
  destruct (judgeCases _ _ _ _ _ _) as [[[x|] ev'] d]; [done|].
  by destruct (ev_setEvaluate ev').
Qed.

Lemma judgeSets_scores env j :
  ∀ sets eval et mu w,
    scoreUpdates (judgeSets env j sets eval et mu w).2 = scoreUpdates w.
Proof.
  induction sets as [|r rest IH]; intros eval et mu w; [done|].
  cbn [judgeSets].
  pose proof (executeCaseSet_scores env j r w) as Hex.
  destruct (executeCaseSet env j r w) as [[[h|] r'] w1]; cbn [snd] in *;
    [|done].
  pose proof (judgeCaseSet_scores h
                (ev_next eval (JudgeSetResult.CaseSet r)) r' w1) as Hj.
  destruct (judgeCaseSet h _ r' w1) as [[[[e|] ev'] r''] w2]; cbn [snd] in *.
  - rewrite IH. congruence.
  - congruence.
Qed.

Lemma compile_scores env src lang w :
  scoreUpdates (compile env src lang w).2 = scoreUpdates w.
Proof.
  unfold compile. destruct (compileNewWorker env); [|done]. cbn [negb].
  unfold createSandbox. destruct (compileCopy env); [|done]. cbn [negb].
  by destruct (compileRun env).
Qed.

(** The score hook, in [runBody]. *)
Lemma runBody_scores env sub w :
  scoreUpdates (runBody env sub w).2
  = scoreUpdates w
    ++ match selectEvaluator env (Submission.JudgeType sub),
             (runBody env sub w).1.1, Submission.ContestID sub,
             isWriter env with
       | Some _, Returned _, Some cid, Some false =>
           if isOpen env
           then [(submission (job (runBody env sub w).1.2), cid)] else []
       | _, _, _, _ => []
       end.
Proof.
  unfold runBody.
  destruct (selectEvaluator env (Submission.JudgeType sub)) as [eval|].
  2: { cbn. by rewrite app_nil_r. }
  pose proof (compile_scores env (Submission.SourceCode sub)
                (Submission.Language sub) w) as Hc.
  destruct (compile env _ _ w) as [[c cr] w1]. cbn [snd] in Hc.
  assert (∀ (ev' : evaluator) st et mu (w2 : World),
            scoreUpdates w2 = scoreUpdates w →
            let out :=
              let '(st, pt) :=
                if decide (st ≠ StatusCompileError)
                then (ev_evaluate ev').1 else (st, 0) in
              let sub' := Submission.judged sub pt st et mu in
              (Returned None,
               {| job := {| submission := sub'; compiled := c |};
                  execTime := et; memoryUsage := mu; runPoint := pt;
                  finalStatus := st |},
               contestScore env sub' w2) in
            scoreUpdates out.2
            = scoreUpdates w
              ++ match out.1.1, Submission.ContestID sub, isWriter env with
                 | Returned _, Some cid, Some false =>
                     if isOpen env then [(submission (job out.1.2), cid)]
                     else []
                 | _, _, _ => []
                 end) as Htail.
  { intros ev' st et mu w2 Hw2.
    destruct (if decide (st ≠ StatusCompileError)
              then (ev_evaluate ev').1 else (st, 0)) as [st' pt].
    cbn [fst snd job submission]. unfold contestScore.
    cbn [Submission.judged Submission.ContestID].
    destruct (Submission.ContestID sub) as [cid|];
      [|by rewrite Hw2, app_nil_r].
    destruct (isWriter env) as [[|]|]; cbn [negb andb];
      [rewrite andb_false_r; by rewrite Hw2, app_nil_r | |
       by rewrite Hw2, app_nil_r].
    rewrite andb_true_r.
    destruct (isOpen env); cbn [scoreUpdates];
      [by rewrite Hw2 | by rewrite Hw2, app_nil_r]. }
  destruct c as [c|]; [destruct cr as [r|]|].
  - destruct (decide (workers.Status r ≠ workers.StatusFinished)).
    + by apply Htail.
    + pose proof (judgeSets_scores env
                    {| submission := sub; compiled := Some c |}
                    (Submission.JudgeSetResults sub) eval 0 0 w1) as Hs.
      destruct (judgeSets env _ _ eval 0 0 w1) as [[[[[|] ev'] et] mu] w2];
        cbn [snd] in *.
      * cbn. rewrite app_nil_r. congruence.
      * apply Htail. congruence.
  - by apply Htail.
  - by apply Htail.
Qed.

(** What [runBody] leaves in the job when it returns with an evaluator. *)
Lemma runBody_returned env sub w :
  is_Some (selectEvaluator env (Submission.JudgeType sub)) →
  let out := runBody env sub w in
  (out.1.1 = Panicked ∧ scoreUpdates out.2 = scoreUpdates w) ∨
  (out.1.1 = Returned None ∧
   submission (job out.1.2)
   = Submission.judged sub (runPoint out.1.2) (finalStatus out.1.2)
       (execTime out.1.2) (memoryUsage out.1.2) ∧
   scoreUpdates out.2
   = scoreUpdates w
     ++ match Submission.ContestID sub, isWriter env, isOpen env with
        | Some cid, Some false, true => [(submission (job out.1.2), cid)]
        | _, _, _ => []
        end).
Proof.
  intros [eval Hev] out.
  pose proof (runBody_scores env sub w) as Hsc. fold out in Hsc.
  rewrite Hev in Hsc. revert Hsc. unfold out, runBody. rewrite Hev.
  destruct (compile env _ _ w) as [[c cr] w1].
  destruct (match c, cr with
            | Some _, Some r =>
                if decide (workers.Status r ≠ workers.StatusFinished)
                then (false, eval, StatusCompileError, 0, 0,
                      withDB (markAs (Submission.JudgeSetResults sub)
                                StatusCompileError) w1)
                else
                  let '(p, eval, et, mu, w) :=
                    judgeSets env {| submission := sub; compiled := c |}
                      (Submission.JudgeSetResults sub) eval 0 0 w1 in
                  (p, eval, StatusUnknownError, et, mu, w)
            | _, _ =>
                (false, eval, StatusUnknownError, 0, 0,
                 withDB (markAs (Submission.JudgeSetResults sub)
                           StatusUnknownError) w1)
            end) as [[[[[[|] ev'] st] et] mu] w2].
  - cbn. rewrite app_nil_r. intros ->. by left.
  - destruct (if decide (st ≠ StatusCompileError)
              then (ev_evaluate ev').1 else (st, 0)) as [st' pt].
    cbn [fst snd job submission runPoint finalStatus execTime memoryUsage].
    intros Hsc. right. split; [done|]. split; [done|].
    rewrite Hsc.
    destruct (Submission.ContestID sub); [|done].
    destruct (isWriter env) as [[|]|]; [done| |done].
    by destruct (isOpen env).
Qed.

(** X9.  The contest score is updated at most once by a run, with the
    submission as judged, and exactly when an evaluator was chosen, the
    run came to its end without a panic, the problem belongs to a contest,
    the author is known not to be a writer of it and the contest was open.
    The submission handed over carries the status and the point that the
    deferred write then stores in its row. *)
Theorem score_updated_once (env : Env) (id : nat) (w : World) :
  match GetSubmission env id with
  | None => scoreUpdates (Run env id w).2 = scoreUpdates w
  | Some sub =>
      ∃ sub',
        scoreUpdates (Run env id w).2
        = scoreUpdates w
          ++ match selectEvaluator env (Submission.JudgeType sub),
                   (Run env id w).1, Submission.ContestID sub,
                   isWriter env, isOpen env with
             | Some _, Returned None, Some cid, Some false, true =>
                 [(sub', cid)]
             | _, _, _, _, _ => []
             end ∧
        Submission.ID sub' = Submission.ID sub ∧
        (is_Some (selectEvaluator env (Submission.JudgeType sub)) →
         (Run env id w).1 = Returned None →
         ∀ row, submissions (db (Run env id w).2) !! Submission.ID sub
                = Some row →
                status row = Submission.Status sub' ∧
                point row = Submission.Point sub' ∧
                exec_time row = Submission.ExecTime sub' ∧
                memory_usage row = Submission.MemoryUsage sub')
  end.
Proof.
  destruct (GetSubmission env id) as [sub|] eqn:Hsub;
    unfold Run, SetStatus; rewrite Hsub; [|done].
  set (sub1 := Submission.withStatus sub StatusJudging).
  set (w1 := withDB _ w).
  pose proof (runBody_frame env sub1 w1) as (Hs & _ & Hid & _).
  pose proof (runBody_returned env sub1 w1) as Hret.
  pose proof (runBody_scores env sub1 w1) as Hsc.
  destruct (runBody env sub1 w1) as [[x s] w2] eqn:Hrun.
  cbn [fst snd] in *.
  exists (submission (job s)).
  assert (scoreUpdates (Close (job s) (finalize s w2)) = scoreUpdates w2)
    as Hcl.
  { unfold Close. by destruct (compiled (job s)). }
  assert (submissions (db (Close (job s) (finalize s w2)))
          = alter (λ _, {| status := finalStatus s; point := runPoint s;
                           exec_time := execTime s;
                           memory_usage := memoryUsage s |})
              (Submission.ID sub) (submissions (db w2))) as Hdb.
  { unfold Close. destruct (compiled (job s)); unfold finalize, Remove;
      cbn [db submissions withSandboxes updateSubmission]; by rewrite Hid. }
  split; [|split; [done|]].
  - rewrite Hcl.
    change (Submission.JudgeType sub1) with (Submission.JudgeType sub) in *.
    change (Submission.ContestID sub1) with (Submission.ContestID sub) in *.
    destruct (selectEvaluator env (Submission.JudgeType sub)) as [ev|].
    + destruct (Hret ltac:(done)) as [[-> ->]|(-> & _ & ->)];
        [by rewrite app_nil_r|]. done.
    + by rewrite Hsc.
  - intros Hev Hx row. rewrite Hdb, lookup_alter_eq.
    change (Submission.JudgeType sub1) with (Submission.JudgeType sub) in *.
    destruct (Hret Hev) as [[-> _]|(_ & -> & _)]; [done|].
    destruct (submissions (db w2) !! Submission.ID sub); [|done].
    intros [= <-]. done.
Qed.

(** ** The shuffle *)

Lemma swap_length {A} (l : list A) i j : length (swap l i j) = length l.
Proof.
  unfold swap. destruct (l !! i); [|done]. destruct (l !! j); [|done].
  by rewrite !length_insert.
Qed.

Lemma shuffleLoopChecked_ok {A} (r : Rand) (m : nat) :
  ∀ k (l : list A),
    (m ≤ length l)%nat →
    shuffleLoopChecked r k m l = Some (shuffle_loop r k m l).
Proof.
  induction m as [|i IH]; intros k l Hm; [done|].
  cbn [shuffleLoopChecked shuffle_loop]. unfold swapChecked.
  assert (Intn r k (i + 1) < length l)%nat as Hj.
  { unfold Intn. pose proof (Nat.mod_upper_bound (r k) (i + 1)). lia. }
  destruct (lookup_lt_is_Some_2 l i ltac:(lia)) as [x Hx].
  destruct (lookup_lt_is_Some_2 l _ Hj) as [y Hy].
  rewrite Hx, Hy.
  replace (<[Intn r k (i + 1) := x]> (<[i := y]> l))
    with (swap l i (Intn r k (i + 1))) by (unfold swap; by rewrite Hx, Hy).
  apply IH. rewrite swap_length. lia.
Qed.

(** X10.  Whatever the seed, the loop of [shuffleJudgeResults] indexes the
    slice inside its bounds only, and leaves a rearrangement of it: the
    same elements, each as often as before, in a slice of the same length.
    When no seed can be drawn the slice is as it was. *)
Theorem shuffle_rearranges {A} (sd : option Rand) (results : list A) :
  shuffleJudgeResults sd results ≡ₚ results ∧
  length (shuffleJudgeResults sd results) = length results ∧
  match sd with
  | Some r =>
      shuffleLoopChecked r 0 (length results) results
      = Some (shuffleJudgeResults sd results)
  | None => shuffleJudgeResults sd results = results
  end.
Proof.
  split; [apply shuffleJudgeResults_perm|].
  split; [by rewrite shuffleJudgeResults_perm|].
  destruct sd as [r|]; [|done]. by apply shuffleLoopChecked_ok.
Qed.

(** ** The counters of the exact-match evaluators *)

Lemma count_of_foldr_bump (sts : list JudgementStatus) m st :
  count_of (foldr bump m sts) st
  = count_of m st + Z.of_nat (length (filter (λ s, s = st) sts)).
Proof.
  induction sts as [|s sts IH]; cbn [foldr]; [cbn; lia|].
  rewrite count_of_bump, IH, filter_cons.
  destruct (decide (s = st)); cbn [length]; lia.
Qed.

Lemma length_filter_map_verdict st (l : list JudgedCase) :
  length (filter (λ s, s = st)
            (map (λ c, (simpleCaseSetEvaluator.classify c.1 c.2).1) l))
  = casesWith st l.
Proof.
  unfold casesWith. induction l as [|c l IH]; [done|]. cbn [map].
  rewrite !filter_cons. repeat case_decide; cbn [length]; try done.
  by rewrite IH.
Qed.

(** X11.  A set evaluator that was fed the cases of a set has counted every
    case once, under the verdict it returned for it: the counter of a status
    is the number of cases with that verdict; it returned one verdict for
    each case; and the point at stake is still the point of the set. *)
Theorem set_counters_count_cases (set : CaseSet.t) (cases : list JudgedCase) :
  let e := (feedCases (simpleCaseSetEvaluator.new set) cases).2 in
  (∀ st, count_of (simpleCaseSetEvaluator.statuses e) st
         = Z.of_nat (casesWith st cases)) ∧
  length (feedCases (simpleCaseSetEvaluator.new set) cases).1 = length cases ∧
  simpleCaseSetEvaluator.setPoint e = CaseSet.Point set.
Proof.
  cbn zeta. split; [|split].
  - intros st. rewrite feedCases_statuses, feedCases_verdicts.
    rewrite count_of_foldr_bump.
    cbn [simpleCaseSetEvaluator.new simpleCaseSetEvaluator.statuses].
    unfold count_of at 1. rewrite lookup_empty. cbn [default].
    rewrite Z.add_0_l. f_equal.
    rewrite <-length_filter_map_verdict.
    apply Permutation_length. apply filter_Permutation.
    symmetry. apply Permutation_rev.
  - rewrite feedCases_verdicts. by rewrite length_map.
  - by rewrite feedCases_setPoint.
Qed.

(** ** The submission evaluator *)

Lemma evaluate_last (e : simpleEvaluator.t) ls st pt :
  simpleEvaluator.lastSet e = Some ls →
  cse_evaluate ls = (st, pt) →
  simpleEvaluator.evaluate e
  = ((evaluateStatuses (bump st (simpleEvaluator.statuses e)),
      wrap64 (simpleEvaluator.point e + pt)),
     {| simpleEvaluator.point := wrap64 (simpleEvaluator.point e + pt);
        simpleEvaluator.statuses := bump st (simpleEvaluator.statuses e);
        simpleEvaluator.lastSet := Some ls |}).
Proof.
  intros Hls Hev. unfold simpleEvaluator.evaluate, simpleEvaluator.next.
  rewrite Hls, Hev. done.
Qed.

(** X12.  [evaluate] of the exact-match submission evaluator leaves the
    last set in place: a second call counts that set a second time, in the
    point and in the counters. *)
Theorem evaluate_twice_counts_twice (e : simpleEvaluator.t)
    (ls : caseSetEvaluator) (st : JudgementStatus) (pt : Z) :
  simpleEvaluator.lastSet e = Some ls →
  cse_evaluate ls = (st, pt) →
  let e1 := (simpleEvaluator.evaluate e).2 in
  let e2 := (simpleEvaluator.evaluate e1).2 in
  (simpleEvaluator.evaluate e).1.2 = wrap64 (simpleEvaluator.point e + pt) ∧
  (simpleEvaluator.evaluate e1).1.2
  = wrap64 (wrap64 (simpleEvaluator.point e + pt) + pt) ∧
  count_of (simpleEvaluator.statuses e1) st
  = count_of (simpleEvaluator.statuses e) st + 1 ∧
  count_of (simpleEvaluator.statuses e2) st
  = count_of (simpleEvaluator.statuses e) st + 2.
Proof.
  intros Hls Hev. cbn zeta.
  rewrite (evaluate_last e ls st pt Hls Hev). cbn [fst snd].
  erewrite (evaluate_last _ ls st pt) by (done || by cbn).
  cbn [fst snd simpleEvaluator.statuses simpleEvaluator.point].
  rewrite !count_of_bump, decide_True by done.
  repeat split; lia.
Qed.

Lemma evaluate_twice_counts_twice_witness :
  let e := simpleEvaluator.next simpleEvaluator.new (Some sampleSet) None in
  let e' := feedSet e [(Some acceptedRun, sampleCase)] in
  (simpleEvaluator.evaluate e').1.2 = 100 ∧
  (simpleEvaluator.evaluate (simpleEvaluator.evaluate e').2).1.2 = 200.
Proof.
  cbn zeta.
  set (e' := feedSet _ _).
  assert (∃ ls, simpleEvaluator.lastSet e' = Some ls ∧
                cse_evaluate ls = (StatusAccepted, 100)) as (ls & Hls & Hev).
  { eexists. split; [reflexivity|]. vm_compute. reflexivity. }
  destruct (evaluate_twice_counts_twice e' ls StatusAccepted 100 Hls Hev)
    as (H1 & H2 & _).
  split; [exact H1 | exact H2].
Defined.

Lemma wrap64_add_l a b : wrap64 (wrap64 a + b) = wrap64 (a + b).
Proof.
  unfold wrap64. f_equal.
  replace ((a + 2 ^ 63) mod 2 ^ 64 - 2 ^ 63 + b + 2 ^ 63)
    with ((a + 2 ^ 63) mod 2 ^ 64 + b) by lia.
  rewrite Zplus_mod_idemp_l. f_equal. lia.
Qed.

Lemma addPoints_perm acc pts1 pts2 :
  pts1 ≡ₚ pts2 → addPoints acc pts1 = addPoints acc pts2.
Proof.
  intros Hp. revert acc.
  induction Hp as [|p l1 l2 _ IH|p q l|l1 l2 l3 _ IH1 _ IH2]; intros acc.
  - done.
  - cbn. apply IH.
  - cbn. f_equal. rewrite !wrap64_add_l. f_equal. lia.
  - by rewrite IH1.
Qed.

(** The counters and the point of the submission evaluator after the sets,
    when its last set is an exact-match set evaluator. *)
Lemma evaluate_feedSets_statuses e c sets :
  simpleEvaluator.lastSet e = Some (simpleCaseSetEvaluator.object c) →
  simpleEvaluator.statuses (simpleEvaluator.evaluate (feedSets e sets)).2
  = foldr bump (simpleEvaluator.statuses e)
      (rev ((simpleCaseSetEvaluator.evaluate c).1
            :: map (λ sc, (setVerdict sc.1 sc.2).1) sets)) ∧
  (simpleEvaluator.evaluate (feedSets e sets)).1.1
  = evaluateStatuses
      (simpleEvaluator.statuses
         (simpleEvaluator.evaluate (feedSets e sets)).2).
Proof.
  revert e c. induction sets as [|[set cases] rest IH]; intros e c He.
  - cbn [feedSets map rev app].
    destruct (simpleCaseSetEvaluator.evaluate c) as [st pt] eqn:Hc.
    rewrite (evaluate_last e _ st pt He) by (unfold cse_evaluate; by cbn).
    done.
  - cbn [feedSets map].
    set (e1 := simpleEvaluator.next e (Some set) None).
    assert (simpleEvaluator.lastSet e1
            = Some (simpleCaseSetEvaluator.object
                      (simpleCaseSetEvaluator.new set))) as He1.
    { unfold e1, simpleEvaluator.next. rewrite He.
      by destruct (cse_evaluate _). }
    assert (simpleEvaluator.statuses e1
            = bump (simpleCaseSetEvaluator.evaluate c).1
                (simpleEvaluator.statuses e)) as Hs1.
    { unfold e1, simpleEvaluator.next. rewrite He. unfold cse_evaluate. cbn.
      by destruct (simpleCaseSetEvaluator.evaluate c). }
    rewrite (feedSet_object e1 _ cases He1).
    match goal with
    | |- context [feedSets ?e' rest] =>
        destruct (IH e' (feedCases (simpleCaseSetEvaluator.new set) cases).2
                    eq_refl) as [IH1 IH2]
    end.
    rewrite IH2. split; [|done]. rewrite IH1.
    cbn [simpleEvaluator.statuses]. rewrite Hs1.
    change (simpleCaseSetEvaluator.evaluate
              (feedCases (simpleCaseSetEvaluator.new set) cases).2)
      with (setVerdict set cases).
    cbn [rev]. rewrite !foldr_app. done.
Qed.

(** X13.  The verdict and the point of a submission do not depend on the
    order in which its sets are judged: the exact-match evaluator fed the
    same sets (each with its cases) in another order hands back the same
    status and the same point, also when the sum of the points wraps. *)
Theorem set_order_irrelevant
    (sets1 sets2 : list (CaseSet.t * list JudgedCase)) :
  sets1 ≡ₚ sets2 →
  (simpleEvaluator.evaluate (feedSets simpleEvaluator.new sets1)).1
  = (simpleEvaluator.evaluate (feedSets simpleEvaluator.new sets2)).1.
Proof.
  intros Hp.
  assert (∀ sets,
            (simpleEvaluator.evaluate (feedSets simpleEvaluator.new sets)).1
            = match sets with
              | [] => (StatusUnknownError, 0)
              | _ =>
                  (evaluateStatuses
                     (tally (map (λ sc, (setVerdict sc.1 sc.2).1) sets)),
                   addPoints 0 (map (λ sc, (setVerdict sc.1 sc.2).2) sets))
              end) as Hform.
  { intros [|[set cases] rest]; [done|].
    apply injective_projections.
    - cbn [feedSets fst].
      set (e1 := simpleEvaluator.next simpleEvaluator.new (Some set) None).
      rewrite (feedSet_object e1 (simpleCaseSetEvaluator.new set) cases
                 eq_refl).
      edestruct (evaluate_feedSets_statuses
                   {| simpleEvaluator.point := simpleEvaluator.point e1;
                      simpleEvaluator.statuses := simpleEvaluator.statuses e1;
                      simpleEvaluator.lastSet :=
                        Some (simpleCaseSetEvaluator.object
                                (feedCases (simpleCaseSetEvaluator.new set)
                                   cases).2) |}
                   _ rest eq_refl) as [H1 H2].
      rewrite H2, H1. f_equal. unfold tally.
      apply (foldr_permutation_proper (=) bump _ bump_bump).
      symmetry. apply Permutation_rev.
    - cbn [snd]. apply evaluate_feedSets_new. }
  rewrite !Hform.
  destruct sets1 as [|s1 r1], sets2 as [|s2 r2]; [done| | |].
  - by apply Permutation_nil_cons in Hp.
  - symmetry in Hp. by apply Permutation_nil_cons in Hp.
  - f_equal.
    + f_equal. unfold tally.
      apply (foldr_permutation_proper (=) bump _ bump_bump).
      by apply Permutation_map.
    + apply addPoints_perm. by apply Permutation_map.
Qed.

Lemma set_order_irrelevant_witness :
  (simpleEvaluator.evaluate
     (feedSets simpleEvaluator.new (rev sampleSets))).1
  = (simpleEvaluator.evaluate (feedSets simpleEvaluator.new sampleSets)).1.
Proof.
  apply set_order_irrelevant. symmetry. apply Permutation_rev.
Defined.

(** ** The rows a run writes *)

Lemma updatedWithin_refl {V} ids (m : gmap nat V) : updatedWithin ids m m.
Proof. intros k. by left. Qed.

Lemma updatedWithin_trans {V} ids (m1 m2 m3 : gmap nat V) :
  updatedWithin ids m1 m2 → updatedWithin ids m2 m3 →
  updatedWithin ids m1 m3.
Proof.
  intros H12 H23 k.
  destruct (H12 k) as [E12|(Hk & Ha & Hb)], (H23 k) as [E23|(Hk' & Hc & Hd)].
  - left. congruence.
  - right. rewrite <-E12. done.
  - right. rewrite E23. done.
  - right. done.
Qed.

Lemma updatedWithin_mono {V} ids ids' (m m' : gmap nat V) :
  (∀ k, k ∈ ids → k ∈ ids') →
  updatedWithin ids m m' → updatedWithin ids' m m'.
Proof.
  intros Hsub H k. destruct (H k) as [E|(Hk & Ha & Hb)]; [by left|].
  right. split; [by apply Hsub | done].
Qed.

Lemma updatedWithin_alter {V} ids (f : V → V) id (m : gmap nat V) :
  id ∈ ids → updatedWithin ids m (alter f id m).
Proof.
  intros Hid k. rewrite lookup_alter. case_decide; [|by left]. subst k.
  destruct (m !! id) as [v|]; [|by left]. right.
  split; [done|]. split; by eexists.
Qed.

Lemma updatedWithin_foldl_alter {V} ids (f : V → V) ks :
  ∀ m : gmap nat V,
    (∀ k, k ∈ ks → k ∈ ids) →
    updatedWithin ids m (foldl (λ m k, alter f k m) m ks).
Proof.
  induction ks as [|k ks IH]; intros m Hks; [apply updatedWithin_refl|].
  cbn [foldl]. eapply updatedWithin_trans.
  - apply (updatedWithin_alter ids f k). apply Hks. by left.
  - apply IH. intros k' Hk'. apply Hks. by right.
Qed.

Lemma judgeCases_within (p : Parser) (n : nat) :
  ∀ rest i ev d,
    judge_set_results (judgeCases p n i rest ev d).2 = judge_set_results d ∧
    updatedWithin (map JudgeResult.ID rest) (judge_results d)
      (judge_results (judgeCases p n i rest ev d).2).
Proof.
  induction rest as [|r rest IH]; intros i ev d;
    [split; [done | apply updatedWithin_refl]|].
  cbn [judgeCases].
  destruct (err (p i)); [split; [done | apply updatedWithin_refl]|].
  destruct (negb (has (p i)) && _);
    [split; [done | apply updatedWithin_refl]|].
  destruct (ev_setNext ev (res (p i)) (JudgeResult.TestCase r))
    as [[st pt] ev'].
  destruct (res (p i)) as [x|]; [|split; [done | apply updatedWithin_refl]].
  match goal with
  | |- context [judgeCases p n (S i) rest ev' ?d'] =>
      destruct (IH (S i) ev' d') as [IH1 IH2]
  end.
  split; [by rewrite IH1|].
  eapply updatedWithin_trans.
  - apply (updatedWithin_alter (map JudgeResult.ID (r :: rest))).
    cbn [map]. by left.
  - eapply updatedWithin_mono; [|exact IH2].
    intros k Hk. cbn [map]. by right.
Qed.

Lemma judgeCaseSet_within h ev sr w :
  updatedWithin [JudgeSetResult.ID sr] (judge_set_results (db w))
    (judge_set_results (db (judgeCaseSet h ev sr w).2)) ∧
  updatedWithin (resultIDs sr) (judge_results (db w))
    (judge_results (db (judgeCaseSet h ev sr w).2)).
Proof.
  unfold judgeCaseSet.
  pose proof (judgeCases_within (NewExecResultParser h w)
                (length (JudgeSetResult.JudgeResults sr)) 
                (JudgeSetResult.JudgeResults sr) 0 ev (db w)) as [H1 H2].
  destruct (judgeCases _ _ _ _ _ _) as [[[x|] ev'] d]; cbn [snd] in *.
  - cbn. rewrite H1. split; [apply updatedWithin_refl | done].
  - destruct (ev_setEvaluate ev') as [st pt]. cbn. rewrite H1.
    split; [|done]. apply updatedWithin_alter. by left.
Qed.

Lemma executeCaseSet_result env j r w :
  JudgeSetResult.ID (executeCaseSet env j r w).1.2 = JudgeSetResult.ID r ∧
  resultIDs (executeCaseSet env j r w).1.2 ≡ₚ resultIDs r.
Proof.
  unfold executeCaseSet.
  assert ((createJudgementWorker env (setEnv env (JudgeSetResult.ID r)) j
             (JudgeSetResult.JudgeResults r) w).1.2
          ≡ₚ JudgeSetResult.JudgeResults r) as Hp.
  { unfold createJudgementWorker.
    destruct (newWorker _); [|done]. cbn [negb]. unfold createSandbox.
    destruct (judgeScript env); [|done].
    destruct (copyScript _); [|done]. cbn [negb].
    destruct (injectInputs _ _ _ _ _) as [[|] w1];
      [|apply shuffleJudgeResults_perm].
    destruct (compiled j); [|apply shuffleJudgeResults_perm].
    destruct (copyExe _); apply shuffleJudgeResults_perm. }
  destruct (createJudgementWorker _ _ _ _ _) as [[h rs] w1]. cbn [fst snd] in Hp.
  assert (resultIDs (JudgeSetResult.withJudgeResults r rs) ≡ₚ resultIDs r)
    as Hids by (unfold resultIDs; cbn; by apply Permutation_map).
  destruct h as [h|]; [|done].
  by destruct (_ ≫= _).
Qed.

Lemma judgeSets_within env j :
  ∀ sets eval et mu w,
    updatedWithin (map JudgeSetResult.ID sets) (judge_set_results (db w))
      (judge_set_results (db (judgeSets env j sets eval et mu w).2)) ∧
    updatedWithin (concat (map resultIDs sets)) (judge_results (db w))
      (judge_results (db (judgeSets env j sets eval et mu w).2)).
Proof.
  induction sets as [|r rest IH]; intros eval et mu w;
    [split; apply updatedWithin_refl|].
  cbn [judgeSets].
  pose proof (executeCaseSet_frame env j r w) as [Hdb _].
  pose proof (executeCaseSet_result env j r w) as [Hid Hids].
  destruct (executeCaseSet env j r w) as [[[h|] r'] w1]; cbn [fst snd] in *;
    [|rewrite Hdb; split; apply updatedWithin_refl].
  pose proof (judgeCaseSet_within h
                (ev_next eval (JudgeSetResult.CaseSet r)) r' w1) as [Hs Hc].
  rewrite Hdb, Hid in Hs. rewrite Hdb in Hc.
  assert (updatedWithin (map JudgeSetResult.ID (r :: rest))
            (judge_set_results (db w))
            (judge_set_results
               (db (judgeCaseSet h (ev_next eval (JudgeSetResult.CaseSet r))
                      r' w1).2))) as Hs'.
  { eapply updatedWithin_mono; [|exact Hs].
    intros k Hk. apply list_elem_of_singleton in Hk as ->. cbn. by left. }
  assert (updatedWithin (concat (map resultIDs (r :: rest)))
            (judge_results (db w))
            (judge_results
               (db (judgeCaseSet h (ev_next eval (JudgeSetResult.CaseSet r))
                      r' w1).2))) as Hc'.
  { eapply updatedWithin_mono; [|exact Hc].
    intros k Hk. cbn [map concat]. apply elem_of_app. left.
    by rewrite <-Hids. }
  destruct (judgeCaseSet h _ r' w1) as [[[[e|] ev'] r''] w2];
    cbn [snd] in *; [|done].
  destruct (IH ev' (MaxDuration et (JudgeSetResult.ExecTime r''))
              (MaxLong mu (JudgeSetResult.MemoryUsage r'')) w2) as [IH1 IH2].
  split.
  - eapply updatedWithin_trans; [exact Hs'|].
    eapply updatedWithin_mono; [|exact IH1]. intros k Hk. cbn. by right.
  - eapply updatedWithin_trans; [exact Hc'|].
    eapply updatedWithin_mono; [|exact IH2]. intros k Hk.
    cbn [map concat]. apply elem_of_app. by right.
Qed.

Lemma markAs_within sets st d :
  updatedWithin (map JudgeSetResult.ID sets) (judge_set_results d)
    (judge_set_results (markAs sets st d)) ∧
  updatedWithin (concat (map resultIDs sets)) (judge_results d)
    (judge_results (markAs sets st d)).
Proof.
  rewrite markAs_spec. cbn. split; by apply updatedWithin_foldl_alter.
Qed.

Lemma runBody_within env sub w :
  updatedWithin (map JudgeSetResult.ID (Submission.JudgeSetResults sub))
    (judge_set_results (db w))
    (judge_set_results (db (runBody env sub w).2)) ∧
  updatedWithin (concat (map resultIDs (Submission.JudgeSetResults sub)))
    (judge_results (db w)) (judge_results (db (runBody env sub w).2)).
Proof.
  unfold runBody.
  destruct (selectEvaluator env (Submission.JudgeType sub)) as [eval|];
    [|apply markAs_within].
  pose proof (compile_frame env (Submission.SourceCode sub)
                (Submission.Language sub) w) as [Hc _].
  destruct (compile env _ _ w) as [[c cr] w1]. cbn [snd] in Hc.
  rewrite <-Hc.
  assert (∀ (ev' : evaluator) st et mu (w2 : World) P,
            P (db w2) →
            P (db (let '(st, pt) :=
                     if decide (st ≠ StatusCompileError)
                     then (ev_evaluate ev').1 else (st, 0) in
                   let sub' := Submission.judged sub pt st et mu in
                   (Returned None,
                    {| job := {| submission := sub'; compiled := c |};
                       execTime := et; memoryUsage := mu; runPoint := pt;
                       finalStatus := st |},
                    contestScore env sub' w2)).2)) as Htail.
  { intros ev' st et mu w2 P HP.
    destruct (if decide (st ≠ StatusCompileError)
              then (ev_evaluate ev').1 else (st, 0)) as [st' pt].
    cbn [snd]. by rewrite contestScore_db. }
  destruct c as [c|]; [destruct cr as [r|]|].
  - destruct (decide (workers.Status r ≠ workers.StatusFinished)).
    + apply (Htail _ _ _ _ _
               (λ d, updatedWithin _ _ (judge_set_results d)
                     ∧ updatedWithin _ _ (judge_results d))).
      apply markAs_within.
    + pose proof (judgeSets_within env
                    {| submission := sub; compiled := Some c |}
                    (Submission.JudgeSetResults sub) eval 0 0 w1) as Hs.
      destruct (judgeSets env _ _ eval 0 0 w1) as [[[[[|] ev'] et] mu] w2];
        cbn [snd] in *; [done|].
      by apply (Htail _ _ _ _ _
                  (λ d, updatedWithin _ _ (judge_set_results d)
                        ∧ updatedWithin _ _ (judge_results d))).
  - apply (Htail _ _ _ _ _
             (λ d, updatedWithin _ _ (judge_set_results d)
                   ∧ updatedWithin _ _ (judge_results d))).
    apply markAs_within.
  - apply (Htail _ _ _ _ _
             (λ d, updatedWithin _ _ (judge_set_results d)
                   ∧ updatedWithin _ _ (judge_results d))).
    apply markAs_within.
Qed.

(** X14.  A run writes the rows of its own submission only, and neither
    creates nor deletes a row: in each of the three tables every key has
    the row it had, or belongs to the submission (its own key, the keys of
    its sets, the keys of the cases of its sets) and has a row before and
    after.  When the submission is not found nothing is written. *)
Theorem Run_writes_own_rows (env : Env) (id : nat) (w : World) :
  match GetSubmission env id with
  | None => db (Run env id w).2 = db w
  | Some sub =>
      let sets := Submission.JudgeSetResults sub in
      updatedWithin [Submission.ID sub] (submissions (db w))
        (submissions (db (Run env id w).2)) ∧
      updatedWithin (map JudgeSetResult.ID sets) (judge_set_results (db w))
        (judge_set_results (db (Run env id w).2)) ∧
      updatedWithin (concat (map resultIDs sets)) (judge_results (db w))
        (judge_results (db (Run env id w).2))
  end.
Proof.
  destruct (GetSubmission env id) as [sub|] eqn:Hsub;
    unfold Run, SetStatus; rewrite Hsub; [|done].
  set (sub1 := Submission.withStatus sub StatusJudging).
  set (w1 := withDB _ w).
  pose proof (runBody_frame env sub1 w1) as (Hs & _ & Hid & _).
  pose proof (runBody_within env sub1 w1) as [Hsets Hcases].
  destruct (runBody env sub1 w1) as [[x s] w2]. cbn [fst snd] in *.
  assert (db (Close (job s) (finalize s w2))
          = updateSubmission (Submission.ID sub)
              (λ _, {| status := finalStatus s; point := runPoint s;
                       exec_time := execTime s;
                       memory_usage := memoryUsage s |}) (db w2)) as ->.
  { unfold Close. destruct (compiled (job s)); unfold finalize, Remove;
      cbn [db withSandboxes]; by rewrite Hid. }
  cbn [updateSubmission submissions judge_set_results judge_results].
  split; [|split; [exact Hsets | exact Hcases]].
  rewrite Hs. unfold w1. cbn.
  eapply updatedWithin_trans; apply updatedWithin_alter; by left.
Qed.

(** ** White space around an answer *)

Lemma strip_prefix_length p s s' :
  strip_prefix p s = Some s' → (length s' + length p = length s)%nat.
Proof.
  revert s. induction p as [|a p IH]; intros s; cbn.
  - intros [= ->]. lia.
  - destruct s as [|b s]; [done|]. case_decide; [|done].
    intros Hs. apply IH in Hs. cbn. lia.
Qed.

Lemma strip_any_length encs s s' :
  Forall (λ p, p ≠ []) encs →
  strip_any encs s = Some s' → (length s' < length s)%nat.
Proof.
  induction 1 as [|p ps Hp _ IH]; cbn; [done|].
  destruct (strip_prefix p s) as [t|] eqn:Ht.
  - intros [= <-]. apply strip_prefix_length in Ht.
    destruct p; [done|]. cbn in Ht. lia.
  - apply IH.
Qed.

Lemma strip_prefix_blank_None p post :
  Forall (λ a, a ∉ asciiSpace) p → p ≠ [] →
  Forall (λ a, a ∈ asciiSpace) post →
  strip_prefix p post = None.
Proof.
  intros Hp Hne Hpost. destruct p as [|a p]; [done|].
  destruct post as [|b post]; [done|]. cbn.
  case_decide; [|done]. subst b.
  apply Forall_cons in Hp as [Ha _]. apply Forall_cons in Hpost as [Hb _].
  done.
Qed.

Lemma strip_prefix_app p post :
  Forall (λ a, a ∉ asciiSpace) p →
  Forall (λ a, a ∈ asciiSpace) post →
  ∀ c, strip_prefix p (c ++ post)
       = match c, p with
         | [], _ :: _ => None
         | _, _ => (λ t, t ++ post) <$> strip_prefix p c
         end.
Proof.
  intros Hp Hpost. induction Hp as [|a p Ha Hp IH]; intros c.
  - by destruct c.
  - destruct c as [|b c].
    + cbn [app]. apply strip_prefix_blank_None; [by constructor|done..].
    + cbn [app strip_prefix]. case_decide; [|done].
      rewrite IH. destruct c as [|b' c], p as [|a' p]; done.
Qed.

Lemma strip_any_app encs post c :
  Forall (λ p, Forall (λ a, a ∉ asciiSpace) (tail p)) encs →
  Forall (λ a, a ∈ asciiSpace) post → c ≠ [] →
  strip_any encs (c ++ post) = (λ t, t ++ post) <$> strip_any encs c.
Proof.
  intros Htails Hpost Hc.
  induction Htails as [|p ps Hp _ IH]; cbn [strip_any]; [done|].
  assert (strip_prefix p (c ++ post)
          = (λ t, t ++ post) <$> strip_prefix p c) as ->.
  { destruct p as [|a p]; [done|]. destruct c as [|b c]; [done|].
    cbn [app strip_prefix]. case_decide; [|done]. cbn [tail] in Hp.
    rewrite strip_prefix_app by done.
    destruct c as [|b' c], p as [|a' p]; done. }
  destruct (strip_prefix p c); [done|]. apply IH.
Qed.

Section trimming.
Variable encs : list (list ascii).
Hypothesis encs_nonempty : Forall (λ p, p ≠ []) encs.
Hypothesis encs_tails :
  Forall (λ p, Forall (λ a, a ∉ asciiSpace) (tail p)) encs.
Hypothesis encs_single :
  ∀ a s, a ∈ asciiSpace → strip_any encs (a :: s) = Some s.

Lemma trim_loop_nil n : trim_loop n encs [] = [].
Proof.
  destruct n; [done|]. cbn.
  destruct (strip_any encs []) as [s|] eqn:Hs; [|done].
  apply strip_any_length in Hs; [|done]. cbn in Hs. lia.
Qed.

Lemma trim_loop_fuel n :
  ∀ s, (length s ≤ n)%nat →
       trim_loop n encs s = trim_loop (length s) encs s.
Proof.
  induction n as [n IH] using lt_wf_ind. intros s Hn.
  destruct n as [|n].
  - destruct s; [done|cbn in Hn; lia].
  - destruct s as [|a s]; [by rewrite !trim_loop_nil|].
    cbn [length trim_loop].
    destruct (strip_any encs (a :: s)) as [s'|] eqn:Hs; [|done].
    apply strip_any_length in Hs; [|done]. cbn in Hs, Hn.
    rewrite (IH n) by lia. symmetry. apply IH; lia.
Qed.

Lemma trim_loop_blank ws :
  Forall (λ a, a ∈ asciiSpace) ws →
  ∀ n s, (length (ws ++ s) ≤ n)%nat →
         trim_loop n encs (ws ++ s) = trim_loop (length s) encs s.
Proof.
  induction 1 as [|a ws Ha _ IH]; intros n s Hn.
  - by apply trim_loop_fuel.
  - destruct n as [|n]; [cbn in Hn; lia|].
    cbn [app trim_loop]. rewrite encs_single by done.
    apply IH. cbn in Hn. lia.
Qed.

Lemma trim_loop_all_blank post :
  Forall (λ a, a ∈ asciiSpace) post →
  trim_loop (length post) encs post = [].
Proof.
  intros Hpost. rewrite <-(app_nil_r post) at 2.
  rewrite (trim_loop_blank post Hpost (length post) [])
    by (rewrite app_nil_r; lia).
  done.
Qed.

Lemma trim_loop_app post :
  Forall (λ a, a ∈ asciiSpace) post →
  ∀ n c, (length c ≤ n)%nat →
    trim_loop (length (c ++ post)) encs (c ++ post)
    = match trim_loop n encs c with
      | [] => []
      | t => t ++ post
      end.
Proof.
  intros Hpost. induction n as [|n IH]; intros c Hn.
  - destruct c; [|cbn in Hn; lia]. cbn [app trim_loop].
    by apply trim_loop_all_blank.
  - destruct c as [|a c].
    + rewrite trim_loop_nil. by apply trim_loop_all_blank.
    + change (length ((a :: c) ++ post)) with (S (length (c ++ post))).
      cbn [trim_loop].
      rewrite (strip_any_app encs post (a :: c)) by done.
      destruct (strip_any encs (a :: c)) as [c'|] eqn:Hs;
        cbn [fmap option_fmap option_map]; [|done].
      apply strip_any_length in Hs; [|done]. cbn in Hs, Hn.
      rewrite <-(IH c') by lia.
      apply trim_loop_fuel. rewrite !length_app. lia.
Qed.

End trimming.

Lemma spaceEncodings_nonempty : Forall (λ p, p ≠ []) spaceEncodings.
Proof. unfold spaceEncodings. cbn. repeat constructor; discriminate. Qed.

Lemma spaceEncodings_rev_nonempty :
  Forall (λ p, p ≠ []) (map (@rev ascii) spaceEncodings).
Proof. unfold spaceEncodings. cbn. repeat constructor; discriminate. Qed.

Lemma spaceEncodings_tails :
  Forall (λ p, Forall (λ a, a ∉ asciiSpace) (tail p)) spaceEncodings.
Proof. apply (bool_decide_unpack _). vm_compute. exact I. Qed.

Lemma spaceEncodings_rev_tails :
  Forall (λ p, Forall (λ a, a ∉ asciiSpace) (tail p))
    (map (@rev ascii) spaceEncodings).
Proof. apply (bool_decide_unpack _). vm_compute. exact I. Qed.

Lemma spaceEncodings_single a s :
  a ∈ asciiSpace → strip_any spaceEncodings (a :: s) = Some s.
Proof.
  intros Ha. apply list_elem_of_In in Ha. cbn in Ha.
  destruct Ha as [<-|[<-|[<-|[<-|[<-|[<-|[]]]]]]]; reflexivity.
Qed.

Lemma spaceEncodings_rev_single a s :
  a ∈ asciiSpace →
  strip_any (map (@rev ascii) spaceEncodings) (a :: s) = Some s.
Proof.
  intros Ha. apply list_elem_of_In in Ha. cbn in Ha.
  destruct Ha as [<-|[<-|[<-|[<-|[<-|[<-|[]]]]]]]; reflexivity.
Qed.

Lemma trimLeft_blank ws s :
  Forall (λ a, a ∈ asciiSpace) ws → trimLeft (ws ++ s) = trimLeft s.
Proof.
  intros Hws. unfold trimLeft.
  by apply (trim_loop_blank _ spaceEncodings_nonempty
              spaceEncodings_single).
Qed.

Lemma trimLeft_app_blank c post :
  Forall (λ a, a ∈ asciiSpace) post →
  trimLeft (c ++ post)
  = match trimLeft c with [] => [] | t => t ++ post end.
Proof.
  intros Hpost. unfold trimLeft.
  by apply (trim_loop_app _ spaceEncodings_nonempty spaceEncodings_tails
              spaceEncodings_single).
Qed.

Lemma trimRight_blank s ws :
  Forall (λ a, a ∈ asciiSpace) ws → trimRight (s ++ ws) = trimRight s.
Proof.
  intros Hws. unfold trimRight. f_equal. rewrite rev_app_distr.
  rewrite <-(length_rev (s ++ ws)), rev_app_distr, <-(length_rev s).
  apply (trim_loop_blank _ spaceEncodings_rev_nonempty
           spaceEncodings_rev_single); [|done].
  apply Forall_forall. intros a Ha.
  rewrite elem_of_rev in Ha. rewrite Forall_forall in Hws. by apply Hws.
Qed.

Lemma TrimSpace_padding (pre core post : string) :
  blank pre → blank post →
  TrimSpace (pre +:+ core +:+ post) = TrimSpace core.
Proof.
  unfold blank, TrimSpace. intros Hpre Hpost. f_equal.
  rewrite !list_ascii_of_string_app.
  rewrite trimLeft_blank, trimLeft_app_blank by done.
  destruct (trimLeft (list_ascii_of_string core)) as [|a t] eqn:Ht; [done|].
  by apply trimRight_blank.
Qed.

(** X15.  An answer that differs from the expected output only in the
    white space of one byte around it (tabs, line ends, spaces: a missing
    or an extra final line end, say) is never a wrong answer: a finished
    run whose output and whose expected output are the same text between
    such paddings is a presentation error, or accepted when the two are
    the same bytes. *)
Theorem padded_answer_presentation_error (e : simpleCaseSetEvaluator.t)
    (res : workers.ExecResult) (tc : TestCase.t)
    (pre post pre' post' core : string) :
  workers.Status res = workers.StatusFinished →
  blank pre → blank post → blank pre' → blank post' →
  workers.Stdout res = pre +:+ core +:+ post →
  TestCase.Output tc = pre' +:+ core +:+ post' →
  (simpleCaseSetEvaluator.next e (Some res) tc).1
  = (if decide (workers.Stdout res = TestCase.Output tc)
     then StatusAccepted else StatusPresentationError, 0).
Proof.
  intros Hst Hpre Hpost Hpre' Hpost' Hout Hexp.
  unfold simpleCaseSetEvaluator.next, simpleCaseSetEvaluator.classify.
  rewrite Hst.
  destruct (decide (workers.Stdout res = TestCase.Output tc)); [done|].
  rewrite decide_True; [done|].
  rewrite Hout, Hexp. by rewrite !TrimSpace_padding.
Qed.

Lemma padded_answer_presentation_error_witness :
  (simpleCaseSetEvaluator.next emptySetEvaluator (Some paddedRun)
     sampleCase).1
  = (StatusPresentationError, 0).
Proof.
  assert (blank " ") as Hsp
    by (apply (bool_decide_unpack _); vm_compute; exact I).
  assert (blank "") as Hnil by constructor.
  exact (padded_answer_presentation_error emptySetEvaluator paddedRun
           sampleCase " " " " "" "" "3" eq_refl Hsp Hsp Hnil Hnil
           eq_refl eq_refl).
Defined.

(** * The sessions of a user *)

(** X16.  [CheckLogin] compares the age of the session the wrong way
    round: it takes the time from now back to the creation, which is not
    positive for a session made in the past.  So a session with the right
    token is refused for its age only when it was made more than a day
    after the present moment, and a session made in the past logs in
    however old it is. *)
Theorem CheckLogin_age (env : SessionEnv) (userID : nat) (token : string)
    (s : UserSession.t) :
  firstSession env userID = Some s →
  UserSession.ID s ≠ 0%nat →
  CompareHashAndPassword env (UserSession.TokenDigest s) token = true →
  CheckLogin env userID token
  = (if decide (Now env + lifetimeTicks < UserSession.CreatedAt s)
     then None else Some (FetchUser env s)) ∧
  (UserSession.CreatedAt s ≤ Now env →
   CheckLogin env userID token = Some (FetchUser env s)).
Proof.
  intros Hs Hid Htok.
  assert (CheckLogin env userID token
          = if decide (Now env + lifetimeTicks < UserSession.CreatedAt s)
            then None else Some (FetchUser env s)) as Heq.
  { unfold CheckLogin, getSession. rewrite Hs.
    rewrite decide_False by done. rewrite Htok. cbn [negb].
    unfold Sub, lifetimeTicks, Hour.
    repeat case_decide; try done; lia. }
  split; [done|]. intros Hpast. rewrite Heq.
  rewrite decide_False; [done|]. unfold lifetimeTicks, Hour. lia.
Qed.

Lemma CheckLogin_age_witness :
  CheckLogin laterEnv 7 "token" = Some (FetchUser laterEnv oldSession).
Proof.
  apply (CheckLogin_age laterEnv 7 "token" oldSession).
  - reflexivity.
  - discriminate.
  - reflexivity.
  - vm_compute. discriminate.
Defined.
